(** * Hospital appointment and triage system: a shallow embedding

    This development embeds [hospital_system.cpp] in Rocq and checks the
    properties its specification states about it.

    Conventions of the embedding.
    - A C++ [int] is a [Z].  Signed overflow is undefined behaviour in C++
      and is outside the model.
    - [unordered_map<int, T>] is a [gmap Z T].
    - The singly linked slot list headed by [slotHead] is a [list] of
      nodes in link order; a write through a [SlotNode*] obtained from
      [findSlot] is an update of the first node with that identifier.
    - [vector<Token> circBuffer] is a [list] indexed with stdpp's lookup
      and insert.  An index out of range is undefined behaviour in C++;
      the model reads the default token and writes nothing there, and
      [wf_doctor] (an invariant of every reachable state) keeps every
      index in range.
    - [std::priority_queue<TriagedToken, vector<TriagedToken>,
      greater<TriagedToken>>] is observed only through [empty], [top],
      [pop] and [push]; it is modelled by the sequence in which [top] and
      [pop] deliver its entries (module [PriorityQueue]).
    - [stack<Action>] is a [list] whose head is the top.
    - A [bool] function with a reference out-parameter returns an
      [option]; a member function returns its result together with the
      new object. *)

From stdpp Require Import base numbers list gmap strings sorting.
From Stdlib Require Import ZArith Lia.

Local Open Scope Z_scope.

(** ** Data model *)

Inductive TokenType : Set := ROUTINE | EMERGENCY.

#[global] Instance TokenType_eq_dec : EqDecision TokenType.
Proof. solve_decision. Defined.

Module Patient.
Record t : Type := mk {
  id : Z;
  name : string;
  age : Z;
  history : string;
  freq : Z
}.
(** [Patient()] *)
Definition default : t := mk 0 "" 0 "" 0.
(** [++p.freq] *)
Definition bump (p : t) : t := mk (id p) (name p) (age p) (history p) (freq p + 1).
(** The record without its visit-frequency counter. *)
Definition forgetFreq (p : t) : t := mk (id p) (name p) (age p) (history p) 0.
End Patient.

Module Token.
Record t : Type := mk {
  tokenId : Z;
  patientId : Z;
  doctorId : Z;
  slotId : Z;
  type : TokenType
}.
(** [Token()] *)
Definition default : t := mk (-1) (-1) (-1) (-1) ROUTINE.
Definition set_type (ty : TokenType) (tk : t) : t :=
  mk (tokenId tk) (patientId tk) (doctorId tk) (slotId tk) ty.
End Token.

#[global] Instance Token_inhabited : Inhabited Token.t := populate Token.default.

Module SlotNode.
Record t : Type := mk {
  slotId : Z;
  startTime : string;
  endTime : string;
  taken : bool;
  tokenId : Z
}.
(** [SlotNode(sid, s, e)] *)
Definition new (sid : Z) (s e : string) : t := mk sid s e false (-1).
(** [s->taken = tk; s->tokenId = tid;] *)
Definition occupy (tk : bool) (tid : Z) (s : t) : t :=
  mk (slotId s) (startTime s) (endTime s) tk tid.
End SlotNode.

Module Doctor.
Record t : Type := mk {
  id : Z;
  name : string;
  specialization : string;
  slotHead : list SlotNode.t;
  circBuffer : list Token.t;
  frontIdx : Z;
  rearIdx : Z;
  capacity : Z;
  sizeQ : Z
}.

(** [Doctor(_id, _name, _spec, cap)]; the caller checks [0 <= cap]
    ([vector<Token>(cap)] throws otherwise). *)
Definition new (_id : Z) (_name _spec : string) (cap : Z) : t :=
  mk _id _name _spec [] (replicate (Z.to_nat cap) Token.default) 0 (-1) cap 0.

Definition set_slotHead (l : list SlotNode.t) (D : t) : t :=
  mk (id D) (name D) (specialization D) l (circBuffer D)
     (frontIdx D) (rearIdx D) (capacity D) (sizeQ D).

Definition set_queue (buf : list Token.t) (f r sz : Z) (D : t) : t :=
  mk (id D) (name D) (specialization D) (slotHead D) buf f r (capacity D) sz.

Definition isFull (D : t) : bool := sizeQ D =? capacity D.
Definition isEmpty (D : t) : bool := sizeQ D =? 0.

Definition enqueueRoutine (tk : Token.t) (D : t) : bool * t :=
  if isFull D then (false, D)
  else
    let rear := Z.rem (rearIdx D + 1) (capacity D) in
    (true, set_queue (<[Z.to_nat rear := tk]> (circBuffer D))
                     (frontIdx D) rear (sizeQ D + 1) D).

Definition dequeueRoutine (D : t) : option Token.t * t :=
  if isEmpty D then (None, D)
  else
    let out := circBuffer D !!! Z.to_nat (frontIdx D) in
    let front := Z.rem (frontIdx D + 1) (capacity D) in
    let sz := sizeQ D - 1 in
    if sz =? 0 then (Some out, set_queue (circBuffer D) 0 (-1) 0 D)
    else (Some out, set_queue (circBuffer D) front (rearIdx D) sz D).

Definition peekRoutine (D : t) : option Token.t :=
  if isEmpty D then None else Some (circBuffer D !!! Z.to_nat (frontIdx D)).

Definition pendingCount (D : t) : Z := sizeQ D.

Definition insertSlot (slotId : Z) (s e : string) (D : t) : t :=
  set_slotHead (slotHead D ++ [SlotNode.new slotId s e]) D.

(** The walk of [cancelSlot] over the list: unlink the first node whose
    identifier matches. *)
Fixpoint unlink (slotId : Z) (l : list SlotNode.t) : option (list SlotNode.t) :=
  match l with
  | [] => None
  | cur :: nxt =>
      if SlotNode.slotId cur =? slotId then Some nxt
      else match unlink slotId nxt with
           | Some nxt' => Some (cur :: nxt')
           | None => None
           end
  end.

Definition cancelSlot (slotId : Z) (D : t) : bool * t :=
  match unlink slotId (slotHead D) with
  | Some l => (true, set_slotHead l D)
  | None => (false, D)
  end.

Fixpoint find (slotId : Z) (l : list SlotNode.t) : option SlotNode.t :=
  match l with
  | [] => None
  | cur :: nxt => if SlotNode.slotId cur =? slotId then Some cur else find slotId nxt
  end.

Definition findSlot (slotId : Z) (D : t) : option SlotNode.t :=
  find slotId (slotHead D).

(** A write [slot->taken = tk; slot->tokenId = tid] through the pointer
    [slot = findSlot(slotId)]: it lands in the first node with that
    identifier. *)
Fixpoint write (slotId : Z) (tk : bool) (tid : Z) (l : list SlotNode.t)
  : list SlotNode.t :=
  match l with
  | [] => []
  | cur :: nxt =>
      if SlotNode.slotId cur =? slotId then SlotNode.occupy tk tid cur :: nxt
      else cur :: write slotId tk tid nxt
  end.

Definition writeSlot (slotId : Z) (tk : bool) (tid : Z) (D : t) : t :=
  set_slotHead (write slotId tk tid (slotHead D)) D.

Fixpoint firstFree (l : list SlotNode.t) : option SlotNode.t :=
  match l with
  | [] => None
  | cur :: nxt => if negb (SlotNode.taken cur) then Some cur else firstFree nxt
  end.

Definition nextFreeSlot (D : t) : option SlotNode.t := firstFree (slotHead D).

(** The scan of [serveNext] over the slot list: the first taken node, as
    it was found, and the list with that node vacated. *)
Fixpoint vacateFirstTaken (l : list SlotNode.t)
  : option (SlotNode.t * list SlotNode.t) :=
  match l with
  | [] => None
  | s :: nxt =>
      if SlotNode.taken s then Some (s, SlotNode.occupy false (-1) s :: nxt)
      else match vacateFirstTaken nxt with
           | Some (found, nxt') => Some (found, s :: nxt')
           | None => None
           end
  end.
End Doctor.

Module TriagedToken.
Record t : Type := mk {
  severity : Z;
  token : Token.t
}.
(** [operator>] *)
Definition gt (a other : t) : bool :=
  if negb (severity a =? severity other) then severity a >? severity other
  else Token.tokenId (token a) >? Token.tokenId (token other).
End TriagedToken.

(** [std::priority_queue] with comparator [greater<TriagedToken>]: the
    queue is the sequence of its entries in the order [top]/[pop] deliver
    them, least first.  [push] places the new entry before the first entry
    that is greater than it. *)
Module PriorityQueue.
Definition t : Type := list TriagedToken.t.
Definition empty (q : t) : bool := match q with [] => true | _ => false end.
Definition top (q : t) : option TriagedToken.t := head q.
Definition pop (q : t) : t := tail q.
Fixpoint push (x : TriagedToken.t) (q : t) : t :=
  match q with
  | [] => [x]
  | y :: q' => if TriagedToken.gt y x then x :: y :: q' else y :: push x q'
  end.
End PriorityQueue.

Inductive ActionType : Set := BOOK | CANCEL | SERVE | REGISTER_PATIENT | TRIAGE_INSERT.

#[global] Instance ActionType_eq_dec : EqDecision ActionType.
Proof. solve_decision. Defined.

Module Action.
Record t : Type := mk {
  type : ActionType;
  token : Token.t;
  slotId : Z;
  doctorId : Z;
  patientSnapshot : Patient.t;
  slotPreviouslyTaken : bool;
  severity : Z;
  patientIdForUpsert : Z;
  patientExistedBefore : bool
}.
(** [Action act; act.type = ty;] with the member initialisers of the
    struct. *)
Definition init (ty : ActionType) : t :=
  mk ty Token.default (-1) (-1) Patient.default false 0 (-1) false.
Definition set_token (tk : Token.t) (a : t) : t :=
  mk (type a) tk (slotId a) (doctorId a) (patientSnapshot a)
     (slotPreviouslyTaken a) (severity a) (patientIdForUpsert a)
     (patientExistedBefore a).
Definition set_slotId (s : Z) (a : t) : t :=
  mk (type a) (token a) s (doctorId a) (patientSnapshot a)
     (slotPreviouslyTaken a) (severity a) (patientIdForUpsert a)
     (patientExistedBefore a).
Definition set_doctorId (d : Z) (a : t) : t :=
  mk (type a) (token a) (slotId a) d (patientSnapshot a)
     (slotPreviouslyTaken a) (severity a) (patientIdForUpsert a)
     (patientExistedBefore a).
Definition set_slotPreviouslyTaken (b : bool) (a : t) : t :=
  mk (type a) (token a) (slotId a) (doctorId a) (patientSnapshot a)
     b (severity a) (patientIdForUpsert a) (patientExistedBefore a).
Definition set_severity (s : Z) (a : t) : t :=
  mk (type a) (token a) (slotId a) (doctorId a) (patientSnapshot a)
     (slotPreviouslyTaken a) s (patientIdForUpsert a)
     (patientExistedBefore a).
Definition set_upsert (existed : bool) (pid : Z) (snap : Patient.t) (a : t) : t :=
  mk (type a) (token a) (slotId a) (doctorId a) snap
     (slotPreviouslyTaken a) (severity a) pid existed.
End Action.

(** ** The system and its operations *)

Module HospitalSystem.
Record t : Type := mk {
  doctors : gmap Z Doctor.t;
  patients : gmap Z Patient.t;
  triageHeap : PriorityQueue.t;
  undoStack : list Action.t;
  nextTokenId : Z;
  servedCount : Z;
  pendingCountTotal : Z
}.

(** [HospitalSystem() = default] *)
Definition init : t := mk ∅ ∅ [] [] 1 0 0.

Definition set_doctors (v : gmap Z Doctor.t) (H : t) : t :=
  mk v (patients H) (triageHeap H) (undoStack H) (nextTokenId H)
     (servedCount H) (pendingCountTotal H).
Definition set_patients (v : gmap Z Patient.t) (H : t) : t :=
  mk (doctors H) v (triageHeap H) (undoStack H) (nextTokenId H)
     (servedCount H) (pendingCountTotal H).
Definition set_triageHeap (v : PriorityQueue.t) (H : t) : t :=
  mk (doctors H) (patients H) v (undoStack H) (nextTokenId H)
     (servedCount H) (pendingCountTotal H).
Definition set_undoStack (v : list Action.t) (H : t) : t :=
  mk (doctors H) (patients H) (triageHeap H) v (nextTokenId H)
     (servedCount H) (pendingCountTotal H).
Definition set_nextTokenId (v : Z) (H : t) : t :=
  mk (doctors H) (patients H) (triageHeap H) (undoStack H) v
     (servedCount H) (pendingCountTotal H).
Definition set_servedCount (v : Z) (H : t) : t :=
  mk (doctors H) (patients H) (triageHeap H) (undoStack H) (nextTokenId H)
     v (pendingCountTotal H).
Definition set_pendingCountTotal (v : Z) (H : t) : t :=
  mk (doctors H) (patients H) (triageHeap H) (undoStack H) (nextTokenId H)
     (servedCount H) v.

(** [undoStack.push(act)] *)
Definition pushAction (act : Action.t) (H : t) : t :=
  set_undoStack (act :: undoStack H) H.

(** [++patients[k].freq]: [operator[]] default-constructs a missing
    entry. *)
Definition bumpFreq (k : Z) (m : gmap Z Patient.t) : gmap Z Patient.t :=
  <[k := Patient.bump (default Patient.default (m !! k))]> m.

(** [addDoctor].  [None]: the constructor of [Doctor] throws
    ([vector<Token>(cap)] with a negative [cap]) and nothing catches it. *)
Definition addDoctor (docId : Z) (name spec : string) (queueCap : Z) (H : t)
  : option (bool * t) :=
  match doctors H !! docId with
  | Some _ => Some (false, H)
  | None =>
      if queueCap <? 0 then None
      else Some (true, set_doctors (<[docId := Doctor.new docId name spec queueCap]> (doctors H)) H)
  end.

Definition scheduleAddSlot (doctorId slotId : Z) (startTime endTime : string) (H : t)
  : bool * t :=
  match doctors H !! doctorId with
  | None => (false, H)
  | Some D =>
      (true, set_doctors (<[doctorId := Doctor.insertSlot slotId startTime endTime D]> (doctors H)) H)
  end.

Definition scheduleCancelSlot (doctorId slotId : Z) (H : t) : bool * t :=
  match doctors H !! doctorId with
  | None => (false, H)
  | Some D =>
      match Doctor.findSlot slotId D with
      | None => (false, H)
      | Some slot =>
          let '(H1, D1) :=
            if SlotNode.taken slot then
              let act :=
                Action.set_slotPreviouslyTaken true
                  (Action.set_doctorId doctorId
                     (Action.set_slotId slotId
                        (Action.set_token
                           (Token.mk (SlotNode.tokenId slot) (-1) doctorId slotId ROUTINE)
                           (Action.init CANCEL)))) in
              (set_pendingCountTotal (pendingCountTotal H - 1) (pushAction act H),
               Doctor.writeSlot slotId false (-1) D)
            else (H, D) in
          let '(r, D2) := Doctor.cancelSlot slotId D1 in
          (r, set_doctors (<[doctorId := D2]> (doctors H1)) H1)
      end
  end.

Definition patientUpsert (p : Patient.t) (H : t) : t :=
  let old := patients H !! Patient.id p in
  let existed := bool_decide (is_Some old) in
  let act :=
    Action.set_upsert existed (Patient.id p) (default Patient.default old)
      (Action.init REGISTER_PATIENT) in
  set_patients (<[Patient.id p := p]> (patients H)) (pushAction act H).

Definition patientGet (patientId : Z) (H : t) : option Patient.t :=
  patients H !! patientId.

(** The commit shared by the two successful branches of [enqueueRoutine]:
    push the BOOK record, [++pendingCountTotal], [++patients[patientId].freq]. *)
Definition commitBook (act : Action.t) (patientId : Z) (H : t) : t :=
  set_patients (bumpFreq patientId (patients H))
    (set_pendingCountTotal (pendingCountTotal H + 1) (pushAction act H)).

Definition enqueueRoutine (patientId doctorId slotId : Z) (H : t) : Z * t :=
  match doctors H !! doctorId with
  | None => (-1, H)
  | Some D =>
      match patients H !! patientId with
      | None => (-1, H)
      | Some _ =>
          let tk := Token.mk (nextTokenId H) patientId doctorId slotId ROUTINE in
          let H1 := set_nextTokenId (nextTokenId H + 1) H in
          if negb (slotId =? -1) then
            match Doctor.findSlot slotId D with
            | None => (-1, H1)
            | Some slot =>
                if SlotNode.taken slot then (-1, H1)
                else
                  let D1 := Doctor.writeSlot slotId true (Token.tokenId tk) D in
                  let act :=
                    Action.set_doctorId doctorId
                      (Action.set_slotId slotId
                         (Action.set_token tk (Action.init BOOK))) in
                  (Token.tokenId tk,
                   commitBook act patientId
                     (set_doctors (<[doctorId := D1]> (doctors H1)) H1))
            end
          else
            if Doctor.isFull D then (-1, H1)
            else
              let D1 := snd (Doctor.enqueueRoutine tk D) in
              let act :=
                Action.set_doctorId doctorId
                  (Action.set_token tk (Action.init BOOK)) in
              (Token.tokenId tk,
               commitBook act patientId
                 (set_doctors (<[doctorId := D1]> (doctors H1)) H1))
      end
  end.

(** [++servedCount; --pendingCountTotal;] and the push of the SERVE
    record, shared by the three successful branches of [serveNext]. *)
Definition commitServe (act : Action.t) (H : t) : t :=
  pushAction act
    (set_pendingCountTotal (pendingCountTotal H - 1)
       (set_servedCount (servedCount H + 1) H)).

(** [top] is [Some] exactly when [!triageHeap.empty()]. *)
Definition serveNext (doctorId : Z) (H : t) : option Token.t * t :=
  match PriorityQueue.top (triageHeap H) with
  | Some ent =>
      let H1 := set_triageHeap (PriorityQueue.pop (triageHeap H)) H in
      let served := Token.set_type EMERGENCY (TriagedToken.token ent) in
      let act :=
        Action.set_severity (TriagedToken.severity ent)
          (Action.set_token served (Action.init SERVE)) in
      let H2 := commitServe act H1 in
      let H3 :=
        if negb (Token.patientId served =? -1)
        then set_patients (bumpFreq (Token.patientId served) (patients H2)) H2
        else H2 in
      (Some served, H3)
  | None =>
      match doctors H !! doctorId with
      | None => (None, H)
      | Some D =>
          match Doctor.dequeueRoutine D with
          | (None, _) =>
              match Doctor.vacateFirstTaken (Doctor.slotHead D) with
              | Some (s, l) =>
                  let served :=
                    Token.mk (SlotNode.tokenId s) (-1) doctorId (SlotNode.slotId s) ROUTINE in
                  let act := Action.set_token served (Action.init SERVE) in
                  (Some served,
                   commitServe act
                     (set_doctors (<[doctorId := Doctor.set_slotHead l D]> (doctors H)) H))
              | None => (None, H)
              end
          | (Some maybeTk, D1) =>
              let served := maybeTk in
              let act := Action.set_token served (Action.init SERVE) in
              (Some served,
               commitServe act (set_doctors (<[doctorId := D1]> (doctors H)) H))
          end
      end
  end.

Definition triageInsert (patientId severity : Z) (H : t) : bool * t :=
  match patients H !! patientId with
  | None => (false, H)
  | Some _ =>
      let tk := Token.mk (nextTokenId H) patientId (-1) (-1) EMERGENCY in
      let H1 := set_nextTokenId (nextTokenId H + 1) H in
      let H2 := set_triageHeap (PriorityQueue.push (TriagedToken.mk severity tk) (triageHeap H1)) H1 in
      let act :=
        Action.set_severity severity
          (Action.set_token tk (Action.init TRIAGE_INSERT)) in
      (true,
       set_patients (bumpFreq patientId (patients H2))
         (set_pendingCountTotal (pendingCountTotal H2 + 1) (pushAction act H2)))
  end.

(** The loop [while (D.dequeueRoutine(ot)) ...] of the BOOK case of
    [undoPop].  The fuel is the number of iterations; [undoPop] passes
    [sizeQ], after which the queue is empty and the loop condition is
    false ([drainRoutine_exits]). *)
Fixpoint drainRoutine (fuel : nat) (remId : Z) (D : Doctor.t)
    (removed : bool) (tmp : list Token.t) : Doctor.t * bool * list Token.t :=
  match fuel with
  | O => (D, removed, tmp)
  | S n =>
      match Doctor.dequeueRoutine D with
      | (None, _) => (D, removed, tmp)
      | (Some ot, D1) =>
          if negb removed && (Token.tokenId ot =? remId)
          then drainRoutine n remId D1 true tmp
          else drainRoutine n remId D1 removed (tmp ++ [ot])
      end
  end.

(** [for (auto &t: tmp) D.enqueueRoutine(t);] *)
Definition refill (tmp : list Token.t) (D : Doctor.t) : Doctor.t :=
  foldl (fun D0 tk => snd (Doctor.enqueueRoutine tk D0)) D tmp.

(** The loop [while (!triageHeap.empty()) ...] of the TRIAGE_INSERT case
    of [undoPop]: [t] is [top()], [q'] the queue after [pop()]. *)
Fixpoint drainTriage (remId : Z) (q : PriorityQueue.t)
    (removed : bool) (all : list TriagedToken.t) : bool * list TriagedToken.t :=
  match q with
  | [] => (removed, all)
  | ent :: q' =>
      if negb removed && (Token.tokenId (TriagedToken.token ent) =? remId)
      then drainTriage remId q' true all
      else drainTriage remId q' removed (all ++ [ent])
  end.

(** [for (auto &x: all) triageHeap.push(x);] on the emptied heap. *)
Definition rebuild (all : list TriagedToken.t) : PriorityQueue.t :=
  foldl (fun q x => PriorityQueue.push x q) [] all.

Definition undoPop (H : t) : bool * t :=
  match undoStack H with
  | [] => (false, H)
  | act :: rest =>
      let H0 := set_undoStack rest H in
      match Action.type act with
      | BOOK =>
          let tk := Action.token act in
          match doctors H0 !! Action.doctorId act with
          | None => (false, H0)
          | Some D =>
              if negb (Token.slotId tk =? -1) then
                match Doctor.findSlot (Token.slotId tk) D with
                | Some slot =>
                    if SlotNode.taken slot && (SlotNode.tokenId slot =? Token.tokenId tk)
                    then
                      (true,
                       set_pendingCountTotal (pendingCountTotal H0 - 1)
                         (set_doctors
                            (<[Action.doctorId act :=
                                 Doctor.writeSlot (Token.slotId tk) false (-1) D]>
                               (doctors H0)) H0))
                    else (false, H0)
                | None => (false, H0)
                end
              else
                let '(D1, removed, tmp) :=
                  drainRoutine (Z.to_nat (Doctor.sizeQ D)) (Token.tokenId tk) D false [] in
                let D2 := refill tmp D1 in
                let H1 := set_doctors (<[Action.doctorId act := D2]> (doctors H0)) H0 in
                (removed,
                 if removed
                 then set_pendingCountTotal (pendingCountTotal H1 - 1) H1
                 else H1)
          end
      | CANCEL =>
          match doctors H0 !! Action.doctorId act with
          | None => (false, H0)
          | Some D =>
              match Doctor.findSlot (Action.slotId act) D with
              | Some _ =>
                  (true,
                   set_pendingCountTotal (pendingCountTotal H0 + 1)
                     (set_doctors
                        (<[Action.doctorId act :=
                             Doctor.writeSlot (Action.slotId act) true
                               (Token.tokenId (Action.token act)) D]>
                           (doctors H0)) H0))
              | None => (false, H0)
              end
          end
      | SERVE =>
          let tk := Action.token act in
          match Token.type tk with
          | EMERGENCY =>
              (true,
               set_servedCount (servedCount H0 - 1)
                 (set_pendingCountTotal (pendingCountTotal H0 + 1)
                    (set_triageHeap
                       (PriorityQueue.push (TriagedToken.mk (Action.severity act) tk)
                          (triageHeap H0)) H0)))
          | ROUTINE =>
              match doctors H0 !! Token.doctorId tk with
              | None => (false, H0)
              | Some D =>
                  (true,
                   set_servedCount (servedCount H0 - 1)
                     (set_pendingCountTotal (pendingCountTotal H0 + 1)
                        (set_doctors
                           (<[Token.doctorId tk := snd (Doctor.enqueueRoutine tk D)]>
                              (doctors H0)) H0)))
              end
          end
      | REGISTER_PATIENT =>
          (true,
           if Action.patientExistedBefore act
           then set_patients
                  (<[Action.patientIdForUpsert act := Action.patientSnapshot act]>
                     (patients H0)) H0
           else set_patients (delete (Action.patientIdForUpsert act) (patients H0)) H0)
      | TRIAGE_INSERT =>
          let remId := Token.tokenId (Action.token act) in
          let '(removed, all) := drainTriage remId (triageHeap H0) false [] in
          let H1 := set_triageHeap (rebuild all) H0 in
          (removed,
           if removed
           then set_pendingCountTotal (pendingCountTotal H1 - 1) H1
           else H1)
      end
  end.
End HospitalSystem.

(** ** The operations as a transition system *)

(** The calls the menu of [main] issues on the system. *)
Inductive Op : Type :=
| OpAddDoctor (docId : Z) (name spec : string) (queueCap : Z)
| OpAddSlot (doctorId slotId : Z) (startTime endTime : string)
| OpCancelSlot (doctorId slotId : Z)
| OpUpsert (p : Patient.t)
| OpBook (patientId doctorId slotId : Z)
| OpTriage (patientId severity : Z)
| OpServe (doctorId : Z)
| OpUndo.

(** One call: whether it reported success, and the state it leaves.
    [enqueueRoutine] reports failure by returning -1, [serveNext] by
    returning [false] (no token); [patientUpsert] cannot fail. *)
Definition exec (op : Op) (H : HospitalSystem.t) : option (bool * HospitalSystem.t) :=
  match op with
  | OpAddDoctor d n s c => HospitalSystem.addDoctor d n s c H
  | OpAddSlot d s a b => Some (HospitalSystem.scheduleAddSlot d s a b H)
  | OpCancelSlot d s => Some (HospitalSystem.scheduleCancelSlot d s H)
  | OpUpsert p => Some (true, HospitalSystem.patientUpsert p H)
  | OpBook p d s =>
      let '(r, H') := HospitalSystem.enqueueRoutine p d s H in
      Some (negb (r =? -1), H')
  | OpTriage p s => Some (HospitalSystem.triageInsert p s H)
  | OpServe d =>
      let '(r, H') := HospitalSystem.serveNext d H in
      Some (bool_decide (is_Some r), H')
  | OpUndo => Some (HospitalSystem.undoPop H)
  end.

(** A sequence of calls, whatever they report. *)
Fixpoint run (ops : list Op) (H : HospitalSystem.t) : option HospitalSystem.t :=
  match ops with
  | [] => Some H
  | op :: ops' =>
      match exec op H with
      | Some (_, H') => run ops' H'
      | None => None
      end
  end.

(** The states the system can be in: those some sequence of calls
    produces from the freshly constructed system. *)
Inductive reachable : HospitalSystem.t -> Prop :=
| reachable_init : reachable HospitalSystem.init
| reachable_step op H r H' :
    reachable H -> exec op H = Some (r, H') -> reachable H'.

(** ** The routine queue read off the circular buffer *)

(** The token [i] places behind the front of the buffer. *)
Definition slotAt (D : Doctor.t) (i : nat) : Token.t :=
  Doctor.circBuffer D !!! Z.to_nat ((Doctor.frontIdx D + Z.of_nat i) `mod` Doctor.capacity D).

(** The pending routine tokens of a doctor, the next to be dequeued
    first. *)
Definition queue (D : Doctor.t) : list Token.t :=
  slotAt D <$> seq 0%nat (Z.to_nat (Doctor.sizeQ D)).

(** The representation invariant of the circular buffer. *)
Definition wf_doctor (D : Doctor.t) : Prop :=
  0 <= Doctor.capacity D /\
  length (Doctor.circBuffer D) = Z.to_nat (Doctor.capacity D) /\
  0 <= Doctor.sizeQ D <= Doctor.capacity D /\
  ((Doctor.sizeQ D = 0 /\ Doctor.frontIdx D = 0 /\ Doctor.rearIdx D = -1) \/
   (0 < Doctor.sizeQ D /\ 0 <= Doctor.frontIdx D < Doctor.capacity D /\
    Doctor.rearIdx D =
      (Doctor.frontIdx D + Doctor.sizeQ D - 1) `mod` Doctor.capacity D)).

(** What the queue operations leave alone. *)
Definition same_frame (D D' : Doctor.t) : Prop :=
  Doctor.id D' = Doctor.id D /\ Doctor.name D' = Doctor.name D /\
  Doctor.specialization D' = Doctor.specialization D /\
  Doctor.slotHead D' = Doctor.slotHead D /\
  Doctor.capacity D' = Doctor.capacity D.

(** What the two draining loops of [undoPop] compute on the sequence
    they drain: the entries kept, in order, and whether one was dropped.
    The first entry satisfying [p] is dropped unless [removed] is set. *)
Fixpoint dropFirst {A : Type} (p : A -> bool) (removed : bool) (l : list A)
  : bool * list A :=
  match l with
  | [] => (removed, [])
  | x :: l' =>
      if negb removed && p x then dropFirst p true l'
      else (fst (dropFirst p removed l'), x :: snd (dropFirst p removed l'))
  end.

Definition hasTokenId (i : Z) (tk : Token.t) : bool := Token.tokenId tk =? i.
Definition entryHasTokenId (i : Z) (e : TriagedToken.t) : bool :=
  Token.tokenId (TriagedToken.token e) =? i.

(** ** The order of the triage queue *)

(** [a] is not greater than [b]: [a] may be delivered before [b]. *)
Definition key_le (a b : TriagedToken.t) : Prop := TriagedToken.gt a b = false.

Definition heap_sorted (q : PriorityQueue.t) : Prop := StronglySorted key_le q.

Definition entryId (e : TriagedToken.t) : Z := Token.tokenId (TriagedToken.token e).

Definition heapIds (q : PriorityQueue.t) : list Z := entryId <$> q.

(** ** What the ledger holds *)

(** Token ids of the emergency tokens the ledger records as served. *)
Fixpoint servedIds (l : list Action.t) : list Z :=
  match l with
  | [] => []
  | a :: l' =>
      match Action.type a, Token.type (Action.token a) with
      | SERVE, EMERGENCY => Token.tokenId (Action.token a) :: servedIds l'
      | _, _ => servedIds l'
      end
  end.

(** Patients the ledger records as newly registered. *)
Fixpoint regs (l : list Action.t) : list Z :=
  match l with
  | [] => []
  | a :: l' =>
      match Action.type a, Action.patientExistedBefore a with
      | REGISTER_PATIENT, false => Action.patientIdForUpsert a :: regs l'
      | _, _ => regs l'
      end
  end.

(** Token and patient ids of the triage insertions the ledger records. *)
Fixpoint tis (l : list Action.t) : list (Z * Z) :=
  match l with
  | [] => []
  | a :: l' =>
      match Action.type a with
      | TRIAGE_INSERT =>
          (Token.tokenId (Action.token a), Token.patientId (Action.token a)) :: tis l'
      | _ => tis l'
      end
  end.

(** Every record rests on the records below it: an upsert knows whether
    its patient was registered, a triage insertion has a registered
    patient, a served emergency token was inserted. *)
Fixpoint ledger_ok (l : list Action.t) : Prop :=
  match l with
  | [] => True
  | a :: l' =>
      ledger_ok l' /\
      match Action.type a with
      | REGISTER_PATIENT =>
          Action.patientExistedBefore a = true <-> Action.patientIdForUpsert a ∈ regs l'
      | TRIAGE_INSERT => Token.patientId (Action.token a) ∈ regs l'
      | SERVE =>
          Token.type (Action.token a) = EMERGENCY ->
          (Token.tokenId (Action.token a), Token.patientId (Action.token a)) ∈ tis l'
      | _ => True
      end
  end.

(** ** Invariants of the reachable states *)

(** A doctor's buffer is well formed, the queued tokens are routine
    tokens of that doctor, and a free slot carries no token id; [n] bounds
    the token ids in use. *)
Definition doctor_ok (d : Z) (D : Doctor.t) (n : Z) : Prop :=
  wf_doctor D /\
  (forall tk, tk ∈ queue D ->
     Token.doctorId tk = d /\ Token.type tk = ROUTINE /\ Token.tokenId tk < n) /\
  (forall s, s ∈ Doctor.slotHead D ->
     SlotNode.tokenId s < n /\ (SlotNode.taken s = false -> SlotNode.tokenId s = -1)).

Definition docs_ok (m : gmap Z Doctor.t) (n : Z) : Prop :=
  forall d D, m !! d = Some D -> doctor_ok d D n.

(** The triage queue, the ledger and the registry agree with each
    other. *)
Record ledger_inv (q : PriorityQueue.t) (l : list Action.t)
    (ps : gmap Z Patient.t) (n : Z) : Prop := {
  li_sorted : heap_sorted q;
  li_heap : forall e, e ∈ q ->
    Token.type (TriagedToken.token e) = EMERGENCY /\ entryId e < n /\
    (entryId e, Token.patientId (TriagedToken.token e)) ∈ tis l;
  li_ids : NoDup (heapIds q ++ servedIds l);
  li_lt : forall a, a ∈ l -> Token.tokenId (Action.token a) < n;
  li_regs : forall p, is_Some (ps !! p) <-> p ∈ regs l;
  li_ledger : ledger_ok l
}.

Record Inv (H : HospitalSystem.t) : Prop := {
  inv_next : 1 <= HospitalSystem.nextTokenId H;
  inv_docs : docs_ok (HospitalSystem.doctors H) (HospitalSystem.nextTokenId H);
  inv_ledger :
    ledger_inv (HospitalSystem.triageHeap H) (HospitalSystem.undoStack H)
               (HospitalSystem.patients H) (HospitalSystem.nextTokenId H)
}.

(** Records that touch neither the triage queue nor the registry. *)
Definition plain (a : Action.t) : Prop :=
  match Action.type a with
  | BOOK | CANCEL => True
  | SERVE => Token.type (Action.token a) = ROUTINE
  | REGISTER_PATIENT | TRIAGE_INSERT => False
  end.

(** ** What a caller can observe of the structures *)

(** A doctor without the layout of the circular buffer. *)
Record DoctorView : Type := mkView {
  view_id : Z;
  view_name : string;
  view_specialization : string;
  view_slots : list SlotNode.t;
  view_capacity : Z;
  view_queue : list Token.t
}.

Definition viewDoctor (D : Doctor.t) : DoctorView :=
  mkView (Doctor.id D) (Doctor.name D) (Doctor.specialization D)
         (Doctor.slotHead D) (Doctor.capacity D) (queue D).

(** Slot sequences and routine FIFOs of all doctors. *)
Definition schedules (H : HospitalSystem.t) : gmap Z DoctorView :=
  viewDoctor <$> HospitalSystem.doctors H.

(** The registry without the visit-frequency counters. *)
Definition registry (H : HospitalSystem.t) : gmap Z Patient.t :=
  Patient.forgetFreq <$> HospitalSystem.patients H.

(** [H'] has the counters and structures of [H], visit frequencies
    apart. *)
Record restored (H H' : HospitalSystem.t) : Prop := {
  restored_pending :
    HospitalSystem.pendingCountTotal H' = HospitalSystem.pendingCountTotal H;
  restored_served : HospitalSystem.servedCount H' = HospitalSystem.servedCount H;
  restored_schedules : schedules H' = schedules H;
  restored_triage : HospitalSystem.triageHeap H' = HospitalSystem.triageHeap H;
  restored_registry : registry H' = registry H
}.

(** ** Scenarios *)

(** The calls of [seedSampleData]. *)
Definition seedSampleData : list Op :=
  [ OpAddDoctor 1 "Dr_Ahuja" "General" 5;
    OpAddDoctor 2 "Dr_Mehta" "Cardio" 5;
    OpAddSlot 1 101 "09:00" "09:15";
    OpAddSlot 1 102 "09:15" "09:30";
    OpAddSlot 2 201 "10:00" "10:15";
    OpUpsert (Patient.mk 1 "Ananya" 22 "No_history" 0);
    OpUpsert (Patient.mk 2 "Lakshita" 19 "Allergy_pollen" 0);
    OpUpsert (Patient.mk 3 "Saieena" 21 "Asthma" 0) ].

(** The state a sequence of calls leaves, starting from the fresh
    system. *)
Definition after (ops : list Op) : HospitalSystem.t :=
  default HospitalSystem.init (run ops HospitalSystem.init).

(** The seeded system with a third doctor whose routine queue holds one
    token, two slots, both booked. *)
Definition smallClinic : list Op :=
  seedSampleData ++
  [ OpAddDoctor 3 "Dr_Rao" "ENT" 1;
    OpAddSlot 3 301 "11:00" "11:15";
    OpAddSlot 3 302 "11:15" "11:30";
    OpBook 1 3 301;
    OpBook 2 3 302 ].

(** The seeded system with a routine booking for doctor 1 and three
    triage insertions of severities 5, 2 and 2. *)
Definition triageDemo : HospitalSystem.t :=
  after (seedSampleData ++ [OpBook 2 1 (-1); OpTriage 1 5; OpTriage 2 2; OpTriage 3 2]).

(** ** The properties the specification states *)

(** The entry [e] is served before [e']: lower severity, and on equal
    severity the lower token id. *)
Definition precedes (e e' : TriagedToken.t) : Prop :=
  TriagedToken.severity e < TriagedToken.severity e' \/
  (TriagedToken.severity e = TriagedToken.severity e' /\ entryId e <= entryId e').

(** Number of occupied slots of a slot list. *)
Fixpoint occupied (l : list SlotNode.t) : Z :=
  match l with
  | [] => 0
  | s :: l' => (if SlotNode.taken s then 1 else 0) + occupied l'
  end.

(** Routine-queue sizes of all doctors, plus the size of the triage
    collection, plus the occupied slots of all doctors. *)
Definition pendingSum (H : HospitalSystem.t) : Z :=
  map_fold (fun _ D acc => acc + Doctor.sizeQ D + occupied (Doctor.slotHead D)) 0
           (HospitalSystem.doctors H)
  + Z.of_nat (length (HospitalSystem.triageHeap H)).

(** The calls the ledger is meant to record. *)
Definition mutating (op : Op) : Prop :=
  match op with
  | OpBook _ _ _ | OpTriage _ _ | OpServe _ | OpCancelSlot _ _ | OpUpsert _ => True
  | OpAddDoctor _ _ _ _ | OpAddSlot _ _ _ _ | OpUndo => False
  end.

(** [undo] right after a successful [op] succeeds and restores the
    counters and the structures. *)
Definition undo_inverts (op : Op) (H : HospitalSystem.t) : Prop :=
  forall H', exec op H = Some (true, H') ->
    (HospitalSystem.undoPop H').1 = true /\ restored H (HospitalSystem.undoPop H').2.

(** The calls whose effect [undo] reverses exactly: bookings, triage
    insertions, upserts, and serves taken from the triage collection. *)
Definition undone_exactly (op : Op) (H : HospitalSystem.t) : Prop :=
  match op with
  | OpBook _ _ _ | OpTriage _ _ | OpUpsert _ => True
  | OpServe _ => HospitalSystem.triageHeap H <> []
  | OpAddDoctor _ _ _ _ | OpAddSlot _ _ _ _ | OpCancelSlot _ _ | OpUndo => False
  end.

(** The doctor with the front token of the routine queue moved to its
    rear. *)
Definition rotateView (V : DoctorView) : DoctorView :=
  mkView (view_id V) (view_name V) (view_specialization V) (view_slots V)
         (view_capacity V)
         (match view_queue V with [] => [] | tk :: q => q ++ [tk] end).

(** [H'] is [H] but for the queue of doctor [d], whose front token is at
    the rear. *)
Record rotated (d : Z) (H H' : HospitalSystem.t) : Prop := {
  rotated_pending :
    HospitalSystem.pendingCountTotal H' = HospitalSystem.pendingCountTotal H;
  rotated_served : HospitalSystem.servedCount H' = HospitalSystem.servedCount H;
  rotated_schedules : schedules H' = alter rotateView d (schedules H);
  rotated_triage : HospitalSystem.triageHeap H' = HospitalSystem.triageHeap H;
  rotated_registry : HospitalSystem.patients H' = HospitalSystem.patients H
}.

(** Slotless bookings for the patients [ps] in turn at doctor [d]: the
    returned token ids (or -1) and the final state. *)
Fixpoint bookAll (ps : list Z) (d : Z) (H : HospitalSystem.t)
  : list Z * HospitalSystem.t :=
  match ps with
  | [] => ([], H)
  | p :: ps' =>
      let '(r, H1) := HospitalSystem.enqueueRoutine p d (-1) H in
      let '(rs, H2) := bookAll ps' d H1 in
      (r :: rs, H2)
  end.

(** [n] calls of [serveNext] for doctor [d]: what each returned. *)
Fixpoint serveN (n : nat) (d : Z) (H : HospitalSystem.t)
  : list (option Token.t) * HospitalSystem.t :=
  match n with
  | O => ([], H)
  | S n' =>
      let '(r, H1) := HospitalSystem.serveNext d H in
      let '(rs, H2) := serveN n' d H1 in
      (r :: rs, H2)
  end.

(** The tokens [bookAll] issues when every booking succeeds, the first
    with id [n]. *)
Fixpoint issued (n : Z) (ps : list Z) (d : Z) : list Token.t :=
  match ps with
  | [] => []
  | p :: ps' => Token.mk n p d (-1) ROUTINE :: issued (n + 1) ps' d
  end.

(** The seeded system. *)
Definition seeded : HospitalSystem.t := after seedSampleData.

(** Everything a caller can observe of the state; the token-id generator
    shows in the ids later bookings return. *)
Definition observe (H : HospitalSystem.t) :=
  (schedules H, HospitalSystem.patients H, HospitalSystem.triageHeap H,
   HospitalSystem.undoStack H, HospitalSystem.nextTokenId H,
   HospitalSystem.servedCount H, HospitalSystem.pendingCountTotal H).

(** A call of [op] that reports failure leaves the observable state as it
    was. *)
Definition failure_changes_nothing (op : Op) (H : HospitalSystem.t) : Prop :=
  forall H', exec op H = Some (false, H') -> observe H' = observe H.

Definition isUndo (op : Op) : bool :=
  match op with OpUndo => true | _ => false end.

(** The kind of record a call pushes when it pushes one. *)
Definition recorded (op : Op) : option ActionType :=
  match op with
  | OpBook _ _ _ => Some BOOK
  | OpCancelSlot _ _ => Some CANCEL
  | OpServe _ => Some SERVE
  | OpUpsert _ => Some REGISTER_PATIENT
  | OpTriage _ _ => Some TRIAGE_INSERT
  | OpAddDoctor _ _ _ _ | OpAddSlot _ _ _ _ | OpUndo => None
  end.

(** [H'] has exactly one record more than [H], of type [ty]. *)
Definition pushed (ty : ActionType) (H H' : HospitalSystem.t) : Prop :=
  exists a, HospitalSystem.undoStack H' = a :: HospitalSystem.undoStack H /\
            Action.type a = ty.

(** ** What a call leaves behind *)

(** A doctor with other slots, or with another routine queue. *)
Definition withSlots (l : list SlotNode.t) (V : DoctorView) : DoctorView :=
  mkView (view_id V) (view_name V) (view_specialization V) l
         (view_capacity V) (view_queue V).

Definition withQueue (q : list Token.t) (V : DoctorView) : DoctorView :=
  mkView (view_id V) (view_name V) (view_specialization V) (view_slots V)
         (view_capacity V) q.

(** [s] is the first slot of [l] with identifier [sid], between [l1] and
    [l2]. *)
Definition firstWith (sid : Z) (l l1 : list SlotNode.t) (s : SlotNode.t)
    (l2 : list SlotNode.t) : Prop :=
  l = l1 ++ s :: l2 /\
  Forall (fun x => SlotNode.slotId x <> sid) l1 /\
  SlotNode.slotId s = sid.

(** The state [H'] in full: schedules, registry, triage collection,
    ledger, token-id generator and the two counters. *)
Definition leaves (H' : HospitalSystem.t)
    (sch : gmap Z DoctorView) (ps : gmap Z Patient.t) (hp : PriorityQueue.t)
    (led : list Action.t) (n sv pd : Z) : Prop :=
  schedules H' = sch /\ HospitalSystem.patients H' = ps /\
  HospitalSystem.triageHeap H' = hp /\ HospitalSystem.undoStack H' = led /\
  HospitalSystem.nextTokenId H' = n /\ HospitalSystem.servedCount H' = sv /\
  HospitalSystem.pendingCountTotal H' = pd.

(** What a call that reports success has done when it returns: the
    change to the structures and counters, the record it has pushed, and
    everything else as it was.  For [undo] the change depends on the
    record it has taken off the ledger. *)
Definition committed (op : Op) (H H' : HospitalSystem.t) : Prop :=
  let sch := schedules H in
  let ps := HospitalSystem.patients H in
  let hp := HospitalSystem.triageHeap H in
  let led := HospitalSystem.undoStack H in
  let n := HospitalSystem.nextTokenId H in
  let sv := HospitalSystem.servedCount H in
  let pd := HospitalSystem.pendingCountTotal H in
  match op with
  | OpAddDoctor d nm sp c =>
      HospitalSystem.doctors H !! d = None /\
      leaves H' (<[d := mkView d nm sp [] c []]> sch) ps hp led n sv pd
  | OpAddSlot d sid a b =>
      exists D, HospitalSystem.doctors H !! d = Some D /\
        leaves H'
          (<[d := withSlots (Doctor.slotHead D ++ [SlotNode.mk sid a b false (-1)])
                    (viewDoctor D)]> sch)
          ps hp led n sv pd
  | OpCancelSlot d sid =>
      exists D l1 s l2 a,
        HospitalSystem.doctors H !! d = Some D /\
        firstWith sid (Doctor.slotHead D) l1 s l2 /\
        Action.type a = CANCEL /\ Action.doctorId a = d /\ Action.slotId a = sid /\
        Action.token a = Token.mk (SlotNode.tokenId s) (-1) d sid ROUTINE /\
        leaves H' (<[d := withSlots (l1 ++ l2) (viewDoctor D)]> sch) ps hp
          (if SlotNode.taken s then a :: led else led) n sv
          (if SlotNode.taken s then pd - 1 else pd)
  | OpUpsert p =>
      exists a, Action.type a = REGISTER_PATIENT /\
        Action.patientIdForUpsert a = Patient.id p /\
        Action.patientExistedBefore a = bool_decide (is_Some (ps !! Patient.id p)) /\
        (forall old, ps !! Patient.id p = Some old -> Action.patientSnapshot a = old) /\
        leaves H' sch (<[Patient.id p := p]> ps) hp (a :: led) n sv pd
  | OpBook p d sid =>
      let tk := Token.mk n p d sid ROUTINE in
      exists D P a V,
        HospitalSystem.doctors H !! d = Some D /\ ps !! p = Some P /\
        Action.type a = BOOK /\ Action.token a = tk /\ Action.doctorId a = d /\
        (if sid =? -1
         then Z.of_nat (length (queue D)) < Doctor.capacity D /\
              V = withQueue (queue D ++ [tk]) (viewDoctor D)
         else exists l1 s l2,
                firstWith sid (Doctor.slotHead D) l1 s l2 /\
                SlotNode.taken s = false /\
                V = withSlots (l1 ++ SlotNode.occupy true n s :: l2) (viewDoctor D)) /\
        leaves H' (<[d := V]> sch) (<[p := Patient.bump P]> ps) hp (a :: led)
          (n + 1) sv (pd + 1)
  | OpTriage p sev =>
      let tk := Token.mk n p (-1) (-1) EMERGENCY in
      exists P a q,
        ps !! p = Some P /\
        Action.type a = TRIAGE_INSERT /\ Action.token a = tk /\
        Action.severity a = sev /\
        q ≡ₚ TriagedToken.mk sev tk :: hp /\ heap_sorted q /\
        leaves H' sch (<[p := Patient.bump P]> ps) q (a :: led) (n + 1) sv (pd + 1)
  | OpServe d =>
      exists tk a,
        (HospitalSystem.serveNext d H).1 = Some tk /\
        Action.type a = SERVE /\ Action.token a = tk /\
        match hp with
        | e :: q =>
            tk = TriagedToken.token e /\
            Action.severity a = TriagedToken.severity e /\
            exists P, ps !! Token.patientId tk = Some P /\
              leaves H' sch
                (if Token.patientId tk =? -1 then ps
                 else <[Token.patientId tk := Patient.bump P]> ps)
                q (a :: led) n (sv + 1) (pd - 1)
        | [] =>
            exists D V, HospitalSystem.doctors H !! d = Some D /\
              match queue D with
              | tk' :: q' => tk = tk' /\ V = withQueue q' (viewDoctor D)
              | [] =>
                  exists l1 s l2,
                    Doctor.slotHead D = l1 ++ s :: l2 /\
                    Forall (fun x => SlotNode.taken x = false) l1 /\
                    SlotNode.taken s = true /\
                    tk = Token.mk (SlotNode.tokenId s) (-1) d (SlotNode.slotId s) ROUTINE /\
                    V = withSlots (l1 ++ SlotNode.occupy false (-1) s :: l2)
                          (viewDoctor D)
              end /\
              leaves H' (<[d := V]> sch) ps [] (a :: led) n (sv + 1) (pd - 1)
        end
  | OpUndo =>
      exists a rest, led = a :: rest /\
        let tk := Action.token a in
        match Action.type a with
        | BOOK =>
            exists D V, HospitalSystem.doctors H !! Action.doctorId a = Some D /\
              (if Token.slotId tk =? -1
               then exists kept,
                      dropFirst (hasTokenId (Token.tokenId tk)) false (queue D)
                      = (true, kept) /\
                      V = withQueue kept (viewDoctor D)
               else exists l1 s l2,
                      firstWith (Token.slotId tk) (Doctor.slotHead D) l1 s l2 /\
                      SlotNode.taken s = true /\
                      SlotNode.tokenId s = Token.tokenId tk /\
                      V = withSlots (l1 ++ SlotNode.occupy false (-1) s :: l2)
                            (viewDoctor D)) /\
              leaves H' (<[Action.doctorId a := V]> sch) ps hp rest n sv (pd - 1)
        | CANCEL =>
            exists D l1 s l2,
              HospitalSystem.doctors H !! Action.doctorId a = Some D /\
              firstWith (Action.slotId a) (Doctor.slotHead D) l1 s l2 /\
              leaves H'
                (<[Action.doctorId a :=
                     withSlots (l1 ++ SlotNode.occupy true (Token.tokenId tk) s :: l2)
                       (viewDoctor D)]> sch)
                ps hp rest n sv (pd + 1)
        | SERVE =>
            match Token.type tk with
            | EMERGENCY =>
                exists q,
                  q ≡ₚ TriagedToken.mk (Action.severity a) tk :: hp /\ heap_sorted q /\
                  leaves H' sch ps q rest n (sv - 1) (pd + 1)
            | ROUTINE =>
                exists D, HospitalSystem.doctors H !! Token.doctorId tk = Some D /\
                  leaves H'
                    (<[Token.doctorId tk :=
                         withQueue (if Doctor.isFull D then queue D else queue D ++ [tk])
                           (viewDoctor D)]> sch)
                    ps hp rest n (sv - 1) (pd + 1)
            end
        | REGISTER_PATIENT =>
            leaves H' sch
              (if Action.patientExistedBefore a
               then <[Action.patientIdForUpsert a := Action.patientSnapshot a]> ps
               else delete (Action.patientIdForUpsert a) ps)
              hp rest n sv pd
        | TRIAGE_INSERT =>
            exists q,
              dropFirst (entryHasTokenId (Token.tokenId tk)) false hp = (true, q) /\
              leaves H' sch ps q rest n sv (pd - 1)
        end
  end.

(** [undo] removes a record only when it reports that it reversed the
    recorded call. *)
Definition pops_only_reversed (H : HospitalSystem.t) : Prop :=
  HospitalSystem.undoStack (HospitalSystem.undoPop H).2 <> HospitalSystem.undoStack H ->
  (HospitalSystem.undoPop H).1 = true.

(** [undo] in [H2] puts the token [tk] at the rear of the queue of doctor
    [d]. *)
Definition requeued (d : Z) (tk : Token.t) (H2 : HospitalSystem.t) : Prop :=
  exists D2 D3,
    HospitalSystem.doctors H2 !! d = Some D2 /\
    HospitalSystem.doctors (HospitalSystem.undoPop H2).2 !! d = Some D3 /\
    queue D3 = queue D2 ++ [tk].

(** A serve through the slot list in [H] returns a token without patient,
    touches no visit frequency, and the [undo] that takes its record (in
    [H2], where that record is on top) puts the token into the queue. *)
Definition slot_serve_requeued (d : Z) (H H2 : HospitalSystem.t) : Prop :=
  HospitalSystem.triageHeap H = [] ->
  (exists D, HospitalSystem.doctors H !! d = Some D /\ Doctor.isEmpty D = true) ->
  forall tk H1, HospitalSystem.serveNext d H = (Some tk, H1) ->
    Token.patientId tk = -1 /\
    HospitalSystem.patients H1 = HospitalSystem.patients H /\
    (HospitalSystem.undoStack H2 = HospitalSystem.undoStack H1 -> requeued d tk H2).

(** ** Sequences of triage insertions *)

(** The triage insertions [ins], pairs of a patient id and a severity, in
    turn. *)
Definition triageAll (ins : list (Z * Z)) (H : HospitalSystem.t) : HospitalSystem.t :=
  foldl (fun H0 ps => (HospitalSystem.triageInsert ps.1 ps.2 H0).2) H ins.

(** The entries [triageInsert] builds for the insertions [ins], the first
    with token id [n]. *)
Fixpoint triageTokens (n : Z) (ins : list (Z * Z)) : list TriagedToken.t :=
  match ins with
  | [] => []
  | ps :: ins' =>
      TriagedToken.mk ps.2 (Token.mk n ps.1 (-1) (-1) EMERGENCY)
      :: triageTokens (n + 1) ins'
  end.

(** The emergency tokens pending after the insertions [ins] in [H]: those
    pending in [H] and one for every insertion that names a registered
    patient, with consecutive token ids in the order of insertion. *)
Definition pendingEmergency (ins : list (Z * Z)) (H : HospitalSystem.t)
  : list TriagedToken.t :=
  HospitalSystem.triageHeap H ++
  triageTokens (HospitalSystem.nextTokenId H)
    (filter (fun ps => is_Some (HospitalSystem.patients H !! ps.1)) ins).

(** [e] precedes every entry of [l]. *)
Definition lowest (e : TriagedToken.t) (l : list TriagedToken.t) : Prop :=
  forall e', e' ∈ l -> precedes e e'.

(** ** The ledger as a stack *)

(** Whether a call pushes a record: a booking, a triage insertion or a
    serve when it reports success, an upsert always, a cancellation when
    the slot it removes is occupied; [addDoctor], [scheduleAddSlot] and
    [undo] never. *)
Definition pushes (op : Op) (H : HospitalSystem.t) (r : bool) : bool :=
  match op with
  | OpBook _ _ _ | OpTriage _ _ | OpServe _ => r
  | OpUpsert _ => true
  | OpCancelSlot d sid =>
      match HospitalSystem.doctors H !! d with
      | Some D =>
          match Doctor.findSlot sid D with
          | Some s => SlotNode.taken s
          | None => false
          end
      | None => false
      end
  | OpAddDoctor _ _ _ _ | OpAddSlot _ _ _ _ | OpUndo => false
  end.

(** The kinds of the records a stack holds after the calls [ops] made
    from [H], when it held [l] before: [undo] takes the top one off, a
    call that pushes puts its kind on top, latest first. *)
Fixpoint ledgerKinds (ops : list Op) (H : HospitalSystem.t) (l : list ActionType)
  : list ActionType :=
  match ops with
  | [] => l
  | op :: ops' =>
      match exec op H with
      | None => l
      | Some (r, H') =>
          ledgerKinds ops' H'
            (if isUndo op then tail l
             else if pushes op H r
                  then from_option (fun k => k :: l) l (recorded op)
                  else l)
      end
  end.

(** * Further definitions: reports, identities, counters *)

(** ** Reports *)

(** The rows [Doctor::printSlots] prints, one per node in list order:
    slot id, start, end, and whether it is taken. *)
Definition printSlots (D : Doctor.t) : list (Z * string * string * bool) :=
  (fun s => (SlotNode.slotId s, SlotNode.startTime s, SlotNode.endTime s,
             SlotNode.taken s)) <$> Doctor.slotHead D.

(** What [perDoctorReport] prints for a doctor: name, id, specialization,
    the pending routine count and the next free slot.  [None]: "Doctor not
    found". *)
Definition perDoctorReport (doctorId : Z) (H : HospitalSystem.t)
  : option (string * Z * string * Z * option SlotNode.t) :=
  match HospitalSystem.doctors H !! doctorId with
  | None => None
  | Some D =>
      Some (Doctor.name D, Doctor.id D, Doctor.specialization D,
            Doctor.pendingCount D, Doctor.nextFreeSlot D)
  end.

(** The two numbers [servedVsPendingSummary] prints. *)
Definition servedVsPendingSummary (H : HospitalSystem.t) : Z * Z :=
  (HospitalSystem.servedCount H, HospitalSystem.pendingCountTotal H).

(** [listDoctorSlots]: the rows of [printSlots], or [None] for "Doctor
    not found". *)
Definition listDoctorSlots (doctorId : Z) (H : HospitalSystem.t)
  : option (list (Z * string * string * bool)) :=
  printSlots <$> HospitalSystem.doctors H !! doctorId.

(** What identifies a doctor: never changed after [addDoctor]. *)
Definition same_identity (D D' : Doctor.t) : Prop :=
  Doctor.id D' = Doctor.id D /\ Doctor.name D' = Doctor.name D /\
  Doctor.specialization D' = Doctor.specialization D /\
  Doctor.capacity D' = Doctor.capacity D.

(** The token id [i] occurs in a routine queue, in a slot, in the triage
    collection or in a ledger record. *)
Definition id_in_use (i : Z) (H : HospitalSystem.t) : Prop :=
  (exists d D tk, HospitalSystem.doctors H !! d = Some D /\ tk ∈ queue D /\
                  Token.tokenId tk = i) \/
  (exists d D s, HospitalSystem.doctors H !! d = Some D /\ s ∈ Doctor.slotHead D /\
                 SlotNode.taken s = true /\ SlotNode.tokenId s = i) \/
  (exists e, e ∈ HospitalSystem.triageHeap H /\ entryId e = i) \/
  (exists a, a ∈ HospitalSystem.undoStack H /\ Action.type a <> REGISTER_PATIENT /\
             Token.tokenId (Action.token a) = i).

(** Number of Serve records in a ledger. *)
Fixpoint serveRecords (l : list Action.t) : Z :=
  match l with
  | [] => 0
  | a :: l' =>
      (match Action.type a with SERVE => 1 | _ => 0 end) + serveRecords l'
  end.

(** What a doctor contributes to the pending work: queued tokens and
    occupied slots. *)
Definition load (D : Doctor.t) : Z :=
  Doctor.sizeQ D + occupied (Doctor.slotHead D).

(** [operator>] of [pair<int,int>], which [greater<>] hands to [sort] in
    [topKFrequentPatients]: lexicographic on (freq, id). *)
Definition pair_gt (a b : Z * Z) : bool :=
  (b.1 <? a.1) || (negb (a.1 <? b.1) && (b.2 <? a.2)).

(** What [sort] with [greater<>] guarantees of two elements it leaves in
    this order: the later one is not greater than the earlier one. *)
Definition not_after (a b : Z * Z) : Prop := pair_gt b a = false.

#[global] Instance not_after_dec : RelDecision not_after.
Proof. intros a b. unfold not_after. apply _. Defined.

(** The vector [arr] of (freq, id) pairs, one per registered patient. *)
Definition freqTable (H : HospitalSystem.t) : list (Z * Z) :=
  (fun kv => (Patient.freq kv.2, kv.1)) <$> map_to_list (HospitalSystem.patients H).

(** The rows [topKFrequentPatients] prints: patient id, frequency and name
    of the first [K] entries of the sorted vector. *)
Definition topKFrequentPatients (K : Z) (H : HospitalSystem.t) : list (Z * Z * string) :=
  (fun r => (r.2, r.1,
             Patient.name (default Patient.default (HospitalSystem.patients H !! r.2))))
  <$> take (Z.to_nat K) (merge_sort not_after (freqTable H)).

(** One row is printed before another: higher frequency first, and among
    equal frequencies the higher patient id first. *)
Definition row_before (r r' : Z * Z * string) : Prop :=
  r'.1.2 < r.1.2 \/ (r'.1.2 = r.1.2 /\ r'.1.1 < r.1.1).

(** [m'] has every doctor of [m], identity unchanged, and the doctors it
    has in addition are filed under their own id. *)
Definition keeps (m m' : gmap Z Doctor.t) : Prop :=
  forall d,
    match m !! d, m' !! d with
    | Some D, Some D' => same_identity D D'
    | None, Some D' => Doctor.id D' = d
    | Some _, None => False
    | None, None => True
    end.

(** The sum over the doctors in [pendingSum]. *)
Definition loads (m : gmap Z Doctor.t) : Z :=
  map_fold (fun _ D acc => acc + Doctor.sizeQ D + occupied (Doctor.slotHead D)) 0 m.

(** * Properties *)

(** ** The circular buffer is a bounded FIFO *)

Section CircularBuffer.
Implicit Types (D : Doctor.t) (tk : Token.t).

Lemma queue_length D : length (queue D) = Z.to_nat (Doctor.sizeQ D).
Proof. unfold queue. by rewrite length_fmap, length_seq. Qed.

Lemma queue_nil D : 0 <= Doctor.sizeQ D -> (queue D = [] <-> Doctor.sizeQ D = 0).
Proof.
  intros Hs. split.
  - intros Hq. apply (f_equal length) in Hq. rewrite queue_length in Hq.
    simpl in Hq. lia.
  - intros Hz. unfold queue. by rewrite Hz.
Qed.

Lemma wf_new i n s cap : 0 <= cap -> wf_doctor (Doctor.new i n s cap).
Proof.
  intros Hc. unfold wf_doctor, Doctor.new. simpl.
  rewrite length_replicate. repeat split; lia.
Qed.

Lemma queue_new i n s cap : queue (Doctor.new i n s cap) = [].
Proof. reflexivity. Qed.

Lemma enqueue_full tk D :
  Doctor.sizeQ D = Doctor.capacity D -> Doctor.enqueueRoutine tk D = (false, D).
Proof.
  intros Hf. unfold Doctor.enqueueRoutine, Doctor.isFull.
  by rewrite (proj2 (Z.eqb_eq _ _) Hf).
Qed.

Lemma mod_shift_ne (f c i n : Z) :
  0 <= i < n -> n < c -> (f + i) `mod` c <> (f + n) `mod` c.
Proof.
  intros Hi Hn Heq.
  assert (Hc : 0 < c) by lia.
  pose proof (Z.mod_pos_bound (f + i) c Hc) as B1.
  pose proof (Z.mod_pos_bound (f + n) c Hc) as B2.
  pose proof (Z.div_mod (f + i) c ltac:(lia)) as E1.
  pose proof (Z.div_mod (f + n) c ltac:(lia)) as E2.
  assert (c * ((f + n) `div` c - (f + i) `div` c) = n - i) as E by lia.
  assert (0 < (f + n) `div` c - (f + i) `div` c) by nia.
  nia.
Qed.

Lemma enqueue_ok tk D :
  wf_doctor D -> Doctor.sizeQ D < Doctor.capacity D ->
  exists D', Doctor.enqueueRoutine tk D = (true, D') /\ wf_doctor D' /\
             queue D' = queue D ++ [tk] /\ same_frame D D'.
Proof.
  intros (Hc & Hl & Hs & Hpos) Hlt.
  unfold Doctor.enqueueRoutine, Doctor.isFull.
  rewrite (proj2 (Z.eqb_neq _ _)) by lia.
  eexists. split; [reflexivity|].
  set (c := Doctor.capacity D) in *.
  assert (Hrear : Z.rem (Doctor.rearIdx D + 1) c
                  = (Doctor.frontIdx D + Doctor.sizeQ D) `mod` c).
  { destruct Hpos as [(Hz & Hf & Hr) | (Hz & Hf & Hr)].
    - rewrite Hz, Hf, Hr. simpl. rewrite Z.rem_0_l by lia.
      by rewrite Z.mod_0_l by lia.
    - pose proof (Z.mod_pos_bound
          (Doctor.frontIdx D + Doctor.sizeQ D - 1) c ltac:(lia)) as Hb.
      rewrite Z.rem_mod_nonneg by lia.
      rewrite Hr. rewrite Zplus_mod_idemp_l. f_equal. lia. }
  rewrite Hrear.
  pose proof (Z.mod_pos_bound (Doctor.frontIdx D + Doctor.sizeQ D) c ltac:(lia)) as Hb.
  assert (Hfront : 0 <= Doctor.frontIdx D < c) by (destruct Hpos; lia).
  split; [|split; [|by repeat split]].
  - unfold wf_doctor. simpl. fold c. rewrite length_insert.
    repeat split; try lia. right. repeat split; try lia.
    f_equal. lia.
  - unfold queue. simpl.
    replace (Z.to_nat (Doctor.sizeQ D + 1)) with (S (Z.to_nat (Doctor.sizeQ D))) by lia.
    rewrite seq_S, fmap_app. simpl. f_equal.
    + apply list_fmap_ext. intros i x Hx.
      apply lookup_seq in Hx as [-> Hx]. simpl in *.
      unfold slotAt. simpl. fold c.
      rewrite list_lookup_total_insert_ne; [done|].
      intros Heq. apply Z2Nat.inj in Heq; try lia.
      * symmetry in Heq. revert Heq. apply mod_shift_ne; lia.
      * apply Z.mod_pos_bound. lia.
    + unfold slotAt. simpl. fold c. f_equal.
      rewrite Z2Nat.id by lia.
      rewrite list_lookup_total_insert_eq; [done|]. rewrite Hl. lia.
Qed.

Lemma dequeue_empty D :
  Doctor.sizeQ D = 0 -> Doctor.dequeueRoutine D = (None, D).
Proof.
  intros Hz. unfold Doctor.dequeueRoutine, Doctor.isEmpty. by rewrite Hz.
Qed.

Lemma dequeue_ok D tk q :
  wf_doctor D -> queue D = tk :: q ->
  exists D', Doctor.dequeueRoutine D = (Some tk, D') /\ wf_doctor D' /\
             queue D' = q /\ same_frame D D'.
Proof.
  intros (Hc & Hl & Hs & Hpos) Hq.
  assert (Hsz : 0 < Doctor.sizeQ D).
  { apply (f_equal length) in Hq. rewrite queue_length in Hq. simpl in Hq. lia. }
  destruct Hpos as [(Hz & _) | (_ & Hf & Hr)]; [lia|].
  set (c := Doctor.capacity D) in *.
  unfold Doctor.dequeueRoutine, Doctor.isEmpty.
  rewrite (proj2 (Z.eqb_neq _ _)) by lia.
  unfold queue in Hq.
  replace (Z.to_nat (Doctor.sizeQ D)) with (S (Z.to_nat (Doctor.sizeQ D - 1))) in Hq by lia.
  simpl in Hq. injection Hq as Hhd Htl.
  assert (Hout : Doctor.circBuffer D !!! Z.to_nat (Doctor.frontIdx D) = tk).
  { rewrite <- Hhd. unfold slotAt. fold c. f_equal. f_equal.
    rewrite Z.add_0_r. rewrite Z.mod_small; lia. }
  rewrite Hout.
  destruct (Doctor.sizeQ D - 1 =? 0) eqn:E.
  - apply Z.eqb_eq in E. eexists. split; [reflexivity|].
    split; [|split; [|by repeat split]].
    + unfold wf_doctor. simpl. fold c. repeat split; lia.
    + rewrite E in Htl. simpl in Htl. by rewrite <- Htl.
  - apply Z.eqb_neq in E. eexists. split; [reflexivity|].
    assert (Hfr : Z.rem (Doctor.frontIdx D + 1) c = (Doctor.frontIdx D + 1) `mod` c).
    { apply Z.rem_mod_nonneg; lia. }
    pose proof (Z.mod_pos_bound (Doctor.frontIdx D + 1) c ltac:(lia)) as Hb.
    split; [|split; [|by repeat split]].
    + unfold wf_doctor. simpl. fold c. repeat split; try lia.
      right. repeat split; try lia. rewrite Hr, Hfr.
      replace ((Doctor.frontIdx D + 1) `mod` c + (Doctor.sizeQ D - 1) - 1)
        with ((Doctor.frontIdx D + 1) `mod` c + (Doctor.sizeQ D - 2)) by lia.
      rewrite Zplus_mod_idemp_l. f_equal. lia.
    + rewrite <- Htl. unfold queue. simpl.
      rewrite <- fmap_S_seq, <- list_fmap_compose.
      apply list_fmap_ext. intros i x _. unfold slotAt, compose. simpl. fold c.
      f_equal. f_equal. rewrite Hfr, Zplus_mod_idemp_l. f_equal. lia.
Qed.

End CircularBuffer.

(** ** The draining loops *)

Section Draining.
Context {A : Type} (p : A -> bool).

Lemma dropFirst_removed (l : list A) : dropFirst p true l = (true, l).
Proof.
  induction l as [|x l IH]; [done|]. simpl. by rewrite IH.
Qed.

Lemma dropFirst_none (l : list A) :
  Forall (fun x => p x = false) l -> dropFirst p false l = (false, l).
Proof.
  induction 1 as [|x l Hx _ IH]; [done|]. simpl. by rewrite Hx, IH.
Qed.

Lemma dropFirst_snoc (l : list A) (x : A) :
  Forall (fun y => p y = false) l -> p x = true ->
  dropFirst p false (l ++ [x]) = (true, l).
Proof.
  induction 1 as [|y l Hy _ IH]; intros Hx; simpl.
  - by rewrite Hx.
  - by rewrite Hy, IH.
Qed.

Lemma dropFirst_sublist (r : bool) (l : list A) :
  snd (dropFirst p r l) `sublist_of` l.
Proof.
  revert r. induction l as [|x l IH]; intros r; simpl; [done|].
  destruct (negb r && p x).
  - by apply sublist_cons.
  - simpl. by apply sublist_skip.
Qed.

Lemma dropFirst_false_id (r : bool) (l : list A) :
  fst (dropFirst p r l) = false -> snd (dropFirst p r l) = l /\ r = false.
Proof.
  revert r. induction l as [|x l IH]; intros r; simpl; [done|].
  destruct (negb r && p x) eqn:E.
  - rewrite dropFirst_removed. done.
  - simpl. intros Hf. destruct (IH r Hf) as [-> ->]. done.
Qed.

End Draining.

Section DrainRoutine.
Implicit Types (D : Doctor.t) (tk : Token.t).

Lemma wf_sizeQ D : wf_doctor D -> Doctor.sizeQ D = Z.of_nat (length (queue D)).
Proof. intros (_ & _ & Hs & _). rewrite queue_length. lia. Qed.

Lemma same_frame_refl D : same_frame D D.
Proof. by repeat split. Qed.

Lemma same_frame_trans D1 D2 D3 :
  same_frame D1 D2 -> same_frame D2 D3 -> same_frame D1 D3.
Proof.
  intros (?&?&?&?&?) (?&?&?&?&?). repeat split; congruence.
Qed.

Lemma drainRoutine_spec remId D removed tmp :
  wf_doctor D ->
  exists D',
    HospitalSystem.drainRoutine (Z.to_nat (Doctor.sizeQ D)) remId D removed tmp
    = (D', fst (dropFirst (hasTokenId remId) removed (queue D)),
       tmp ++ snd (dropFirst (hasTokenId remId) removed (queue D))) /\
    wf_doctor D' /\ queue D' = [] /\ same_frame D D'.
Proof.
  intros Hwf.
  remember (queue D) as q eqn:Hq.
  revert D removed tmp Hwf Hq.
  induction q as [|tk q IH]; intros D removed tmp Hwf Hq.
  - assert (Doctor.sizeQ D = 0) as Hz.
    { rewrite (wf_sizeQ D Hwf), <- Hq. done. }
    rewrite Hz. simpl. exists D. rewrite app_nil_r.
    repeat split; try done; apply Hwf.
  - assert (Z.to_nat (Doctor.sizeQ D) = S (length q)) as Hn.
    { rewrite (wf_sizeQ D Hwf), <- Hq. simpl. lia. }
    rewrite Hn. simpl.
    destruct (dequeue_ok D tk q Hwf (eq_sym Hq)) as (D1 & Hd & Hwf1 & Hq1 & Hfr1).
    rewrite Hd.
    assert (length q = Z.to_nat (Doctor.sizeQ D1)) as Hn1.
    { rewrite (wf_sizeQ D1 Hwf1), Hq1. lia. }
    rewrite Hn1. change (Token.tokenId tk =? remId) with (hasTokenId remId tk).
    destruct (negb removed && hasTokenId remId tk) eqn:E.
    + destruct (IH D1 true tmp Hwf1 (eq_sym Hq1)) as (D' & HD' & ? & ? & ?).
      exists D'. rewrite HD'. simpl. rewrite ?E.
      split; [done|]. split; [done|]. split; [done|].
      by eapply same_frame_trans.
    + destruct (IH D1 removed (tmp ++ [tk]) Hwf1 (eq_sym Hq1)) as (D' & HD' & ? & ? & ?).
      exists D'. rewrite HD'. simpl. rewrite ?E. simpl. rewrite <- app_assoc. simpl.
      split; [done|]. split; [done|]. split; [done|].
      by eapply same_frame_trans.
Qed.

(** The loop of the BOOK case ends because its condition fails: after
    [sizeQ] iterations [dequeueRoutine] reports an empty queue. *)
Lemma drainRoutine_exits remId D removed tmp :
  wf_doctor D ->
  Doctor.isEmpty
    (HospitalSystem.drainRoutine (Z.to_nat (Doctor.sizeQ D)) remId D removed tmp).1.1
  = true.
Proof.
  intros Hwf.
  destruct (drainRoutine_spec remId D removed tmp Hwf) as (D' & -> & Hwf' & Hq & _).
  simpl. unfold Doctor.isEmpty. rewrite (wf_sizeQ D' Hwf'), Hq. done.
Qed.

Lemma refill_spec tmp D :
  wf_doctor D ->
  Doctor.sizeQ D + Z.of_nat (length tmp) <= Doctor.capacity D ->
  wf_doctor (HospitalSystem.refill tmp D) /\
  queue (HospitalSystem.refill tmp D) = queue D ++ tmp /\
  same_frame D (HospitalSystem.refill tmp D).
Proof.
  revert D. induction tmp as [|tk tmp IH]; intros D Hwf Hcap.
  - simpl. rewrite app_nil_r. split; [done|]. split; [done|]. apply same_frame_refl.
  - simpl in Hcap. unfold HospitalSystem.refill. simpl.
    destruct (enqueue_ok tk D Hwf ltac:(lia)) as (D1 & He & Hwf1 & Hq1 & Hfr1).
    rewrite He. simpl. fold (HospitalSystem.refill tmp D1).
    assert (Doctor.sizeQ D1 = Doctor.sizeQ D + 1) as Hs1.
    { rewrite (wf_sizeQ D1 Hwf1), (wf_sizeQ D Hwf), Hq1, length_app. simpl. lia. }
    assert (Doctor.capacity D1 = Doctor.capacity D) as Hc1 by apply Hfr1.
    destruct (IH D1 Hwf1 ltac:(lia)) as (Hwf2 & Hq2 & Hfr2).
    split; [done|]. split.
    + rewrite Hq2, Hq1, <- app_assoc. done.
    + by eapply same_frame_trans.
Qed.

(** Draining a queue and refilling it with what was kept. *)
Lemma drain_refill remId D :
  wf_doctor D ->
  exists D1 D2,
    HospitalSystem.drainRoutine (Z.to_nat (Doctor.sizeQ D)) remId D false []
    = (D1, fst (dropFirst (hasTokenId remId) false (queue D)),
       snd (dropFirst (hasTokenId remId) false (queue D))) /\
    D2 = HospitalSystem.refill (snd (dropFirst (hasTokenId remId) false (queue D))) D1 /\
    wf_doctor D2 /\
    queue D2 = snd (dropFirst (hasTokenId remId) false (queue D)) /\
    same_frame D D2.
Proof.
  intros Hwf.
  destruct (drainRoutine_spec remId D false [] Hwf) as (D1 & Hd & Hwf1 & Hq1 & Hfr1).
  simpl in Hd. exists D1, (HospitalSystem.refill (snd (dropFirst (hasTokenId remId) false (queue D))) D1).
  split; [done|]. split; [done|].
  pose proof (sublist_length _ _ (dropFirst_sublist (hasTokenId remId) false (queue D))) as Hlen.
  assert (Doctor.sizeQ D1 = 0) as Hz by (rewrite (wf_sizeQ D1 Hwf1), Hq1; done).
  assert (Doctor.capacity D1 = Doctor.capacity D) as Hc by apply Hfr1.
  pose proof (wf_sizeQ D Hwf) as HsD.
  destruct Hwf as (_ & _ & Hs & _).
  destruct (refill_spec (snd (dropFirst (hasTokenId remId) false (queue D))) D1 Hwf1
              ltac:(lia)) as (Hwf2 & Hq2 & Hfr2).
  split; [done|]. split.
  - by rewrite Hq2, Hq1.
  - by eapply same_frame_trans.
Qed.

End DrainRoutine.

(** ** The triage queue *)

Section TriageOrder.
Implicit Types (a b c e : TriagedToken.t) (q : PriorityQueue.t).

Lemma gt_spec a b :
  TriagedToken.gt a b = true <->
  TriagedToken.severity b < TriagedToken.severity a \/
  (TriagedToken.severity a = TriagedToken.severity b /\ entryId b < entryId a).
Proof.
  unfold TriagedToken.gt, entryId.
  destruct (TriagedToken.severity a =? TriagedToken.severity b) eqn:E; simpl.
  - apply Z.eqb_eq in E. rewrite Z.gtb_gt. lia.
  - apply Z.eqb_neq in E. rewrite Z.gtb_gt. lia.
Qed.

Lemma key_le_spec a b :
  key_le a b <->
  TriagedToken.severity a < TriagedToken.severity b \/
  (TriagedToken.severity a = TriagedToken.severity b /\ entryId a <= entryId b).
Proof.
  unfold key_le. rewrite <- not_true_iff_false, gt_spec. lia.
Qed.

Lemma key_le_trans a b c : key_le a b -> key_le b c -> key_le a c.
Proof. rewrite !key_le_spec. lia. Qed.

Lemma gt_key_le a b : TriagedToken.gt a b = true -> key_le b a.
Proof. rewrite gt_spec, key_le_spec. lia. Qed.

Lemma key_le_gt a b : key_le a b -> entryId a <> entryId b -> TriagedToken.gt b a = true.
Proof. rewrite gt_spec, key_le_spec. lia. Qed.

Lemma push_perm e q : PriorityQueue.push e q ≡ₚ e :: q.
Proof.
  induction q as [|y q IH]; simpl; [done|].
  destruct (TriagedToken.gt y e); [done|].
  rewrite IH. apply Permutation_swap.
Qed.

Lemma elem_of_push e x q : x ∈ PriorityQueue.push e q <-> x = e \/ x ∈ q.
Proof. rewrite push_perm. apply elem_of_cons. Qed.

Lemma push_sorted e q : heap_sorted q -> heap_sorted (PriorityQueue.push e q).
Proof.
  unfold heap_sorted. induction 1 as [|y q Hq IH Hy]; simpl.
  - repeat constructor.
  - destruct (TriagedToken.gt y e) eqn:E.
    + apply gt_key_le in E. constructor; [by constructor|].
      constructor; [done|].
      eapply Forall_impl; [exact Hy|]. intros z Hz. by eapply key_le_trans.
    + constructor; [done|].
      apply Forall_forall. intros z [->|Hz]%elem_of_push; [done|].
      by eapply Forall_forall in Hy.
Qed.

Lemma push_last e q : Forall (fun y => key_le y e) q -> PriorityQueue.push e q = q ++ [e].
Proof.
  induction 1 as [|y q Hy _ IH]; simpl; [done|].
  unfold key_le in Hy. by rewrite Hy, IH.
Qed.

Lemma push_first e q :
  heap_sorted (e :: q) -> entryId e ∉ heapIds q -> PriorityQueue.push e q = e :: q.
Proof.
  intros Hs Hid. destruct q as [|y q]; [done|]. simpl.
  apply StronglySorted_inv in Hs as [_ Hall].
  apply Forall_cons in Hall as [Hy _].
  rewrite key_le_gt; [done|done|].
  intros Heq. apply Hid. simpl. rewrite Heq. left.
Qed.

Lemma heap_sorted_sublist q q' : q' `sublist_of` q -> heap_sorted q -> heap_sorted q'.
Proof.
  unfold heap_sorted. induction 1 as [|x l1 l2 Hsub IH|x l1 l2 Hsub IH]; intros Hs.
  - constructor.
  - apply StronglySorted_inv in Hs as [Hs Hall].
    constructor; [by apply IH|].
    apply Forall_forall. intros z Hz.
    eapply Forall_forall in Hall; [done|]. by eapply elem_of_sublist.
  - apply StronglySorted_inv in Hs as [Hs _]. by apply IH.
Qed.

Lemma foldl_push_sorted acc l :
  heap_sorted (acc ++ l) ->
  foldl (fun q x => PriorityQueue.push x q) acc l = acc ++ l.
Proof.
  revert acc. induction l as [|x l IH]; intros acc Hs; simpl.
  - by rewrite app_nil_r.
  - rewrite push_last.
    + rewrite IH; rewrite <- app_assoc; done.
    + apply StronglySorted_app in Hs as (Hall & _ & _).
      apply Forall_forall. intros y Hy. apply Hall; [done|left].
Qed.

(** Re-inserting a drained sequence gives that sequence back. *)
Lemma rebuild_sorted l : heap_sorted l -> HospitalSystem.rebuild l = l.
Proof. intros Hs. unfold HospitalSystem.rebuild. by rewrite foldl_push_sorted. Qed.

Lemma drainTriage_spec remId q removed all :
  HospitalSystem.drainTriage remId q removed all
  = (fst (dropFirst (entryHasTokenId remId) removed q),
     all ++ snd (dropFirst (entryHasTokenId remId) removed q)).
Proof.
  revert removed all. induction q as [|e q IH]; intros removed all; simpl.
  - by rewrite app_nil_r.
  - change (Token.tokenId (TriagedToken.token e) =? remId) with (entryHasTokenId remId e).
    destruct (negb removed && entryHasTokenId remId e); rewrite IH; [done|].
    simpl. by rewrite <- app_assoc.
Qed.

(** The minimum of a sorted queue is its head. *)
Lemma heap_sorted_head e q :
  heap_sorted (e :: q) -> forall e', e' ∈ e :: q -> key_le e e'.
Proof.
  intros Hs e' [->|Hin]%elem_of_cons.
  - apply key_le_spec. lia.
  - apply StronglySorted_inv in Hs as [_ Hall]. by eapply Forall_forall in Hall.
Qed.

End TriageOrder.

(** ** The slot list *)

Section Slots.
Implicit Types (l : list SlotNode.t) (s : SlotNode.t).

Lemma find_Some sid l s :
  Doctor.find sid l = Some s -> s ∈ l /\ SlotNode.slotId s = sid.
Proof.
  induction l as [|c l IH]; simpl; [done|].
  destruct (SlotNode.slotId c =? sid) eqn:E.
  - intros [= ->]. apply Z.eqb_eq in E. split; [left|done].
  - intros Hf. destruct (IH Hf). split; [by right|done].
Qed.

Lemma unlink_sublist sid l l' : Doctor.unlink sid l = Some l' -> l' `sublist_of` l.
Proof.
  revert l'. induction l as [|c l IH]; simpl; intros l'; [done|].
  destruct (SlotNode.slotId c =? sid).
  - intros [= ->]. by apply sublist_cons.
  - destruct (Doctor.unlink sid l) as [l0|]; [|done].
    intros [= <-]. apply sublist_skip. by apply IH.
Qed.

Lemma find_unlink sid l :
  is_Some (Doctor.find sid l) <-> is_Some (Doctor.unlink sid l).
Proof.
  induction l as [|c l IH]; simpl.
  - split; intros [? ?]; done.
  - destruct (SlotNode.slotId c =? sid); [split; eauto|].
    rewrite IH. destruct (Doctor.unlink sid l); split; intros [? ?]; eauto; done.
Qed.

Lemma unlink_write sid tk tid l :
  Doctor.unlink sid (Doctor.write sid tk tid l) = Doctor.unlink sid l.
Proof.
  induction l as [|c l IH]; simpl; [done|].
  destruct (SlotNode.slotId c =? sid) eqn:E; simpl.
  - by rewrite E.
  - by rewrite E, IH.
Qed.

Lemma find_write sid tk tid l :
  Doctor.find sid (Doctor.write sid tk tid l)
  = SlotNode.occupy tk tid <$> Doctor.find sid l.
Proof.
  induction l as [|c l IH]; simpl; [done|].
  destruct (SlotNode.slotId c =? sid) eqn:E; simpl.
  - by rewrite E.
  - by rewrite E, IH.
Qed.

Lemma elem_of_write sid tk tid l s' :
  s' ∈ Doctor.write sid tk tid l ->
  s' ∈ l \/ exists s, s ∈ l /\ s' = SlotNode.occupy tk tid s.
Proof.
  induction l as [|c l IH]; simpl; [intros []%elem_of_nil|].
  destruct (SlotNode.slotId c =? sid).
  - intros [->|Hin]%elem_of_cons.
    + right. exists c. split; [left|done].
    + left. by right.
  - intros [->|Hin]%elem_of_cons.
    + left. left.
    + destruct (IH Hin) as [?|(s & ? & ?)].
      * left. by right.
      * right. exists s. split; [by right|done].
Qed.

Lemma write_write sid tk1 tid1 tk2 tid2 l :
  Doctor.write sid tk2 tid2 (Doctor.write sid tk1 tid1 l) = Doctor.write sid tk2 tid2 l.
Proof.
  induction l as [|c l IH]; simpl; [done|].
  destruct (SlotNode.slotId c =? sid) eqn:E; simpl; rewrite E; [done|].
  by rewrite IH.
Qed.

Lemma write_same sid l s :
  Doctor.find sid l = Some s ->
  Doctor.write sid (SlotNode.taken s) (SlotNode.tokenId s) l = l.
Proof.
  induction l as [|c l IH]; simpl; [done|].
  destruct (SlotNode.slotId c =? sid) eqn:E.
  - intros [= ->]. by destruct s.
  - intros Hf. by rewrite IH.
Qed.

Lemma vacate_Some l s l' :
  Doctor.vacateFirstTaken l = Some (s, l') ->
  s ∈ l /\ SlotNode.taken s = true /\
  forall s', s' ∈ l' -> s' ∈ l \/ s' = SlotNode.occupy false (-1) s.
Proof.
  revert l'. induction l as [|c l IH]; simpl; intros l'; [done|].
  destruct (SlotNode.taken c) eqn:E.
  - intros [= -> <-]. split; [left|]. split; [done|].
    intros s' [->|Hin]%elem_of_cons; [by right|]. left. by right.
  - destruct (Doctor.vacateFirstTaken l) as [[f l0]|]; [|done].
    intros [= -> <-]. destruct (IH l0 eq_refl) as (Hin & Ht & Hall).
    split; [by right|]. split; [done|].
    intros s' [->|Hs']%elem_of_cons; [left; left|].
    destruct (Hall s' Hs') as [?|?]; [left; by right|by right].
Qed.

End Slots.

(** ** Doctors *)

Section Doctors.
Implicit Types (D : Doctor.t) (m : gmap Z Doctor.t).

Lemma enqueue_cases tk D :
  wf_doctor D ->
  (Doctor.isFull D = true /\ Doctor.enqueueRoutine tk D = (false, D)) \/
  (Doctor.isFull D = false /\
   exists D', Doctor.enqueueRoutine tk D = (true, D') /\ wf_doctor D' /\
              queue D' = queue D ++ [tk] /\ same_frame D D').
Proof.
  intros Hwf. unfold Doctor.isFull.
  destruct (Doctor.sizeQ D =? Doctor.capacity D) eqn:E.
  - apply Z.eqb_eq in E. left. split; [done|]. by apply enqueue_full.
  - apply Z.eqb_neq in E. right. split; [done|].
    apply enqueue_ok; [done|]. destruct Hwf as (_ & _ & ? & _). lia.
Qed.

Lemma dequeue_cases D :
  wf_doctor D ->
  (queue D = [] /\ Doctor.dequeueRoutine D = (None, D)) \/
  (exists tk q D', queue D = tk :: q /\ Doctor.dequeueRoutine D = (Some tk, D') /\
                   wf_doctor D' /\ queue D' = q /\ same_frame D D').
Proof.
  intros Hwf. destruct (queue D) as [|tk q] eqn:Hq.
  - left. split; [done|]. apply dequeue_empty.
    rewrite (wf_sizeQ D Hwf), Hq. done.
  - right. destruct (dequeue_ok D tk q Hwf Hq) as (D' & ?). by exists tk, q, D'.
Qed.

Lemma docs_ok_mono m n n' : n <= n' -> docs_ok m n -> docs_ok m n'.
Proof.
  intros Hn Hm d D HD. destruct (Hm d D HD) as (Hwf & Hq & Hs).
  split; [done|]. split.
  - intros tk Htk. destruct (Hq tk Htk) as (? & ? & ?). repeat split; [done..|lia].
  - intros s Hin. destruct (Hs s Hin) as (? & ?). split; [lia|done].
Qed.

Lemma docs_ok_insert m n d D :
  docs_ok m n -> doctor_ok d D n -> docs_ok (<[d := D]> m) n.
Proof.
  intros Hm HD d' D'. rewrite lookup_insert.
  case_decide as E; [intros [= <-]; by subst|]. apply Hm.
Qed.

Lemma doctor_ok_new d nm sp cap n : 0 <= cap -> doctor_ok d (Doctor.new d nm sp cap) n.
Proof.
  intros Hc. split; [by apply wf_new|]. split.
  - intros tk Htk. rewrite queue_new in Htk. by apply elem_of_nil in Htk.
  - intros s Hs. simpl in Hs. by apply elem_of_nil in Hs.
Qed.

(** Replacing the slot list leaves the buffer alone. *)
Lemma doctor_ok_slots d D n l :
  doctor_ok d D n ->
  (forall s, s ∈ l ->
     SlotNode.tokenId s < n /\ (SlotNode.taken s = false -> SlotNode.tokenId s = -1)) ->
  doctor_ok d (Doctor.set_slotHead l D) n.
Proof. intros (Hwf & Hq & _) Hl. split; [done|]. split; done. Qed.

(** Replacing the buffer leaves the slot list alone. *)
Lemma doctor_ok_queue d D D' n :
  doctor_ok d D n -> wf_doctor D' -> same_frame D D' ->
  (forall tk, tk ∈ queue D' ->
     Token.doctorId tk = d /\ Token.type tk = ROUTINE /\ Token.tokenId tk < n) ->
  doctor_ok d D' n.
Proof.
  intros (_ & _ & Hs) Hwf (_ & _ & _ & Hsl & _) Hq.
  split; [done|]. split; [done|]. by rewrite Hsl.
Qed.

End Doctors.

(** ** The ledger against the triage queue and the registry *)

Section Ledger.
Implicit Types (a : Action.t) (l : list Action.t) (q : PriorityQueue.t)
  (ps : gmap Z Patient.t) (e : TriagedToken.t).

Lemma regs_cons a l p : p ∈ regs l -> p ∈ regs (a :: l).
Proof.
  intros Hp. simpl.
  destruct (Action.type a), (Action.patientExistedBefore a); try done. by right.
Qed.

Lemma tis_regs l i p : ledger_ok l -> (i, p) ∈ tis l -> p ∈ regs l.
Proof.
  induction l as [|a l IH]; simpl; [by intros _ ?%elem_of_nil|].
  intros [Hl Ha] Hin. apply regs_cons.
  destruct (Action.type a); try by apply IH.
  apply elem_of_cons in Hin as [[= _ ->]|Hin]; [done|by apply IH].
Qed.

Lemma plain_servedIds a l : plain a -> servedIds (a :: l) = servedIds l.
Proof.
  unfold plain. simpl. destruct (Action.type a); try done. by intros ->.
Qed.

Lemma plain_regs a l : plain a -> regs (a :: l) = regs l.
Proof. unfold plain. simpl. by destruct (Action.type a). Qed.

Lemma plain_tis a l : plain a -> tis (a :: l) = tis l.
Proof. unfold plain. simpl. by destruct (Action.type a). Qed.

Lemma plain_ledger_ok a l : plain a -> ledger_ok (a :: l) <-> ledger_ok l.
Proof.
  unfold plain. simpl. destruct (Action.type a); try done; try tauto.
  intros ->. split; [tauto|]. intros ?. split; done.
Qed.

Lemma li_mono q l ps n n' : n <= n' -> ledger_inv q l ps n -> ledger_inv q l ps n'.
Proof.
  intros Hn [H1 H2 H3 H4 H5 H6]. split; try done.
  - intros e He. destruct (H2 e He) as (? & ? & ?). repeat split; [done|lia|done].
  - intros a Ha. specialize (H4 a Ha). lia.
Qed.

Lemma li_bump q l ps n k :
  ledger_inv q l ps n -> is_Some (ps !! k) ->
  ledger_inv q l (HospitalSystem.bumpFreq k ps) n.
Proof.
  intros [H1 H2 H3 H4 H5 H6] Hk. split; try done.
  intros p. rewrite <- H5. unfold HospitalSystem.bumpFreq.
  rewrite lookup_insert. case_decide as E; [|done]. subst. split; eauto.
Qed.

Lemma li_push_plain q l ps n a :
  plain a -> Token.tokenId (Action.token a) < n ->
  ledger_inv q l ps n -> ledger_inv q (a :: l) ps n.
Proof.
  intros Hp Hlt [H1 H2 H3 H4 H5 H6]. split; try done.
  - intros e He. rewrite plain_tis by done. by apply H2.
  - by rewrite plain_servedIds.
  - intros b [->|Hb]%elem_of_cons; [done|by apply H4].
  - intros p. rewrite plain_regs by done. apply H5.
  - by apply (proj2 (plain_ledger_ok a l Hp)).
Qed.

Lemma li_pop_plain q l ps n a :
  plain a -> ledger_inv q (a :: l) ps n -> ledger_inv q l ps n.
Proof.
  intros Hp [H1 H2 H3 H4 H5 H6]. split; try done.
  - intros e He. rewrite <- (plain_tis a) by done. by apply H2.
  - by rewrite <- (plain_servedIds a).
  - intros b Hb. apply H4. by right.
  - intros p. rewrite <- (plain_regs a) by done. apply H5.
  - by apply (proj1 (plain_ledger_ok a l Hp)).
Qed.

Lemma li_registered q l ps n e :
  ledger_inv q l ps n -> e ∈ q -> is_Some (ps !! Token.patientId (TriagedToken.token e)).
Proof.
  intros [H1 H2 H3 H4 H5 H6] He. apply H5.
  destruct (H2 e He) as (_ & _ & Hti). eapply tis_regs; [exact H6|exact Hti].
Qed.

Lemma li_push_reg q l ps n (p : Patient.t) :
  1 <= n -> ledger_inv q l ps n ->
  ledger_inv q
    (Action.set_upsert (bool_decide (is_Some (ps !! Patient.id p))) (Patient.id p)
       (default Patient.default (ps !! Patient.id p)) (Action.init REGISTER_PATIENT) :: l)
    (<[Patient.id p := p]> ps) n.
Proof.
  intros Hn [H1 H2 H3 H4 H5 H6]. split; try done.
  - intros b [->|Hb]%elem_of_cons; [simpl; lia|by apply H4].
  - intros k. simpl. rewrite lookup_insert.
    case_bool_decide as Hex; case_decide as E; subst.
    + split; [intros _; by apply H5|eauto].
    + apply H5.
    + split; [intros _; left|eauto].
    + rewrite elem_of_cons, <- H5. split; [by right|]. intros [?|?]; done.
  - simpl. split; [done|]. rewrite <- H5. by rewrite bool_decide_eq_true.
Qed.

Lemma li_pop_reg q l ps n a :
  Action.type a = REGISTER_PATIENT -> ledger_inv q (a :: l) ps n ->
  ledger_inv q l
    (if Action.patientExistedBefore a
     then <[Action.patientIdForUpsert a := Action.patientSnapshot a]> ps
     else delete (Action.patientIdForUpsert a) ps) n.
Proof.
  intros Ht [H1 H2 H3 H4 H5 H6]. simpl in *. rewrite Ht in *.
  destruct H6 as [Hl Hex]. split; try done.
  - intros b Hb. apply H4. by right.
  - intros k. specialize (H5 k).
    destruct (Action.patientExistedBefore a).
    + rewrite lookup_insert. case_decide as E; [|done]. subst.
      split; [intros _; by apply Hex|eauto].
    + rewrite lookup_delete. case_decide as E.
      * subst. split; [by intros [? ?]|]. intros Hk. apply Hex in Hk. done.
      * rewrite H5, elem_of_cons. split; [intros [?|?]; [congruence|done]|by right].
Qed.

Lemma heapIds_push e q : heapIds (PriorityQueue.push e q) ≡ₚ entryId e :: heapIds q.
Proof. unfold heapIds. by rewrite push_perm. Qed.

Lemma li_push_ti q l ps n pid sev :
  is_Some (ps !! pid) -> ledger_inv q l ps n ->
  ledger_inv
    (PriorityQueue.push (TriagedToken.mk sev (Token.mk n pid (-1) (-1) EMERGENCY)) q)
    (Action.set_severity sev
       (Action.set_token (Token.mk n pid (-1) (-1) EMERGENCY) (Action.init TRIAGE_INSERT)) :: l)
    ps (n + 1).
Proof.
  intros Hpid [H1 H2 H3 H4 H5 H6]. split.
  - by apply push_sorted.
  - intros e [->|He]%elem_of_push.
    + simpl. unfold entryId. simpl. repeat split; [lia|left].
    + destruct (H2 e He) as (? & ? & ?). simpl. repeat split; [done|lia|by right].
  - simpl. rewrite heapIds_push. simpl. constructor; [|done].
    unfold entryId. simpl. intros [Hin|Hin]%elem_of_app.
    + unfold heapIds in Hin. apply list_elem_of_fmap in Hin as (e & Heq & He).
      destruct (H2 e He) as (_ & Hlt & _). lia.
    + assert (forall k i, i ∈ servedIds k -> exists a, a ∈ k /\ Token.tokenId (Action.token a) = i) as Hs.
      { clear. induction k as [|a k IH]; simpl; intros i; [by intros ?%elem_of_nil|].
        destruct (Action.type a), (Token.type (Action.token a));
          try (intros Hi; destruct (IH i Hi) as (b & ? & ?); exists b; split; [by right|done]).
        intros [->|Hi]%elem_of_cons; [exists a; split; [left|done]|].
        destruct (IH i Hi) as (b & ? & ?); exists b; split; [by right|done]. }
      destruct (Hs _ _ Hin) as (a & Ha & Heq). specialize (H4 a Ha). lia.
  - intros a [->|Ha]%elem_of_cons; [simpl; lia|]. specialize (H4 a Ha). lia.
  - done.
  - simpl. split; [done|]. by apply H5.
Qed.

Lemma dropFirst_id_ne {A} (f : A -> Z) (r : Z) (l : list A) (x : A) :
  NoDup (f <$> l) -> x ∈ snd (dropFirst (fun y => f y =? r) false l) -> f x <> r.
Proof.
  induction l as [|y l IH]; simpl; [by intros _ ?%elem_of_nil|].
  intros [Hy Hnd]%NoDup_cons.
  destruct (f y =? r) eqn:E; simpl.
  - apply Z.eqb_eq in E. rewrite dropFirst_removed. simpl.
    intros Hx Heq. apply Hy. apply list_elem_of_fmap. exists x. split; [congruence|done].
  - apply Z.eqb_neq in E. intros [->|Hx]%elem_of_cons; [done|by apply IH].
Qed.

Lemma li_pop_ti q l ps n a :
  Action.type a = TRIAGE_INSERT -> ledger_inv q (a :: l) ps n ->
  let kept := snd (dropFirst (entryHasTokenId (Token.tokenId (Action.token a))) false q) in
  HospitalSystem.rebuild kept = kept /\ ledger_inv kept l ps n.
Proof.
  intros Ht [H1 H2 H3 H4 H5 H6] kept. simpl in *. rewrite Ht in *.
  pose proof (dropFirst_sublist (entryHasTokenId (Token.tokenId (Action.token a))) false q) as Hsub.
  fold kept in Hsub.
  assert (heap_sorted kept) as Hsk by (by eapply heap_sorted_sublist).
  split; [by apply rebuild_sorted|].
  destruct H6 as [Hl Hreg]. split; try done.
  - intros e He. destruct (H2 e (elem_of_sublist _ _ _ He Hsub)) as (? & ? & Hti).
    repeat split; [done..|].
    apply elem_of_cons in Hti as [[= Hid _]|Hti]; [|done].
    exfalso. revert Hid. apply (dropFirst_id_ne entryId _ q e); [|done].
    by apply NoDup_app in H3 as (? & _).
  - eapply sublist_NoDup; [exact H3|].
    apply sublist_app; [|done]. unfold heapIds. by apply fmap_sublist.
  - intros b Hb. apply H4. by right.
Qed.

Lemma li_push_serve q l ps n e :
  ledger_inv (e :: q) l ps n ->
  ledger_inv q
    (Action.set_severity (TriagedToken.severity e)
       (Action.set_token (Token.set_type EMERGENCY (TriagedToken.token e))
          (Action.init SERVE)) :: l) ps n.
Proof.
  intros [H1 H2 H3 H4 H5 H6].
  destruct (H2 e ltac:(left)) as (Hty & Hlt & Hti).
  split.
  - by apply StronglySorted_inv in H1 as [? _].
  - intros e' He'. destruct (H2 e' ltac:(by right)) as (? & ? & ?). done.
  - simpl in *. eapply NoDup_Permutation_proper; [|exact H3].
    symmetry. apply (Permutation_middle (heapIds q)).
  - intros b [->|Hb]%elem_of_cons; [done|by apply H4].
  - done.
  - simpl. split; [done|]. done.
Qed.

Lemma li_pop_serve q l ps n a :
  Action.type a = SERVE -> Token.type (Action.token a) = EMERGENCY ->
  ledger_inv q (a :: l) ps n ->
  ledger_inv (PriorityQueue.push (TriagedToken.mk (Action.severity a) (Action.token a)) q)
             l ps n.
Proof.
  intros Ht Hty [H1 H2 H3 H4 H5 H6]. simpl in *. rewrite Ht, ?Hty in *.
  destruct H6 as [Hl Hti]. split; try done.
  - by apply push_sorted.
  - intros e [->|He]%elem_of_push.
    + simpl. unfold entryId. simpl. repeat split; [done| |by apply Hti].
      apply H4. left.
    + destruct (H2 e He) as (? & ? & ?). done.
  - rewrite heapIds_push. unfold entryId at 1. simpl.
    eapply NoDup_Permutation_proper; [|exact H3].
    apply (Permutation_middle (heapIds q)).
  - intros b Hb. apply H4. by right.
Qed.

End Ledger.

(** ** Every call preserves the invariants *)

Section Preservation.
Import HospitalSystem.
Implicit Types (H : HospitalSystem.t).

Lemma Inv_init : Inv init.
Proof.
  split; simpl; [lia| |].
  - intros d D Hd. by rewrite lookup_empty in Hd.
  - split; simpl; try done.
    + constructor.
    + by intros e ?%elem_of_nil.
    + constructor.
    + by intros a ?%elem_of_nil.
    + intros p. rewrite lookup_empty. split; [by intros [? ?]|by intros ?%elem_of_nil].
Qed.

Lemma Inv_addDoctor d nm sp cap H r H' :
  Inv H -> addDoctor d nm sp cap H = Some (r, H') -> Inv H'.
Proof.
  intros [Hn Hd Hl]. unfold addDoctor.
  destruct (doctors H !! d); [by intros [= _ <-]|].
  destruct (cap <? 0) eqn:E; [done|]. apply Z.ltb_ge in E.
  intros [= _ <-]. split; simpl; [done| |done].
  apply docs_ok_insert; [done|]. by apply doctor_ok_new.
Qed.

Lemma Inv_scheduleAddSlot d sid a b H :
  Inv H -> Inv (scheduleAddSlot d sid a b H).2.
Proof.
  intros [Hn Hd Hl]. unfold scheduleAddSlot.
  destruct (doctors H !! d) as [D|] eqn:HD; [|done].
  split; simpl; [done| |done].
  apply docs_ok_insert; [done|]. apply doctor_ok_slots; [by apply Hd|].
  intros s [Hs|Hsing%list_elem_of_singleton]%elem_of_app; [|subst].
  - by apply (Hd d D HD).
  - simpl. split; [lia|done].
Qed.

Lemma Inv_scheduleCancelSlot d sid H :
  Inv H -> Inv (scheduleCancelSlot d sid H).2.
Proof.
  intros [Hn Hd Hl]. unfold scheduleCancelSlot.
  destruct (doctors H !! d) as [D|] eqn:HD; [|done].
  unfold Doctor.findSlot.
  destruct (Doctor.find sid (Doctor.slotHead D)) as [slot|] eqn:Hf; [|done].
  destruct (proj1 (find_unlink sid (Doctor.slotHead D)) ltac:(eauto)) as [l' Hu].
  pose proof (unlink_sublist _ _ _ Hu) as Hsub.
  destruct (Hd d D HD) as (Hwf & Hq & Hs).
  assert (doctor_ok d (Doctor.set_slotHead l' D) (nextTokenId H)) as Hok.
  { apply doctor_ok_slots; [by apply Hd|].
    intros s Hin. apply Hs. by eapply elem_of_sublist. }
  destruct (SlotNode.taken slot) eqn:Ht.
  - unfold Doctor.cancelSlot, Doctor.writeSlot. simpl.
    rewrite unlink_write, Hu. simpl.
    split; simpl; [done| |].
    + by apply docs_ok_insert.
    + apply li_push_plain; [done| |done]. simpl.
      apply find_Some in Hf as [Hin _]. by apply Hs.
  - unfold Doctor.cancelSlot. rewrite Hu. simpl.
    split; simpl; [done| |done]. by apply docs_ok_insert.
Qed.

Lemma Inv_patientUpsert p H : Inv H -> Inv (patientUpsert p H).
Proof.
  intros [Hn Hd Hl]. unfold patientUpsert.
  split; simpl; [done|done|]. by apply li_push_reg.
Qed.

Lemma Inv_enqueueRoutine p d sid H : Inv H -> Inv (enqueueRoutine p d sid H).2.
Proof.
  intros [Hn Hd Hl]. unfold enqueueRoutine.
  destruct (doctors H !! d) as [D|] eqn:HD; [|done].
  destruct (patients H !! p) as [P|] eqn:HP; [|done].
  destruct (Hd d D HD) as (Hwf & Hq & Hs).
  assert (Inv (set_nextTokenId (nextTokenId H + 1) H)) as Hmono.
  { split; simpl; [lia| |].
    - eapply docs_ok_mono; [|done]. lia.
    - eapply li_mono; [|done]. lia. }
  destruct (negb (sid =? -1)) eqn:Esid.
  - unfold Doctor.findSlot.
    destruct (Doctor.find sid (Doctor.slotHead D)) as [slot|] eqn:Hf; [|done].
    destruct (SlotNode.taken slot) eqn:Ht; [done|].
    simpl. split; simpl; [lia| |].
    + apply docs_ok_insert; [eapply docs_ok_mono; [|done]; lia|].
      apply doctor_ok_slots.
      { apply (docs_ok_mono (doctors H) (nextTokenId H) (nextTokenId H + 1) ltac:(lia) Hd d D HD). }
      intros s [Hin|(s0 & Hin & ->)]%elem_of_write.
      * destruct (Hs s Hin). split; [lia|done].
      * simpl. split; [lia|done].
    + apply li_bump; [|by rewrite HP].
      apply li_push_plain; [done|simpl; lia|]. eapply li_mono; [|done]. lia.
  - destruct (enqueue_cases (Token.mk (nextTokenId H) p d sid ROUTINE) D Hwf)
      as [[Hfull He]|[Hfull (D' & He & Hwf' & Hq' & Hfr)]]; rewrite Hfull; [done|].
    rewrite He. simpl. split; simpl; [lia| |].
    + apply docs_ok_insert; [eapply docs_ok_mono; [|done]; lia|].
      eapply doctor_ok_queue; [|done|done|].
      { apply (docs_ok_mono (doctors H) (nextTokenId H) (nextTokenId H + 1) ltac:(lia) Hd d D HD). }
      intros tk. rewrite Hq'. intros [Hin|Hsing%list_elem_of_singleton]%elem_of_app; [|subst].
      * destruct (Hq tk Hin) as (? & ? & ?). repeat split; [done..|lia].
      * simpl. repeat split; [done..|lia].
    + apply li_bump; [|by rewrite HP].
      apply li_push_plain; [done|simpl; lia|]. eapply li_mono; [|done]. lia.
Qed.

Lemma Inv_triageInsert p sev H : Inv H -> Inv (triageInsert p sev H).2.
Proof.
  intros [Hn Hd Hl]. unfold triageInsert.
  destruct (patients H !! p) as [P|] eqn:HP; [|done].
  simpl. split; simpl; [lia| |].
  - eapply docs_ok_mono; [|done]. lia.
  - apply li_bump; [|by rewrite HP]. apply li_push_ti; [by rewrite HP|done].
Qed.

Lemma Inv_serveNext d H : Inv H -> Inv (serveNext d H).2.
Proof.
  intros [Hn Hd Hl]. unfold serveNext.
  destruct (triageHeap H) as [|e q] eqn:Hh; simpl.
  - destruct (doctors H !! d) as [D|] eqn:HD; [|rewrite <- Hh in Hl; done].
    destruct (Hd d D HD) as (Hwf & Hq & Hs).
    destruct (dequeue_cases D Hwf)
      as [[Hnil He]|(tk & q' & D' & Hq' & He & Hwf' & Hq'' & Hfr)]; rewrite He.
    + rewrite <- Hh in Hl.
      destruct (Doctor.vacateFirstTaken (Doctor.slotHead D)) as [[s l]|] eqn:Hv; [|done].
      apply vacate_Some in Hv as (Hin & Ht & Hall).
      simpl. split; simpl; [done| |].
      * apply docs_ok_insert; [done|]. apply doctor_ok_slots; [by apply Hd|].
        intros s' [Hs'| ->]%Hall; [by apply Hs|]. simpl. split; [lia|done].
      * apply li_push_plain; [done| |done]. simpl. by apply Hs.
    + rewrite <- Hh in Hl.
      assert (tk ∈ queue D) as Htk by (rewrite Hq'; left).
      destruct (Hq tk Htk) as (Hdoc & Hty & Hlt).
      simpl. split; simpl; [done| |].
      * apply docs_ok_insert; [done|].
        eapply doctor_ok_queue; [by apply Hd|done|done|].
        intros tk' Hin. apply Hq. rewrite Hq'. right. by rewrite <- Hq''.
      * apply li_push_plain; [done|done|done].
  - pose proof (li_registered _ _ _ _ e Hl ltac:(left)) as Hreg.
    apply li_push_serve in Hl.
    destruct (negb (Token.patientId (TriagedToken.token e) =? -1));
      split; simpl; try done.
    by apply li_bump.
Qed.

Lemma Inv_undoPop H : Inv H -> Inv (undoPop H).2.
Proof.
  intros [Hn Hd Hl]. unfold undoPop.
  destruct (undoStack H) as [|act rest] eqn:Hu; [rewrite <- Hu in Hl; done|].
  assert (Token.tokenId (Action.token act) < nextTokenId H) as Hact.
  { apply (li_lt _ _ _ _ Hl). left. }
  destruct (Action.type act) eqn:Hty.
  - (* BOOK *)
    assert (plain act) as Hp by (unfold plain; by rewrite Hty).
    apply li_pop_plain in Hl; [|done].
    simpl. destruct (doctors H !! Action.doctorId act) as [D|] eqn:HD; [|done].
    destruct (Hd _ D HD) as (Hwf & Hq & Hs).
    destruct (negb (Token.slotId (Action.token act) =? -1)).
    + unfold Doctor.findSlot.
      destruct (Doctor.find _ (Doctor.slotHead D)) as [slot|]; [|done].
      destruct (SlotNode.taken slot && _); [|done].
      split; simpl; [done| |done].
      apply docs_ok_insert; [done|]. apply doctor_ok_slots; [by apply Hd|].
      intros s [Hin|(s0 & Hin & ->)]%elem_of_write; [by apply Hs|].
      simpl. split; [lia|done].
    + destruct (drain_refill (Token.tokenId (Action.token act)) D Hwf)
        as (D1 & D2 & Hdr & -> & Hwf2 & Hq2 & Hfr).
      rewrite Hdr.
      assert (docs_ok (<[Action.doctorId act :=
                refill (dropFirst (hasTokenId (Token.tokenId (Action.token act))) false
                          (queue D)).2 D1]> (doctors H)) (nextTokenId H)) as Hdocs.
      { apply docs_ok_insert; [done|].
        eapply doctor_ok_queue; [by apply Hd|done|done|].
        intros tk. rewrite Hq2. intros Hin. apply Hq.
        eapply elem_of_sublist; [done|]. apply dropFirst_sublist. }
      destruct (dropFirst _ false (queue D)).1; split; simpl; done.
  - (* CANCEL *)
    assert (plain act) as Hp by (unfold plain; by rewrite Hty).
    apply li_pop_plain in Hl; [|done].
    simpl. destruct (doctors H !! Action.doctorId act) as [D|] eqn:HD; [|done].
    destruct (Hd _ D HD) as (Hwf & Hq & Hs).
    unfold Doctor.findSlot.
    destruct (Doctor.find _ (Doctor.slotHead D)) as [slot|]; [|done].
    split; simpl; [done| |done].
    apply docs_ok_insert; [done|]. apply doctor_ok_slots; [by apply Hd|].
    intros s [Hin|(s0 & Hin & ->)]%elem_of_write; [by apply Hs|].
    simpl. split; [lia|done].
  - (* SERVE *)
    destruct (Token.type (Action.token act)) eqn:Htk.
    + assert (plain act) as Hp by (unfold plain; by rewrite Hty).
      apply li_pop_plain in Hl; [|done].
      simpl. destruct (doctors H !! Token.doctorId (Action.token act)) as [D|] eqn:HD; [|done].
      destruct (Hd _ D HD) as (Hwf & Hq & Hs).
      split; simpl; [done| |done].
      apply docs_ok_insert; [done|].
      destruct (enqueue_cases (Action.token act) D Hwf)
        as [[_ He]|[_ (D' & He & Hwf' & Hq' & Hfr)]]; rewrite He; simpl.
      * by apply Hd.
      * eapply doctor_ok_queue; [by apply Hd|done|done|].
        intros tk. rewrite Hq'. intros [Hin|Hsing%list_elem_of_singleton]%elem_of_app; [|subst].
        { by apply Hq. }
        done.
    + apply li_pop_serve in Hl; [|done..].
      split; simpl; done.
  - (* REGISTER_PATIENT *)
    apply li_pop_reg in Hl; [|done].
    destruct (Action.patientExistedBefore act); split; simpl; done.
  - (* TRIAGE_INSERT *)
    apply li_pop_ti in Hl as [Hre Hl]; [|done].
    rewrite drainTriage_spec. simpl. rewrite Hre.
    destruct (dropFirst _ false (triageHeap H)).1; split; simpl; done.
Qed.

Lemma Inv_exec op H r H' : Inv H -> exec op H = Some (r, H') -> Inv H'.
Proof.
  intros HI. destruct op; simpl.
  - by apply Inv_addDoctor.
  - intros [= Heq]. replace H' with (scheduleAddSlot doctorId slotId startTime endTime H).2
      by (by rewrite Heq). by apply Inv_scheduleAddSlot.
  - intros [= Heq]. replace H' with (scheduleCancelSlot doctorId slotId H).2
      by (by rewrite Heq). by apply Inv_scheduleCancelSlot.
  - intros [= _ <-]. by apply Inv_patientUpsert.
  - pose proof (Inv_enqueueRoutine patientId doctorId slotId H HI) as HI'.
    destruct (enqueueRoutine patientId doctorId slotId H). by intros [= _ <-].
  - intros [= Heq]. replace H' with (triageInsert patientId severity H).2
      by (by rewrite Heq). by apply Inv_triageInsert.
  - pose proof (Inv_serveNext doctorId H HI) as HI'.
    destruct (serveNext doctorId H). by intros [= _ <-].
  - intros [= Heq]. replace H' with (undoPop H).2 by (by rewrite Heq).
    by apply Inv_undoPop.
Qed.

Lemma reachable_Inv H : reachable H -> Inv H.
Proof.
  induction 1 as [|op H r H' _ IH Hex]; [apply Inv_init|by eapply Inv_exec].
Qed.

Lemma run_reachable ops H H' : reachable H -> run ops H = Some H' -> reachable H'.
Proof.
  revert H. induction ops as [|op ops IH]; intros H Hr; simpl.
  - by intros [= <-].
  - destruct (exec op H) as [[r H1]|] eqn:E; [|done].
    apply IH. by eapply reachable_step.
Qed.

End Preservation.

(** * The claims of the specification *)

Section Triage.
Import HospitalSystem.
Implicit Types (H : HospitalSystem.t).

Lemma key_le_precedes e e' : key_le e e' <-> precedes e e'.
Proof. apply key_le_spec. Qed.

(** What [serveNext] does on a non-empty triage collection, whatever the
    doctors are. *)
Lemma serveNext_emergency d H e q :
  triageHeap H = e :: q ->
  exists H', serveNext d H = (Some (Token.set_type EMERGENCY (TriagedToken.token e)), H') /\
    doctors H' = doctors H /\ triageHeap H' = q /\
    servedCount H' = servedCount H + 1 /\
    pendingCountTotal H' = pendingCountTotal H - 1 /\
    nextTokenId H' = nextTokenId H /\
    undoStack H' =
      Action.set_severity (TriagedToken.severity e)
        (Action.set_token (Token.set_type EMERGENCY (TriagedToken.token e))
           (Action.init SERVE)) :: undoStack H /\
    patients H' =
      (if negb (Token.patientId (TriagedToken.token e) =? -1)
       then bumpFreq (Token.patientId (TriagedToken.token e)) (patients H)
       else patients H).
Proof.
  intros Hh. unfold serveNext. rewrite Hh. simpl.
  eexists. split; [reflexivity|].
  destruct (negb (Token.patientId (TriagedToken.token e) =? -1)); simpl; done.
Qed.

(** C1. In every reachable state whose triage collection is not empty,
    [serveNext] succeeds for every requested doctor id, known or not; it
    serves the head of the triage collection, which precedes every other
    entry; the outcome is the same for every requested id and for every
    content of the doctors' schedules, which it leaves as they are.  A
    served routine token, or a change to the doctors, occurs only when the
    triage collection is empty. *)
Theorem emergency_precedence H d :
  reachable H ->
  (triageHeap H <> [] ->
   exists e q served,
     triageHeap H = e :: q /\
     served = Token.set_type EMERGENCY (TriagedToken.token e) /\
     (forall e', e' ∈ triageHeap H -> precedes e e') /\
     (forall d' m, exists H',
        serveNext d' (set_doctors m H) = (Some served, H') /\
        doctors H' = m /\ triageHeap H' = q /\
        H' = set_doctors m (serveNext d H).2)) /\
  (forall tk H', serveNext d H = (Some tk, H') ->
     Token.type tk = ROUTINE \/ doctors H' <> doctors H ->
     triageHeap H = []).
Proof.
  intros Hr. apply reachable_Inv in Hr as [_ _ Hl]. split.
  - intros Hne. destruct (triageHeap H) as [|e q] eqn:Hh; [done|].
    exists e, q, (Token.set_type EMERGENCY (TriagedToken.token e)).
    split; [done|]. split; [done|]. split.
    + intros e' He'. apply key_le_precedes.
      eapply heap_sorted_head; [apply (li_sorted _ _ _ _ Hl)|done].
    + intros d' m. unfold serveNext. simpl. rewrite Hh. simpl.
      eexists. split; [reflexivity|].
      destruct (negb (Token.patientId (TriagedToken.token e) =? -1)); simpl; done.
  - intros tk H' Hs Hor. destruct (triageHeap H) as [|e q] eqn:Hh; [done|].
    destruct (serveNext_emergency d H e q Hh) as (H1 & Hs1 & Hd1 & _).
    rewrite Hs in Hs1. injection Hs1 as -> ->.
    destruct Hor as [Hty|Hne]; [done|by rewrite Hd1 in Hne].
Qed.

Lemma triageAll_spec ins H :
  reachable H ->
  reachable (triageAll ins H) /\
  triageHeap (triageAll ins H) ≡ₚ pendingEmergency ins H.
Proof.
  revert H. induction ins as [|[p s] ins IH]; intros H Hr.
  - split; [done|]. unfold pendingEmergency. simpl. by rewrite app_nil_r.
  - unfold pendingEmergency. simpl.
    assert (reachable (triageInsert p s H).2) as Hr1.
    { destruct (triageInsert p s H) as [r H1] eqn:E.
      apply (reachable_step (OpTriage p s) H r H1 Hr). simpl. by rewrite E. }
    revert Hr1 IH. unfold triageAll. simpl. unfold triageInsert.
    destruct (patients H !! p) as [P|] eqn:HP; simpl; intros Hr1 IH.
    + rewrite filter_cons_True by (simpl; by rewrite HP).
      destruct (IH _ Hr1) as [Hr2 Hperm]. split; [done|].
      rewrite Hperm. unfold pendingEmergency. simpl.
      rewrite push_perm. simpl.
      assert (filter (fun ps : Z * Z => is_Some (bumpFreq p (patients H) !! ps.1)) ins
              = filter (fun ps : Z * Z => is_Some (patients H !! ps.1)) ins) as ->.
      { apply list_filter_iff. intros [k sv]. simpl.
        unfold bumpFreq. rewrite HP. simpl.
        destruct (decide (k = p)) as [->|Hne].
        - rewrite lookup_insert_eq, HP. split; eauto.
        - by rewrite lookup_insert_ne. }
      by rewrite <- Permutation_middle.
    + rewrite filter_cons_False by (simpl; rewrite HP; by intros [? ?]).
      apply (IH _ Hr).
Qed.

Lemma NoDup_fmap_eq {A B} (f : A -> B) (l : list A) x y :
  NoDup (f <$> l) -> x ∈ l -> y ∈ l -> f x = f y -> x = y.
Proof.
  induction l as [|a l IH]; simpl; [by intros _ ?%elem_of_nil|].
  intros [Hnot Hnd]%NoDup_cons [->|Hx]%elem_of_cons [->|Hy]%elem_of_cons Heq; [done|..].
  - destruct Hnot. rewrite Heq. by apply list_elem_of_fmap_2.
  - destruct Hnot. rewrite <- Heq. by apply list_elem_of_fmap_2.
  - by apply IH.
Qed.

(** C4. For every sequence of triage insertions made in a reachable
    state, the triage collection then holds exactly the pending emergency
    tokens: those pending before and one per insertion for a registered
    patient, with distinct token ids rising in the order of insertion.
    Whenever there is one, there is a lowest among them (lowest severity,
    and of those the lowest token id), and [serveNext], for whatever
    doctor, returns the token of that entry and removes that entry and no
    other. *)
Theorem triage_serves_minimum H ins d :
  reachable H ->
  triageHeap (triageAll ins H) ≡ₚ pendingEmergency ins H /\
  NoDup (entryId <$> pendingEmergency ins H) /\
  (pendingEmergency ins H <> [] ->
   exists e, e ∈ pendingEmergency ins H /\ lowest e (pendingEmergency ins H)) /\
  (forall e, e ∈ pendingEmergency ins H -> lowest e (pendingEmergency ins H) ->
     exists H',
       serveNext d (triageAll ins H) = (Some (TriagedToken.token e), H') /\
       forall e', e' ∈ triageHeap H' <-> e' ∈ pendingEmergency ins H /\ e' <> e).
Proof.
  intros Hr. destruct (triageAll_spec ins H Hr) as [Hr1 Hperm].
  apply reachable_Inv in Hr1 as [_ _ Hl].
  pose proof (li_sorted _ _ _ _ Hl) as Hsort.
  pose proof (li_ids _ _ _ _ Hl) as Hnd. apply NoDup_app in Hnd as [Hnd _].
  unfold heapIds in Hnd.
  split; [done|]. split; [by rewrite <- Hperm|]. split.
  - intros Hne. destruct (triageHeap (triageAll ins H)) as [|e q] eqn:Hh.
    { apply Permutation_nil_l in Hperm. done. }
    exists e. split; [rewrite <- Hperm; left|].
    intros e' He'. rewrite <- Hperm in He'. apply key_le_precedes.
    by apply (heap_sorted_head e q).
  - intros e He Hlow. rewrite <- Hperm in He.
    destruct (triageHeap (triageAll ins H)) as [|e0 q] eqn:Hh;
      [by apply elem_of_nil in He|].
    assert (e = e0) as ->.
    { apply (NoDup_fmap_eq entryId (e0 :: q)); [done|done|left|].
      assert (precedes e e0) as H1 by (apply Hlow; rewrite <- Hperm; left).
      assert (precedes e0 e) as H2
        by (apply key_le_precedes; by apply (heap_sorted_head e0 q)).
      unfold precedes in *. lia. }
    destruct (serveNext_emergency d _ e0 q Hh) as (H' & Hs & _ & Hq & _).
    exists H'. split.
    + rewrite Hs. f_equal. f_equal.
      destruct (li_heap _ _ _ _ Hl e0 ltac:(left)) as (Hty & _).
      destruct (TriagedToken.token e0). simpl in *. by subst.
    + intros e'. rewrite Hq, <- Hperm. split.
      * intros He'. split; [by right|]. intros ->.
        simpl in Hnd. apply NoDup_cons in Hnd as [Hnot _]. apply Hnot.
        by apply list_elem_of_fmap_2.
      * intros [[->|?]%elem_of_cons Hne]; done.
Qed.

End Triage.

Section Scenarios.
Import HospitalSystem.
Implicit Types (H : HospitalSystem.t).

Lemma after_reachable ops : is_Some (run ops init) -> reachable (after ops).
Proof.
  intros [H' Hrun]. unfold after. rewrite Hrun. simpl.
  eapply run_reachable; [apply reachable_init|done].
Qed.

Lemma emergency_precedence_witness :
  triageHeap triageDemo <> [] /\
  ((triageHeap triageDemo <> [] ->
    exists e q served,
      triageHeap triageDemo = e :: q /\
      served = Token.set_type EMERGENCY (TriagedToken.token e) /\
      (forall e', e' ∈ triageHeap triageDemo -> precedes e e') /\
      (forall d' m, exists H',
         serveNext d' (set_doctors m triageDemo) = (Some served, H') /\
         doctors H' = m /\ triageHeap H' = q /\
         H' = set_doctors m (serveNext 99 triageDemo).2)) /\
   (forall tk H', serveNext 99 triageDemo = (Some tk, H') ->
      Token.type tk = ROUTINE \/ doctors H' <> doctors triageDemo ->
      triageHeap triageDemo = [])).
Proof.
  split; [vm_compute; discriminate|].
  apply (emergency_precedence triageDemo 99).
  apply after_reachable. vm_compute. eauto.
Defined.

Lemma triage_serves_minimum_witness :
  exists H',
    serveNext 1 (triageAll [(1, 5); (2, 2); (3, 2)] seeded)
    = (Some (Token.mk 2 2 (-1) (-1) EMERGENCY), H') /\
    forall e', e' ∈ triageHeap H' <->
      e' ∈ pendingEmergency [(1, 5); (2, 2); (3, 2)] seeded /\
      e' <> TriagedToken.mk 2 (Token.mk 2 2 (-1) (-1) EMERGENCY).
Proof.
  apply (proj2 (proj2 (proj2
    (triage_serves_minimum seeded [(1, 5); (2, 2); (3, 2)] 1
       (after_reachable seedSampleData ltac:(vm_compute; eauto)))))
    (TriagedToken.mk 2 (Token.mk 2 2 (-1) (-1) EMERGENCY))).
  - vm_compute. right. left.
  - intros e' He'. vm_compute in He'.
    repeat (apply elem_of_cons in He' as [->|He']); [..|by apply elem_of_nil in He'];
      unfold precedes, entryId; simpl; lia.
Defined.

(** The scenario of the specification: severities 5, 2, 2 inserted for
    patients 1, 2, 3 are served as patient 2, patient 3, patient 1. *)
Example triage_order_scenario :
  let H0 := after (seedSampleData ++ [OpTriage 1 5; OpTriage 2 2; OpTriage 3 2]) in
  let r1 := serveNext 1 H0 in
  let r2 := serveNext 1 r1.2 in
  let r3 := serveNext 1 r2.2 in
  r1.1 = Some (Token.mk 2 2 (-1) (-1) EMERGENCY) /\
  r2.1 = Some (Token.mk 3 3 (-1) (-1) EMERGENCY) /\
  r3.1 = Some (Token.mk 1 1 (-1) (-1) EMERGENCY).
Proof. vm_compute. repeat split; reflexivity. Qed.

(** C10. Undoing the Serve record of a routine token while the queue of
    the token's doctor is full reports success, increments the pending
    total and decrements the served total, removes the record, and leaves
    every doctor (slot lists and queues), the triage collection and the
    registry as they were: the token is in none of them. *)
Theorem undo_serve_on_full_queue H a rest D :
  undoStack H = a :: rest ->
  Action.type a = SERVE ->
  Token.type (Action.token a) = ROUTINE ->
  doctors H !! Token.doctorId (Action.token a) = Some D ->
  Doctor.isFull D = true ->
  exists H',
    undoPop H = (true, H') /\
    pendingCountTotal H' = pendingCountTotal H + 1 /\
    servedCount H' = servedCount H - 1 /\
    doctors H' = doctors H /\
    triageHeap H' = triageHeap H /\
    patients H' = patients H /\
    undoStack H' = rest.
Proof.
  intros Hu Hty Htk HD Hfull. unfold undoPop. rewrite Hu, Hty, Htk. simpl. rewrite HD.
  eexists. split; [reflexivity|]. simpl.
  unfold Doctor.enqueueRoutine. rewrite Hfull. simpl.
  repeat split; try done. by apply insert_id.
Qed.

Lemma undo_serve_on_full_queue_witness :
  exists H',
    undoPop (after (smallClinic ++ [OpServe 3; OpServe 3; OpUndo])) = (true, H') /\
    pendingCountTotal H' = 2 /\ servedCount H' = 0 /\
    (viewDoctor <$> doctors H' !! 3) =
      Some (mkView 3 "Dr_Rao" "ENT"
              [SlotNode.mk 301 "11:00" "11:15" false (-1);
               SlotNode.mk 302 "11:15" "11:30" false (-1)] 1
              [Token.mk 2 (-1) 3 302 ROUTINE]) /\
    triageHeap H' = [].
Proof.
  destruct (undo_serve_on_full_queue
              (after (smallClinic ++ [OpServe 3; OpServe 3; OpUndo]))
              (Action.set_token (Token.mk 1 (-1) 3 301 ROUTINE) (Action.init SERVE))
              (List.tl (undoStack (after (smallClinic ++ [OpServe 3; OpServe 3; OpUndo]))))
              (default (Doctor.new 0 "" "" 0)
                 (doctors (after (smallClinic ++ [OpServe 3; OpServe 3; OpUndo])) !! 3)))
    as (H' & Hundo & Hp & Hs & Hd & Hh & _ & _).
  - vm_compute. reflexivity.
  - reflexivity.
  - reflexivity.
  - vm_compute. reflexivity.
  - vm_compute. reflexivity.
  - exists H'. split; [exact Hundo|].
    rewrite Hp, Hs, Hd, Hh. vm_compute. repeat split; reflexivity.
Defined.

(** Cancelling an occupied slot and undoing the cancellation, in any
    state: unless the doctor has a second slot with the same identifier,
    [undo] finds no slot, reports failure and leaves the pending total one
    below what it was before the cancellation. *)
Lemma cancel_then_undo_fails d sid D slot l' H :
  doctors H !! d = Some D ->
  Doctor.findSlot sid D = Some slot -> SlotNode.taken slot = true ->
  Doctor.unlink sid (Doctor.slotHead D) = Some l' -> Doctor.find sid l' = None ->
  (scheduleCancelSlot d sid H).1 = true /\
  pendingCountTotal (scheduleCancelSlot d sid H).2 = pendingCountTotal H - 1 /\
  (undoPop (scheduleCancelSlot d sid H).2).1 = false /\
  pendingCountTotal (undoPop (scheduleCancelSlot d sid H).2).2 = pendingCountTotal H - 1 /\
  schedules (undoPop (scheduleCancelSlot d sid H).2).2
  = schedules (scheduleCancelSlot d sid H).2.
Proof.
  intros HD Hf Ht Hu Hnone. unfold scheduleCancelSlot. rewrite HD, Hf, Ht.
  unfold Doctor.cancelSlot, Doctor.writeSlot. simpl. rewrite unlink_write, Hu. simpl.
  split; [done|]. split; [done|].
  unfold undoPop. simpl. rewrite lookup_insert_eq.
  unfold Doctor.findSlot. simpl. rewrite Hnone. done.
Qed.

(** C2. The scenario on the seeded system: booking patient 1 into slot
    101 of doctor 1 raises the pending total by one and cancelling the
    slot lowers it by one; the following [undo] reports failure, leaves
    the pending total as it is and finds no slot 101, which the
    cancellation has unlinked. *)
Theorem cancel_then_undo_scenario :
  let H0 := after seedSampleData in
  let H1 := (enqueueRoutine 1 1 101 H0).2 in
  let H2 := (scheduleCancelSlot 1 101 H1).2 in
  let H3 := (undoPop H2).2 in
  (enqueueRoutine 1 1 101 H0).1 = 1 /\
  pendingCountTotal H1 = pendingCountTotal H0 + 1 /\
  (Doctor.findSlot 101 <$> doctors H1 !! 1)
    = Some (Some (SlotNode.mk 101 "09:00" "09:15" true 1)) /\
  (scheduleCancelSlot 1 101 H1).1 = true /\
  pendingCountTotal H2 = pendingCountTotal H1 - 1 /\
  (undoPop H2).1 = false /\
  pendingCountTotal H3 = pendingCountTotal H2 /\
  (Doctor.findSlot 101 <$> doctors H3 !! 1) = Some None.
Proof. vm_compute. repeat split; reflexivity. Qed.

(** C7. After the two booked slots of the third doctor are served and the
    two serves undone, one token is in that doctor's queue, no slot is
    occupied and the triage collection is empty, while the pending
    counter is 2. *)
Theorem pending_counter_drifts :
  let H := after (smallClinic ++ [OpServe 3; OpServe 3; OpUndo; OpUndo]) in
  reachable H /\ pendingSum H = 1 /\ pendingCountTotal H = 2.
Proof.
  split; [apply after_reachable; vm_compute; eauto|].
  vm_compute. split; reflexivity.
Qed.

End Scenarios.

(** ** What [undo] restores *)

Section Undo.
Import HospitalSystem.
Implicit Types (H : HospitalSystem.t) (D : Doctor.t).

Lemma view_eq D D' : same_frame D D' -> queue D' = queue D -> viewDoctor D' = viewDoctor D.
Proof.
  intros (? & ? & ? & ? & ?) Hq. unfold viewDoctor. congruence.
Qed.

Lemma schedules_insert_same (m : gmap Z Doctor.t) d D D' :
  m !! d = Some D -> viewDoctor D' = viewDoctor D ->
  viewDoctor <$> <[d := D']> m = viewDoctor <$> m.
Proof.
  intros Hm Hv. rewrite fmap_insert, Hv. apply insert_id.
  by rewrite lookup_fmap, Hm.
Qed.

Lemma registry_bump (ps : gmap Z Patient.t) k :
  is_Some (ps !! k) ->
  Patient.forgetFreq <$> bumpFreq k ps = Patient.forgetFreq <$> ps.
Proof.
  intros [P HP]. unfold bumpFreq. rewrite HP. simpl.
  rewrite fmap_insert. apply insert_id. rewrite lookup_fmap, HP. by destruct P.
Qed.

Lemma dropFirst_push n e q :
  entryId e = n -> Forall (fun y => entryId y <> n) q ->
  dropFirst (entryHasTokenId n) false (PriorityQueue.push e q) = (true, q).
Proof.
  intros He. induction 1 as [|y q Hy _ IH]; simpl.
  - unfold entryHasTokenId. fold (entryId e). rewrite He, Z.eqb_refl. done.
  - destruct (TriagedToken.gt y e); simpl.
    + unfold entryHasTokenId at 1. fold (entryId e). rewrite He, Z.eqb_refl. simpl.
      by rewrite dropFirst_removed.
    + unfold entryHasTokenId at 1 2. fold (entryId y).
      rewrite (proj2 (Z.eqb_neq _ _) Hy). simpl. by rewrite IH.
Qed.

Lemma undo_upsert p H : undo_inverts (OpUpsert p) H.
Proof.
  intros H' [= <-]. unfold undoPop, patientUpsert. simpl.
  split; [done|].
  destruct (patients H !! Patient.id p) as [P|] eqn:HP; simpl.
  - split; simpl; try done.
    unfold registry. simpl. by rewrite insert_insert_eq, insert_id.
  - split; simpl; try done.
    unfold registry. simpl. by rewrite delete_insert_eq, delete_id.
Qed.

Lemma undo_triage p sev H : Inv H -> undo_inverts (OpTriage p sev) H.
Proof.
  intros [Hn Hd Hl] H'. simpl. unfold triageInsert.
  destruct (patients H !! p) as [P|] eqn:HP; [|done].
  intros [= <-]. unfold undoPop. simpl.
  rewrite drainTriage_spec, dropFirst_push; [|done|].
  - simpl. rewrite rebuild_sorted by apply Hl. split; [done|].
    split; simpl; try done; [lia|].
    unfold registry. simpl. apply registry_bump. by rewrite HP.
  - apply Forall_forall. intros e He.
    destruct (li_heap _ _ _ _ Hl e He) as (_ & Hlt & _). lia.
Qed.

Lemma undo_book p d sid H : Inv H -> undo_inverts (OpBook p d sid) H.
Proof.
  intros [Hn Hd Hl] H'. simpl.
  destruct (enqueueRoutine p d sid H) as [r H1] eqn:He.
  intros [= Hr <-]. apply negb_true_iff, Z.eqb_neq in Hr.
  revert He. unfold enqueueRoutine.
  destruct (doctors H !! d) as [D|] eqn:HD; [|by intros [= <- _]].
  destruct (patients H !! p) as [P|] eqn:HP; [|by intros [= <- _]].
  destruct (Hd d D HD) as (Hwf & Hq & Hs).
  destruct (negb (sid =? -1)) eqn:Esid.
  - unfold Doctor.findSlot.
    destruct (Doctor.find sid (Doctor.slotHead D)) as [slot|] eqn:Hf; [|by intros [= <- _]].
    destruct (SlotNode.taken slot) eqn:Ht; [by intros [= <- _]|].
    intros [= _ <-]. unfold undoPop. simpl. rewrite lookup_insert_eq. simpl.
    rewrite Esid. unfold Doctor.findSlot, Doctor.writeSlot. simpl.
    rewrite find_write, Hf. simpl. rewrite Z.eqb_refl. simpl.
    split; [done|]. split; simpl; try done; [lia| |].
    + unfold schedules. simpl. rewrite insert_insert_eq.
      apply (schedules_insert_same _ _ D); [done|].
      destruct (find_Some _ _ _ Hf) as [Hin _].
      destruct (Hs slot Hin) as [_ Hfree].
      unfold viewDoctor. simpl. rewrite write_write.
      rewrite <- (Hfree Ht), <- Ht, write_same by done. done.
    + unfold registry. simpl. apply registry_bump. by rewrite HP.
  - destruct (enqueue_cases (Token.mk (nextTokenId H) p d sid ROUTINE) D Hwf)
      as [[Hfull _]|[Hfull (D1 & Hen & Hwf1 & Hq1 & Hfr1)]]; rewrite Hfull;
      [by intros [= <- _]|].
    rewrite Hen. simpl. intros [= _ <-].
    unfold undoPop. simpl. rewrite lookup_insert_eq. simpl. rewrite Esid.
    destruct (drain_refill (nextTokenId H) D1 Hwf1) as (D2 & D3 & Hdr & HD3 & Hwf3 & Hq3 & Hfr3).
    assert (dropFirst (hasTokenId (nextTokenId H)) false (queue D1) = (true, queue D)) as Hdf.
    { rewrite Hq1. apply dropFirst_snoc.
      - apply Forall_forall. intros tk Htk. destruct (Hq tk Htk) as (_ & _ & Hlt).
        unfold hasTokenId. apply Z.eqb_neq. lia.
      - unfold hasTokenId. simpl. apply Z.eqb_refl. }
    rewrite Hdf in Hdr, HD3, Hq3. simpl in Hdr, HD3, Hq3.
    rewrite Hdr, <- HD3. simpl.
    split; [done|]. split; simpl; try done; [lia| |].
    + unfold schedules. simpl. rewrite insert_insert_eq.
      apply (schedules_insert_same _ _ D); [done|].
      apply view_eq; [by eapply same_frame_trans|done].
    + unfold registry. simpl. apply registry_bump. by rewrite HP.
Qed.

Lemma entry_eta e :
  Token.type (TriagedToken.token e) = EMERGENCY ->
  TriagedToken.mk (TriagedToken.severity e)
    (Token.set_type EMERGENCY (TriagedToken.token e)) = e.
Proof. destruct e as [s [? ? ? ? ty]]. simpl. by intros ->. Qed.

Lemma undo_serve_emergency d H :
  Inv H -> triageHeap H <> [] -> undo_inverts (OpServe d) H.
Proof.
  intros [Hn Hd Hl] Hne H'. simpl.
  destruct (triageHeap H) as [|e q] eqn:Hh; [done|].
  destruct (serveNext_emergency d H e q Hh)
    as (H1 & Hs & Hd1 & Hq1 & Hsc & Hpc & _ & Hu & Hps).
  rewrite Hs. intros [= <-].
  destruct (li_heap _ _ _ _ Hl e ltac:(left)) as (Hty & _ & _).
  unfold undoPop. rewrite Hu. simpl. rewrite entry_eta by done.
  rewrite Hq1, push_first; cycle 1.
  { apply Hl. }
  { pose proof (li_ids _ _ _ _ Hl) as Hnd. apply NoDup_app in Hnd as [Hnd _].
    simpl in Hnd. by apply NoDup_cons in Hnd as [? _]. }
  split; [done|]. split; simpl; try lia; try done.
  - unfold schedules. simpl. by rewrite Hd1.
  - unfold registry. simpl. rewrite Hps.
    destruct (negb (Token.patientId (TriagedToken.token e) =? -1)); [|done].
    apply registry_bump. eapply li_registered; [exact Hl|left].
Qed.

Lemma undo_serve_fifo d D H H' :
  Inv H -> triageHeap H = [] -> doctors H !! d = Some D -> Doctor.isEmpty D = false ->
  exec (OpServe d) H = Some (true, H') ->
  (undoPop H').1 = true /\ rotated d H (undoPop H').2.
Proof.
  intros [Hn Hd Hl] Hh HD Hne. simpl. unfold serveNext. rewrite Hh. simpl. rewrite HD.
  destruct (Hd d D HD) as (Hwf & Hq & Hs).
  destruct (dequeue_cases D Hwf)
    as [[Hnil He]|(tk & q' & D1 & Hq' & He & Hwf1 & Hq1 & Hfr1)].
  { unfold Doctor.isEmpty in Hne. rewrite (wf_sizeQ D Hwf), Hnil in Hne. done. }
  rewrite He. simpl. intros [= <-].
  destruct (Hq tk ltac:(rewrite Hq'; left)) as (Hdoc & Hty & _).
  unfold undoPop. simpl. rewrite Hty, Hdoc. rewrite lookup_insert_eq.
  assert (Doctor.sizeQ D1 < Doctor.capacity D1) as Hroom.
  { rewrite (wf_sizeQ D1 Hwf1), Hq1.
    destruct Hfr1 as (_ & _ & _ & _ & ->).
    destruct Hwf as (_ & _ & Hsz & _).
    pose proof (wf_sizeQ D ltac:(by destruct (Hd d D HD))) as Hs0.
    rewrite Hq' in Hs0. simpl in Hs0. lia. }
  destruct (enqueue_ok tk D1 Hwf1 Hroom) as (D2 & Hen & Hwf2 & Hq2 & Hfr2).
  rewrite Hen. simpl. split; [done|]. split; simpl; try lia; try done.
  unfold schedules. simpl. rewrite insert_insert_eq, fmap_insert.
  apply map_eq. intros k. rewrite lookup_insert, lookup_alter.
  case_decide as E; [|done]. subst k. rewrite lookup_fmap, HD. simpl. f_equal.
  unfold rotateView, viewDoctor. simpl. rewrite Hq2, Hq1, Hq'.
  destruct Hfr2 as (-> & -> & -> & -> & ->), Hfr1 as (-> & -> & -> & -> & ->). done.
Qed.

(** C3, as the code has it.  In every reachable state, [undo] right after
    a successful booking (slot-bound or queued), triage insertion or
    patient upsert, or after a serve taken from the triage collection,
    reports success and restores the pending and served counters, the
    slot lists, the routine queues in content and order, the triage
    collection, and the registry apart from visit frequencies.  After a
    serve taken from a doctor's routine queue, [undo] reports success and
    restores counters, slot lists, triage collection and registry, and the
    served token is back in that queue at the rear instead of the front. *)
Theorem undo_inverts_amended op H H' :
  reachable H -> exec op H = Some (true, H') ->
  (undone_exactly op H ->
   (undoPop H').1 = true /\ restored H (undoPop H').2) /\
  (forall d D, op = OpServe d -> triageHeap H = [] ->
     doctors H !! d = Some D -> Doctor.isEmpty D = false ->
     (undoPop H').1 = true /\ rotated d H (undoPop H').2).
Proof.
  intros Hr Hex. apply reachable_Inv in Hr. split.
  - intros Hu. destruct op; simpl in Hu; try done.
    + by apply (undo_upsert p H).
    + by apply (undo_book patientId doctorId slotId H).
    + by apply (undo_triage patientId severity H).
    + by apply (undo_serve_emergency doctorId H).
  - intros d D -> Hh HD Hne. by eapply undo_serve_fifo.
Qed.

End Undo.

(** ** Routine queues at the level of the system *)

Section RoutineQueue.
Import HospitalSystem.
Implicit Types (H : HospitalSystem.t) (D : Doctor.t).

Lemma book_queue_ok p d D H :
  Inv H -> doctors H !! d = Some D -> is_Some (patients H !! p) ->
  Doctor.sizeQ D < Doctor.capacity D ->
  exists H' D',
    enqueueRoutine p d (-1) H = (nextTokenId H, H') /\ Inv H' /\
    doctors H' = <[d := D']> (doctors H) /\
    queue D' = queue D ++ [Token.mk (nextTokenId H) p d (-1) ROUTINE] /\
    same_frame D D' /\ wf_doctor D' /\
    nextTokenId H' = nextTokenId H + 1 /\
    triageHeap H' = triageHeap H /\
    (forall k, is_Some (patients H !! k) -> is_Some (patients H' !! k)).
Proof.
  intros HI HD [P HP] Hlt.
  pose proof (Inv_enqueueRoutine p d (-1) H HI) as HI'.
  destruct HI as [Hn Hd Hl]. destruct (Hd d D HD) as (Hwf & _).
  revert HI'. unfold enqueueRoutine. rewrite HD, HP. simpl.
  destruct (enqueue_ok (Token.mk (nextTokenId H) p d (-1) ROUTINE) D Hwf Hlt)
    as (D' & He & Hwf' & Hq' & Hfr).
  unfold Doctor.isFull. rewrite (proj2 (Z.eqb_neq _ _)) by lia.
  rewrite He. simpl. intros HI'.
  eexists _, D'. split; [reflexivity|]. split; [exact HI'|]. simpl.
  do 6 (split; [done|]).
  intros k Hk. unfold bumpFreq. rewrite lookup_insert. by case_decide.
Qed.

Lemma book_queue_full p d D H :
  doctors H !! d = Some D -> Doctor.sizeQ D = Doctor.capacity D ->
  (enqueueRoutine p d (-1) H).1 = -1 /\
  doctors (enqueueRoutine p d (-1) H).2 = doctors H /\
  patients (enqueueRoutine p d (-1) H).2 = patients H /\
  triageHeap (enqueueRoutine p d (-1) H).2 = triageHeap H /\
  undoStack (enqueueRoutine p d (-1) H).2 = undoStack H /\
  servedCount (enqueueRoutine p d (-1) H).2 = servedCount H /\
  pendingCountTotal (enqueueRoutine p d (-1) H).2 = pendingCountTotal H.
Proof.
  intros HD Hfull. unfold enqueueRoutine. rewrite HD.
  destruct (patients H !! p); [|done]. simpl.
  unfold Doctor.isFull. rewrite (proj2 (Z.eqb_eq _ _) Hfull). done.
Qed.

Lemma serve_queue d D tk q H :
  Inv H -> triageHeap H = [] -> doctors H !! d = Some D -> queue D = tk :: q ->
  exists H' D',
    serveNext d H = (Some tk, H') /\ Inv H' /\ triageHeap H' = [] /\
    doctors H' = <[d := D']> (doctors H) /\ queue D' = q /\ same_frame D D'.
Proof.
  intros HI Hh HD Hq.
  pose proof (Inv_serveNext d H HI) as HI'.
  destruct HI as [Hn Hd Hl]. destruct (Hd d D HD) as (Hwf & _).
  revert HI'. unfold serveNext. rewrite Hh. simpl. rewrite HD.
  destruct (dequeue_ok D tk q Hwf Hq) as (D' & He & Hwf' & Hq' & Hfr).
  rewrite He. simpl. intros HI'.
  eexists _, D'. split; [reflexivity|]. split; [exact HI'|]. simpl. done.
Qed.

Lemma bookAll_spec ps d D H :
  Inv H -> doctors H !! d = Some D ->
  Forall (fun p => is_Some (patients H !! p)) ps ->
  Doctor.sizeQ D + Z.of_nat (length ps) <= Doctor.capacity D ->
  exists D1,
    (bookAll ps d H).1
      = Token.tokenId <$> issued (nextTokenId H) ps d /\
    Inv (bookAll ps d H).2 /\
    doctors (bookAll ps d H).2 !! d = Some D1 /\
    queue D1 = queue D ++ issued (nextTokenId H) ps d /\
    same_frame D D1 /\
    triageHeap (bookAll ps d H).2 = triageHeap H /\
    (forall k, is_Some (patients H !! k) -> is_Some (patients (bookAll ps d H).2 !! k)).
Proof.
  revert D H. induction ps as [|p ps IH]; intros D H HI HD Hreg Hcap; simpl.
  - exists D. rewrite app_nil_r. do 4 (split; [done|]).
    split; [apply same_frame_refl|]. done.
  - apply Forall_cons in Hreg as [Hp Hreg]. simpl in Hcap.
    destruct (book_queue_ok p d D H HI HD Hp ltac:(lia))
      as (H1 & D1 & He & HI1 & Hd1 & Hq1 & Hfr1 & Hwf1 & Hn1 & Hh1 & Hps1).
    rewrite He.
    assert (doctors H1 !! d = Some D1) as HD1 by (rewrite Hd1; apply lookup_insert_eq).
    assert (Doctor.sizeQ D1 + Z.of_nat (length ps) <= Doctor.capacity D1) as Hcap1.
    { destruct HI as [_ Hdocs _]. destruct (Hdocs d D HD) as (Hwf & _).
      rewrite (wf_sizeQ D1 Hwf1), Hq1, length_app. simpl.
      rewrite (wf_sizeQ D Hwf) in Hcap.
      destruct Hfr1 as (_ & _ & _ & _ & ->). lia. }
    destruct (IH D1 H1 HI1 HD1) as (D2 & Hids & HI2 & HD2 & Hq2 & Hfr2 & Hh2 & Hps2);
      [|done|].
    { eapply Forall_impl; [exact Hreg|]. intros k Hk. by apply Hps1. }
    destruct (bookAll ps d H1) as [rs H2] eqn:Hb. simpl in *.
    exists D2. rewrite Hids, Hn1. do 3 (split; [done|]).
    split; [by rewrite Hq2, Hq1, <- app_assoc, Hn1|].
    split; [by eapply same_frame_trans|].
    split; [congruence|].
    intros k Hk. by apply Hps2, Hps1.
Qed.

Lemma serveN_spec q1 q2 d D H :
  Inv H -> triageHeap H = [] -> doctors H !! d = Some D -> queue D = q1 ++ q2 ->
  (serveN (length q1) d H).1 = Some <$> q1 /\
  exists D', doctors (serveN (length q1) d H).2 !! d = Some D' /\ queue D' = q2.
Proof.
  revert D H. induction q1 as [|tk q1 IH]; intros D H HI Hh HD Hq; simpl.
  - split; [done|]. by exists D.
  - destruct (serve_queue d D tk (q1 ++ q2) H HI Hh HD Hq)
      as (H1 & D1 & Hs & HI1 & Hh1 & Hd1 & Hq1 & _).
    rewrite Hs.
    assert (doctors H1 !! d = Some D1) as HD1 by (rewrite Hd1; apply lookup_insert_eq).
    destruct (IH D1 H1 HI1 Hh1 HD1 Hq1) as (Hrs & D' & HD' & Hq').
    destruct (serveN (length q1) d H1) as [rs H2]. simpl in *.
    split; [by rewrite Hrs|]. by exists D'.
Qed.

(** C5. For a doctor of a reachable state whose routine queue has
    capacity C and holds the tokens [queue D]: as long as the capacity is
    not exceeded, slotless bookings for registered patients all succeed
    and return consecutive token ids; the tokens join the queue at the
    rear in booking order; with the triage collection empty, [serveNext]
    then returns the tokens of the queue front to rear, each once; and
    once the queue holds C tokens a further booking returns -1 and changes
    no doctor, nor the registry, triage collection, ledger or counters. *)
Theorem routine_queue_is_bounded_fifo H d D ps :
  reachable H -> doctors H !! d = Some D -> triageHeap H = [] ->
  Forall (fun p => is_Some (patients H !! p)) ps ->
  Z.of_nat (length (queue D) + length ps) <= Doctor.capacity D ->
  let tks := issued (nextTokenId H) ps d in
  let H1 := (bookAll ps d H).2 in
  (bookAll ps d H).1 = Token.tokenId <$> tks /\
  Forall (fun r => r <> -1) (bookAll ps d H).1 /\
  (view_queue <$> schedules H1 !! d) = Some (queue D ++ tks) /\
  (serveN (length (queue D ++ tks)) d H1).1 = Some <$> (queue D ++ tks) /\
  (view_queue <$> schedules (serveN (length (queue D ++ tks)) d H1).2 !! d) = Some [] /\
  (Z.of_nat (length (queue D ++ tks)) = Doctor.capacity D ->
   forall p,
     (enqueueRoutine p d (-1) H1).1 = -1 /\
     schedules (enqueueRoutine p d (-1) H1).2 = schedules H1 /\
     patients (enqueueRoutine p d (-1) H1).2 = patients H1 /\
     triageHeap (enqueueRoutine p d (-1) H1).2 = triageHeap H1 /\
     undoStack (enqueueRoutine p d (-1) H1).2 = undoStack H1 /\
     servedCount (enqueueRoutine p d (-1) H1).2 = servedCount H1 /\
     pendingCountTotal (enqueueRoutine p d (-1) H1).2 = pendingCountTotal H1).
Proof.
  intros Hr HD Hh Hreg Hcap tks H1.
  pose proof (reachable_Inv H Hr) as HI.
  pose proof HI as [Hn Hdocs _]. destruct (Hdocs d D HD) as (Hwf & _).
  destruct (bookAll_spec ps d D H HI HD Hreg) as (D1 & Hids & HI1 & HD1 & Hq1 & Hfr1 & Hh1 & _).
  { rewrite (wf_sizeQ D Hwf). lia. }
  fold H1 in Hids, HI1, HD1, Hh1. fold tks in Hids, Hq1.
  split; [done|]. split.
  { rewrite Hids. apply Forall_fmap, Forall_forall. intros tk Htk. simpl.
    assert (forall n l, tk ∈ issued n l d -> n <= Token.tokenId tk) as Hge.
    { clear. intros n l. revert n. induction l as [|p l IH]; intros n; simpl.
      - by intros ?%elem_of_nil.
      - intros [->|Hin]%elem_of_cons; [simpl; lia|]. specialize (IH _ Hin). lia. }
    specialize (Hge _ _ Htk). lia. }
  split.
  { unfold schedules. rewrite lookup_fmap, HD1. simpl. by rewrite Hq1. }
  destruct (serveN_spec (queue D ++ tks) [] d D1 H1 HI1) as (Hserved & D2 & HD2 & Hq2).
  { by rewrite Hh1. } { done. } { by rewrite app_nil_r. }
  split; [done|]. split.
  { unfold schedules. rewrite lookup_fmap, HD2. simpl. by rewrite Hq2. }
  intros Hfull p.
  assert (Doctor.sizeQ D1 = Doctor.capacity D1) as Hf1.
  { destruct HI1 as [_ Hdocs1 _]. destruct (Hdocs1 d D1 HD1) as (Hwf1 & _).
    rewrite (wf_sizeQ D1 Hwf1), Hq1. destruct Hfr1 as (_ & _ & _ & _ & ->). done. }
  destruct (book_queue_full p d D1 H1 HD1 Hf1) as (? & Hdd & ? & ? & ? & ? & ?).
  split; [done|]. split; [unfold schedules; by rewrite Hdd|]. done.
Qed.

Lemma routine_queue_is_bounded_fifo_witness :
  let tks := issued 1 [1; 2; 3; 1; 2] 2 in
  let H1 := (bookAll [1; 2; 3; 1; 2] 2 seeded).2 in
  (bookAll [1; 2; 3; 1; 2] 2 seeded).1 = Token.tokenId <$> tks /\
  Forall (fun r => r <> -1) (bookAll [1; 2; 3; 1; 2] 2 seeded).1 /\
  (view_queue <$> schedules H1 !! 2) = Some ([] ++ tks) /\
  (serveN (length ([] ++ tks)) 2 H1).1 = Some <$> ([] ++ tks) /\
  (view_queue <$> schedules (serveN (length ([] ++ tks)) 2 H1).2 !! 2) = Some [] /\
  (Z.of_nat (length ([] ++ tks)) = 5 ->
   forall p,
     (enqueueRoutine p 2 (-1) H1).1 = -1 /\
     schedules (enqueueRoutine p 2 (-1) H1).2 = schedules H1 /\
     patients (enqueueRoutine p 2 (-1) H1).2 = patients H1 /\
     triageHeap (enqueueRoutine p 2 (-1) H1).2 = triageHeap H1 /\
     undoStack (enqueueRoutine p 2 (-1) H1).2 = undoStack H1 /\
     servedCount (enqueueRoutine p 2 (-1) H1).2 = servedCount H1 /\
     pendingCountTotal (enqueueRoutine p 2 (-1) H1).2 = pendingCountTotal H1).
Proof.
  apply (routine_queue_is_bounded_fifo seeded 2
           (Doctor.insertSlot 201 "10:00" "10:15" (Doctor.new 2 "Dr_Mehta" "Cardio" 5))
           [1; 2; 3; 1; 2]).
  - apply after_reachable. vm_compute. eauto.
  - vm_compute. reflexivity.
  - reflexivity.
  - repeat constructor; vm_compute; eauto.
  - vm_compute. discriminate.
Defined.

(** The scenario of the specification: a doctor of capacity 2 takes two
    slotless bookings, refuses the third, and takes one more after one
    token is served. *)
Example capacity_two_scenario :
  let H0 := after (seedSampleData ++ [OpAddDoctor 4 "Dr_Sen" "Ortho" 2]) in
  let b1 := enqueueRoutine 1 4 (-1) H0 in
  let b2 := enqueueRoutine 2 4 (-1) b1.2 in
  let b3 := enqueueRoutine 3 4 (-1) b2.2 in
  let s1 := serveNext 4 b3.2 in
  let b4 := enqueueRoutine 3 4 (-1) s1.2 in
  b1.1 = 1 /\ b2.1 = 2 /\ b3.1 = -1 /\
  s1.1 = Some (Token.mk 1 1 4 (-1) ROUTINE) /\ b4.1 = 4.
Proof. vm_compute. repeat split; reflexivity. Qed.

End RoutineQueue.

(** ** Failure, success and the ledger *)

Section Atomicity.
Import HospitalSystem.
Implicit Types (H : HospitalSystem.t) (D : Doctor.t).

Lemma cancelSlot_found sid D slot :
  Doctor.findSlot sid D = Some slot ->
  forall tk tid, (Doctor.cancelSlot sid (Doctor.writeSlot sid tk tid D)).1 = true /\
                 (Doctor.cancelSlot sid D).1 = true.
Proof.
  unfold Doctor.findSlot, Doctor.cancelSlot, Doctor.writeSlot. intros Hf tk tid. simpl.
  rewrite unlink_write.
  destruct (proj1 (find_unlink sid (Doctor.slotHead D)) ltac:(eauto)) as [l' ->]. done.
Qed.

Lemma scheduleCancelSlot_fails d sid H :
  (scheduleCancelSlot d sid H).1 = false -> (scheduleCancelSlot d sid H).2 = H.
Proof.
  unfold scheduleCancelSlot.
  destruct (doctors H !! d) as [D|]; [|done].
  destruct (Doctor.findSlot sid D) as [slot|] eqn:Hf; [|done].
  destruct (cancelSlot_found sid D slot Hf false (-1)) as [H1 H2].
  destruct (SlotNode.taken slot).
  - destruct (Doctor.cancelSlot sid (Doctor.writeSlot sid false (-1) D)) as [r D2].
    simpl in *. congruence.
  - destruct (Doctor.cancelSlot sid D) as [r D2]. simpl in *. congruence.
Qed.

Lemma failed_undo H :
  Inv H -> (undoPop H).1 = false ->
  schedules (undoPop H).2 = schedules H /\
  patients (undoPop H).2 = patients H /\
  triageHeap (undoPop H).2 = triageHeap H /\
  servedCount (undoPop H).2 = servedCount H /\
  pendingCountTotal (undoPop H).2 = pendingCountTotal H /\
  nextTokenId (undoPop H).2 = nextTokenId H /\
  undoStack (undoPop H).2 = tail (undoStack H).
Proof.
  intros [Hn Hd Hl]. unfold undoPop.
  destruct (undoStack H) as [|act rest] eqn:Hu; [done|].
  destruct (Action.type act) eqn:Hty; simpl.
  - destruct (doctors H !! Action.doctorId act) as [D|] eqn:HD; [|done].
    destruct (Hd _ D HD) as (Hwf & _).
    destruct (negb (Token.slotId (Action.token act) =? -1)).
    + destruct (Doctor.findSlot _ D) as [slot|]; [|done].
      destruct (SlotNode.taken slot && _); [done|done].
    + destruct (drain_refill (Token.tokenId (Action.token act)) D Hwf)
        as (D1 & D2 & Hdr & HD2 & Hwf2 & Hq2 & Hfr).
      rewrite Hdr.
      destruct (dropFirst _ false (queue D)).1 eqn:Hrem; [done|]. simpl. intros _.
      apply dropFirst_false_id in Hrem as [Hkept _].
      rewrite Hkept in *. rewrite <- HD2.
      split; [|done]. unfold schedules. simpl.
      apply (schedules_insert_same _ _ D); [done|]. by apply view_eq.
  - destruct (doctors H !! Action.doctorId act) as [D|]; [|done].
    destruct (Doctor.findSlot _ D); done.
  - destruct (Token.type (Action.token act)); [|done].
    destruct (doctors H !! _); done.
  - done.
  - rewrite drainTriage_spec. simpl.
    destruct (dropFirst _ false (triageHeap H)).1 eqn:Hrem; [done|]. simpl. intros _.
    apply dropFirst_false_id in Hrem as [Hkept _]. rewrite Hkept.
    rewrite rebuild_sorted by apply Hl. done.
Qed.

Lemma failure_book p d sid H :
  1 <= nextTokenId H ->
  ((enqueueRoutine p d sid H).1 = -1 ->
   undoStack (enqueueRoutine p d sid H).2 = undoStack H) /\
  ((enqueueRoutine p d sid H).1 <> -1 ->
   exists a, undoStack (enqueueRoutine p d sid H).2 = a :: undoStack H /\
             Action.type a = BOOK).
Proof.
  intros Hn. unfold enqueueRoutine.
  destruct (doctors H !! d) as [D|]; [|done].
  destruct (patients H !! p) as [P|]; [|done].
  destruct (negb (sid =? -1)).
  - destruct (Doctor.findSlot sid D) as [slot|]; [|done].
    destruct (SlotNode.taken slot); [done|]. simpl.
    split; [intros ?; lia|intros _; by eexists].
  - destruct (Doctor.isFull D); [done|]. simpl.
    split; [intros ?; lia|intros _; by eexists].
Qed.

Lemma serveNext_outcome d H :
  match (serveNext d H).1 with
  | None => (serveNext d H).2 = H
  | Some _ =>
      pushed SERVE H (serveNext d H).2 /\
      pendingCountTotal (serveNext d H).2 = pendingCountTotal H - 1 /\
      servedCount (serveNext d H).2 = servedCount H + 1
  end.
Proof.
  unfold serveNext. destruct (triageHeap H) as [|e q]; simpl.
  - destruct (doctors H !! d) as [D|]; [|done].
    destruct (Doctor.dequeueRoutine D) as [[tk|] D1]; simpl.
    + split; [by eexists|done].
    + destruct (Doctor.vacateFirstTaken (Doctor.slotHead D)) as [[s l]|]; [|done].
      simpl. split; [by eexists|done].
  - destruct (negb (Token.patientId (TriagedToken.token e) =? -1)); simpl;
      (split; [by eexists|done]).
Qed.

End Atomicity.

(** ** The ledger as a stack and the slot fallback *)

Section LedgerClaims.
Import HospitalSystem.
Implicit Types (H : HospitalSystem.t) (D : Doctor.t).

(** C3, as stated, fails: with two tokens in the routine queue of doctor
    1, a serve followed by [undo] leaves the two tokens in the other
    order. *)
Lemma undo_inverts_counterexample :
  reachable (after (seedSampleData ++ [OpBook 1 1 (-1); OpBook 2 1 (-1)])) /\
  mutating (OpServe 1) /\
  ~ undo_inverts (OpServe 1) (after (seedSampleData ++ [OpBook 1 1 (-1); OpBook 2 1 (-1)])).
Proof.
  split; [apply after_reachable; vm_compute; eauto|]. split; [exact I|].
  intros Hinv.
  destruct (Hinv (serveNext 1 (after (seedSampleData ++ [OpBook 1 1 (-1); OpBook 2 1 (-1)]))).2)
    as [_ [_ _ Hsched _ _]].
  { vm_compute. reflexivity. }
  apply (f_equal (fun m => view_queue <$> m !! 1)) in Hsched.
  vm_compute in Hsched. discriminate.
Qed.

Lemma undo_inverts_amended_witness :
  undone_exactly (OpBook 1 1 101) seeded /\
  ((undone_exactly (OpBook 1 1 101) seeded ->
    (undoPop (enqueueRoutine 1 1 101 seeded).2).1 = true /\
    restored seeded (undoPop (enqueueRoutine 1 1 101 seeded).2).2) /\
   (forall d D, OpBook 1 1 101 = OpServe d -> triageHeap seeded = [] ->
      doctors seeded !! d = Some D -> Doctor.isEmpty D = false ->
      (undoPop (enqueueRoutine 1 1 101 seeded).2).1 = true /\
      rotated d seeded (undoPop (enqueueRoutine 1 1 101 seeded).2).2)).
Proof.
  split; [exact I|].
  apply (undo_inverts_amended (OpBook 1 1 101) seeded (enqueueRoutine 1 1 101 seeded).2).
  - apply after_reachable. vm_compute. eauto.
  - vm_compute. reflexivity.
Defined.

(** C6, as stated, fails: after slot 101 is booked, served through the
    slot list and the serve undone, the next [undo] reports failure (the
    slot is free) and yet the ledger has lost the record of the
    booking. *)
Lemma failure_changes_nothing_counterexample :
  reachable (after (seedSampleData ++ [OpBook 1 1 101; OpServe 1; OpUndo])) /\
  ~ failure_changes_nothing OpUndo
      (after (seedSampleData ++ [OpBook 1 1 101; OpServe 1; OpUndo])).
Proof.
  split; [apply after_reachable; vm_compute; eauto|].
  intros Hf.
  pose proof (Hf (undoPop (after (seedSampleData ++ [OpBook 1 1 101; OpServe 1; OpUndo]))).2
                ltac:(vm_compute; reflexivity)) as Ho.
  apply (f_equal (fun o => length (o.1.1.1.2))) in Ho.
  vm_compute in Ho. discriminate.
Qed.

(** C8, as stated, fails: in the same state [undo] reports failure, the
    booked token stays pending in the queue, and the record of the booking
    is gone from the ledger. *)
Lemma pops_only_reversed_counterexample :
  reachable (after (seedSampleData ++ [OpBook 1 1 101; OpServe 1; OpUndo])) /\
  ~ pops_only_reversed (after (seedSampleData ++ [OpBook 1 1 101; OpServe 1; OpUndo])).
Proof.
  split; [apply after_reachable; vm_compute; eauto|].
  intros Hp. unfold pops_only_reversed in Hp.
  assert ((undoPop (after (seedSampleData ++ [OpBook 1 1 101; OpServe 1; OpUndo]))).1 = true)
    as Habs.
  { apply Hp. intros Heq. apply (f_equal length) in Heq. vm_compute in Heq. discriminate. }
  vm_compute in Habs. discriminate.
Qed.

End LedgerClaims.

Section SlotFallback.
Import HospitalSystem.
Implicit Types (H : HospitalSystem.t) (D : Doctor.t).

(** C9, as stated, fails: the third doctor's queue holds one token.  With
    both slots booked, two serves go through the slot list; the first
    [undo] puts the second served token into the queue, and the [undo]
    that takes the record of the first serve finds the queue full and puts
    nothing into it. *)
Lemma slot_serve_requeued_counterexample :
  reachable (after smallClinic) /\
  reachable (after (smallClinic ++ [OpServe 3; OpServe 3; OpUndo])) /\
  ~ slot_serve_requeued 3 (after smallClinic)
      (after (smallClinic ++ [OpServe 3; OpServe 3; OpUndo])).
Proof.
  split; [apply after_reachable; vm_compute; eauto|].
  split; [apply after_reachable; vm_compute; eauto|].
  intros Hc.
  destruct (Hc ltac:(vm_compute; reflexivity)
               ltac:(eexists; split; vm_compute; reflexivity)
               (Token.mk 1 (-1) 3 301 ROUTINE) (serveNext 3 (after smallClinic)).2
               ltac:(vm_compute; reflexivity)) as (_ & _ & Hre).
  destruct Hre as (D2 & D3 & HD2 & HD3 & Hq); [vm_compute; reflexivity|].
  vm_compute in HD2, HD3. injection HD2 as <-. injection HD3 as <-.
  vm_compute in Hq. discriminate.
Qed.

(** C9, as the code has it.  A serve through the slot list (triage
    collection and routine queue empty) returns a routine token of the
    requested doctor with the token id and slot id of the first occupied
    slot and patient id -1, leaves the registry and so every visit
    frequency as it is, and pushes a Serve record holding that token.
    When [undo] takes that record in a reachable state where the doctor's
    queue is not full, it reports success and puts that token, patient id
    -1, at the rear of the queue, and leaves the registry as it is. *)
Theorem slot_serve_amended d H D tk H1 :
  triageHeap H = [] -> doctors H !! d = Some D -> Doctor.isEmpty D = true ->
  serveNext d H = (Some tk, H1) ->
  Token.patientId tk = -1 /\ Token.doctorId tk = d /\ Token.type tk = ROUTINE /\
  (exists s, s ∈ Doctor.slotHead D /\ SlotNode.taken s = true /\
             Token.tokenId tk = SlotNode.tokenId s /\
             Token.slotId tk = SlotNode.slotId s) /\
  patients H1 = patients H /\
  undoStack H1 = Action.set_token tk (Action.init SERVE) :: undoStack H /\
  forall H2 D2,
    reachable H2 -> undoStack H2 = undoStack H1 ->
    doctors H2 !! d = Some D2 -> Doctor.isFull D2 = false ->
    (undoPop H2).1 = true /\ requeued d tk H2 /\
    patients (undoPop H2).2 = patients H2.
Proof.
  intros Hh HD He. unfold serveNext. rewrite Hh. simpl. rewrite HD.
  unfold Doctor.dequeueRoutine. rewrite He.
  destruct (Doctor.vacateFirstTaken (Doctor.slotHead D)) as [[s l]|] eqn:Hv; [|done].
  intros [= <- <-]. simpl.
  apply vacate_Some in Hv as (Hin & Ht & _).
  do 3 (split; [done|]). split; [by exists s|]. do 2 (split; [done|]).
  intros H2 D2 Hr Hu HD2 Hfull. apply reachable_Inv in Hr as [_ Hdocs _].
  destruct (Hdocs d D2 HD2) as (Hwf & _).
  destruct (enqueue_cases (Token.mk (SlotNode.tokenId s) (-1) d (SlotNode.slotId s) ROUTINE)
              D2 Hwf) as [[Hf _]|[_ (D3 & Hen & _ & Hq3 & _)]]; [congruence|].
  unfold requeued, undoPop. rewrite Hu. simpl. rewrite HD2, Hen. simpl.
  split; [done|]. split; [|done].
  exists D2, D3. split; [done|]. split; [apply lookup_insert_eq|done].
Qed.

Lemma slot_serve_amended_witness :
  let H := after smallClinic in
  let tk := Token.mk 1 (-1) 3 301 ROUTINE in
  let H1 := (serveNext 3 H).2 in
  serveNext 3 H = (Some tk, H1) /\
  Token.patientId tk = -1 /\ Token.doctorId tk = 3 /\ Token.type tk = ROUTINE /\
  patients H1 = patients H /\
  undoStack H1 = Action.set_token tk (Action.init SERVE) :: undoStack H /\
  (undoPop H1).1 = true /\ requeued 3 tk H1 /\
  patients (undoPop H1).2 = patients H1.
Proof.
  intros H tk H1.
  assert (serveNext 3 H = (Some tk, H1)) as Hs by (vm_compute; reflexivity).
  split; [exact Hs|].
  destruct (slot_serve_amended 3 H
              (default (Doctor.new 0 "" "" 0) (doctors H !! 3)) tk H1)
    as (Hp & Hd & Hty & _ & Hps & Hu & Hundo).
  - vm_compute. reflexivity.
  - vm_compute. reflexivity.
  - vm_compute. reflexivity.
  - exact Hs.
  - do 5 (split; [assumption|]).
    apply (Hundo H1 (default (Doctor.new 0 "" "" 0) (doctors H1 !! 3))).
    + apply (run_reachable [OpServe 3] H).
      * apply after_reachable. vm_compute. eauto.
      * vm_compute. reflexivity.
    + reflexivity.
    + vm_compute. reflexivity.
    + vm_compute. reflexivity.
Defined.

End SlotFallback.

(** * Further properties of the code *)

(** ** The comparator of the triage queue *)

Section Comparator.
Implicit Types (a b c : TriagedToken.t).

(** X1. [operator>] is a strict order on triage entries, as the priority
    queue requires of its comparator: no entry is greater than itself,
    two entries are never each greater than the other, the relation is
    transitive, and of two entries that differ in severity or in token id
    one is greater than the other. *)
Theorem gt_strict_total_order :
  (forall a, TriagedToken.gt a a = false) /\
  (forall a b, TriagedToken.gt a b = true -> TriagedToken.gt b a = false) /\
  (forall a b c, TriagedToken.gt a b = true -> TriagedToken.gt b c = true ->
                 TriagedToken.gt a c = true) /\
  (forall a b, TriagedToken.severity a <> TriagedToken.severity b \/ entryId a <> entryId b ->
               TriagedToken.gt a b = true \/ TriagedToken.gt b a = true) /\
  (forall a b, TriagedToken.gt a b = false -> TriagedToken.gt b a = false ->
               TriagedToken.severity a = TriagedToken.severity b /\ entryId a = entryId b).
Proof.
  split; [|split; [|split; [|split]]].
  - intros a. apply not_true_iff_false. rewrite gt_spec. lia.
  - intros a b. rewrite <- not_true_iff_false, !gt_spec. lia.
  - intros a b c. rewrite !gt_spec. lia.
  - intros a b. rewrite !gt_spec. lia.
  - intros a b. rewrite <- !not_true_iff_false, !gt_spec. lia.
Qed.

End Comparator.

(** ** The buffer stays within its bounds *)

Section Bounds.
Import HospitalSystem.
Implicit Types (H : HospitalSystem.t) (D : Doctor.t).

Lemma wf_indices D :
  wf_doctor D ->
  (Doctor.isFull D = false ->
   Doctor.capacity D <> 0 /\
   0 <= Z.rem (Doctor.rearIdx D + 1) (Doctor.capacity D) < Doctor.capacity D) /\
  (Doctor.isEmpty D = false ->
   Doctor.capacity D <> 0 /\ 0 <= Doctor.frontIdx D < Doctor.capacity D).
Proof.
  intros (Hc & Hl & Hs & Hpos). unfold Doctor.isFull, Doctor.isEmpty. split.
  - intros Hf%Z.eqb_neq. split; [lia|].
    destruct Hpos as [(Hz & _ & Hr)|(Hz & Hf' & Hr)].
    + rewrite Hr. simpl. rewrite Z.rem_0_l by lia. lia.
    + pose proof (Z.mod_pos_bound (Doctor.frontIdx D + Doctor.sizeQ D - 1)
                    (Doctor.capacity D) ltac:(lia)) as Hb.
      rewrite Z.rem_mod_nonneg by lia.
      apply Z.mod_pos_bound. lia.
  - intros He%Z.eqb_neq. destruct Hpos as [(Hz & _)|(Hz & Hf' & _)]; lia.
Qed.

(** X2. In every reachable state the circular buffer of every doctor is
    used within its bounds: the vector has [capacity] cells, the pending
    count is the number of queued tokens and lies between 0 and the
    capacity; when the queue is not full the capacity is not zero (no
    division by zero in [% capacity]) and the cell [enqueueRoutine] writes
    is a cell of the vector; when it is not empty the cell [dequeueRoutine]
    and [peekRoutine] read is a cell of the vector. *)
Theorem buffer_within_bounds H d D :
  reachable H -> doctors H !! d = Some D ->
  length (Doctor.circBuffer D) = Z.to_nat (Doctor.capacity D) /\
  0 <= Doctor.pendingCount D <= Doctor.capacity D /\
  Doctor.pendingCount D = Z.of_nat (length (queue D)) /\
  (Doctor.isFull D = false ->
   Doctor.capacity D <> 0 /\
   (Z.to_nat (Z.rem (Doctor.rearIdx D + 1) (Doctor.capacity D))
    < length (Doctor.circBuffer D))%nat /\
   0 <= Z.rem (Doctor.rearIdx D + 1) (Doctor.capacity D)) /\
  (Doctor.isEmpty D = false ->
   Doctor.capacity D <> 0 /\
   (Z.to_nat (Doctor.frontIdx D) < length (Doctor.circBuffer D))%nat /\
   0 <= Doctor.frontIdx D).
Proof.
  intros Hr HD. apply reachable_Inv in Hr as [_ Hdocs _].
  destruct (Hdocs d D HD) as (Hwf & _).
  pose proof (wf_indices D Hwf) as [Hfull Hempty].
  pose proof (wf_sizeQ D Hwf) as Hsz.
  destruct Hwf as (Hc & Hl & Hs & _).
  split; [done|]. split; [done|]. split; [done|]. split.
  - intros Hf. destruct (Hfull Hf) as [? ?]. rewrite Hl. split; [done|]. lia.
  - intros He. destruct (Hempty He) as [? ?]. rewrite Hl. split; [done|]. lia.
Qed.

Lemma buffer_within_bounds_witness :
  let D := Doctor.insertSlot 201 "10:00" "10:15" (Doctor.new 2 "Dr_Mehta" "Cardio" 5) in
  length (Doctor.circBuffer D) = Z.to_nat (Doctor.capacity D) /\
  0 <= Doctor.pendingCount D <= Doctor.capacity D /\
  Doctor.pendingCount D = Z.of_nat (length (queue D)) /\
  (Doctor.isFull D = false ->
   Doctor.capacity D <> 0 /\
   (Z.to_nat (Z.rem (Doctor.rearIdx D + 1) (Doctor.capacity D))
    < length (Doctor.circBuffer D))%nat /\
   0 <= Z.rem (Doctor.rearIdx D + 1) (Doctor.capacity D)) /\
  (Doctor.isEmpty D = false ->
   Doctor.capacity D <> 0 /\
   (Z.to_nat (Doctor.frontIdx D) < length (Doctor.circBuffer D))%nat /\
   0 <= Doctor.frontIdx D).
Proof.
  apply (buffer_within_bounds seeded 2).
  - apply after_reachable. vm_compute. eauto.
  - vm_compute. reflexivity.
Defined.

(** X3. On a well-formed buffer [peekRoutine] returns the token at the
    front of the queue, which is the token [dequeueRoutine] would return,
    and nothing when the queue is empty. *)
Theorem peek_is_front D :
  wf_doctor D ->
  Doctor.peekRoutine D = head (queue D) /\
  Doctor.peekRoutine D = (Doctor.dequeueRoutine D).1.
Proof.
  intros Hwf. destruct (dequeue_cases D Hwf)
    as [[Hnil He]|(tk & q & D' & Hq & He & _)].
  - rewrite He, Hnil. simpl. unfold Doctor.peekRoutine, Doctor.isEmpty.
    rewrite (wf_sizeQ D Hwf), Hnil. done.
  - rewrite He, Hq. simpl.
    revert He. unfold Doctor.peekRoutine, Doctor.dequeueRoutine.
    destruct (Doctor.isEmpty D); [done|].
    destruct (Doctor.sizeQ D - 1 =? 0); by intros [= -> _].
Qed.

Lemma peek_is_front_witness :
  let D := (Doctor.enqueueRoutine (Token.mk 7 1 2 (-1) ROUTINE)
              (Doctor.new 2 "Dr_Mehta" "Cardio" 5)).2 in
  Doctor.peekRoutine D = head (queue D) /\
  Doctor.peekRoutine D = (Doctor.dequeueRoutine D).1.
Proof.
  apply peek_is_front.
  destruct (enqueue_ok (Token.mk 7 1 2 (-1) ROUTINE) (Doctor.new 2 "Dr_Mehta" "Cardio" 5))
    as (D' & He & Hwf & _).
  - apply wf_new. lia.
  - simpl. lia.
  - rewrite He. exact Hwf.
Defined.

End Bounds.

(** ** The slot list of a doctor *)

Section SlotList.
Import HospitalSystem.
Implicit Types (H : HospitalSystem.t) (D : Doctor.t) (l : list SlotNode.t).

Lemma find_app sid l1 l2 :
  Doctor.find sid (l1 ++ l2)
  = match Doctor.find sid l1 with
    | Some s => Some s
    | None => Doctor.find sid l2
    end.
Proof.
  induction l1 as [|c l1 IH]; simpl; [done|].
  by destruct (SlotNode.slotId c =? sid).
Qed.

(** X4. A slot appended by [insertSlot] is found by its identifier unless
    an older slot carries the same identifier, which then keeps being
    found; lookups of other identifiers, the number of older slots and the
    routine queue are unaffected, and the new slot is free. *)
Theorem insertSlot_then_findSlot sid s e sid' D :
  Doctor.findSlot sid' (Doctor.insertSlot sid s e D)
  = match Doctor.findSlot sid' D with
    | Some old => Some old
    | None => if sid =? sid' then Some (SlotNode.mk sid s e false (-1)) else None
    end /\
  length (Doctor.slotHead (Doctor.insertSlot sid s e D))
  = S (length (Doctor.slotHead D)) /\
  queue (Doctor.insertSlot sid s e D) = queue D /\
  Doctor.nextFreeSlot (Doctor.insertSlot sid s e D)
  = match Doctor.nextFreeSlot D with
    | Some f => Some f
    | None => Some (SlotNode.mk sid s e false (-1))
    end.
Proof.
  unfold Doctor.findSlot, Doctor.insertSlot, Doctor.nextFreeSlot. simpl.
  split; [|split; [|split]].
  - rewrite find_app. simpl. by destruct (Doctor.find sid' (Doctor.slotHead D)).
  - rewrite length_app. simpl. lia.
  - done.
  - induction (Doctor.slotHead D) as [|c l IH]; simpl; [done|].
    by destruct (SlotNode.taken c).
Qed.

Lemma unlink_split sid l s :
  Doctor.find sid l = Some s ->
  exists l1 l2, l = l1 ++ s :: l2 /\
    Forall (fun x => SlotNode.slotId x <> sid) l1 /\
    Doctor.unlink sid l = Some (l1 ++ l2).
Proof.
  induction l as [|c l IH]; simpl; [done|].
  destruct (SlotNode.slotId c =? sid) eqn:E.
  - intros [= ->]. by exists [], l.
  - intros Hf. destruct (IH Hf) as (l1 & l2 & -> & Hall & ->).
    exists (c :: l1), l2. split; [done|]. split; [|done].
    constructor; [by apply Z.eqb_neq|done].
Qed.

Lemma find_skip sid l1 l2 :
  Forall (fun x => SlotNode.slotId x <> sid) l1 ->
  Doctor.find sid (l1 ++ l2) = Doctor.find sid l2.
Proof.
  induction 1 as [|c l1 Hc _ IH]; simpl; [done|].
  by rewrite (proj2 (Z.eqb_neq _ _) Hc).
Qed.

(** X5. [cancelSlot] reports failure, and changes nothing, exactly when no
    slot has the identifier.  Otherwise it unlinks the first slot with
    that identifier and nothing else: the slots before and after it keep
    their order, lookups of every other identifier give what they gave,
    and the routine queue is untouched. *)
Theorem cancelSlot_unlinks_first sid D :
  match Doctor.findSlot sid D with
  | None => Doctor.cancelSlot sid D = (false, D)
  | Some s =>
      exists l1 l2,
        Doctor.slotHead D = l1 ++ s :: l2 /\
        Forall (fun x => SlotNode.slotId x <> sid) l1 /\
        Doctor.cancelSlot sid D = (true, Doctor.set_slotHead (l1 ++ l2) D) /\
        queue (Doctor.cancelSlot sid D).2 = queue D /\
        forall sid', sid' <> sid ->
          Doctor.findSlot sid' (Doctor.cancelSlot sid D).2 = Doctor.findSlot sid' D
  end.
Proof.
  unfold Doctor.findSlot, Doctor.cancelSlot.
  destruct (Doctor.find sid (Doctor.slotHead D)) as [s|] eqn:Hf.
  - destruct (unlink_split sid _ s Hf) as (l1 & l2 & Hl & Hall & Hu).
    exists l1, l2. rewrite Hu. simpl. do 4 (split; [done|]).
    intros sid' Hne. rewrite Hl, !find_app. simpl.
    destruct (Doctor.find sid' l1); [done|].
    destruct (find_Some _ _ _ Hf) as [_ Hid].
    rewrite (proj2 (Z.eqb_neq _ _)); [done|]. lia.
  - destruct (Doctor.unlink sid (Doctor.slotHead D)) as [l'|] eqn:Hu; [|done].
    assert (is_Some (Doctor.find sid (Doctor.slotHead D))) as [? ?]
      by (apply find_unlink; eauto).
    congruence.
Qed.

Lemma firstFree_split l :
  match Doctor.firstFree l with
  | Some s => exists l1 l2, l = l1 ++ s :: l2 /\
                Forall (fun x => SlotNode.taken x = true) l1 /\ SlotNode.taken s = false
  | None => Forall (fun x => SlotNode.taken x = true) l
  end.
Proof.
  induction l as [|c l IH]; simpl; [constructor|].
  destruct (SlotNode.taken c) eqn:E; simpl.
  - destruct (Doctor.firstFree l) as [s|].
    + destruct IH as (l1 & l2 & -> & Hall & Hs). exists (c :: l1), l2.
      split; [done|]. split; [by constructor|done].
    + by constructor.
  - by exists [], l.
Qed.

Lemma vacate_split l :
  match Doctor.vacateFirstTaken l with
  | Some (s, l') =>
      exists l1 l2, l = l1 ++ s :: l2 /\
        Forall (fun x => SlotNode.taken x = false) l1 /\ SlotNode.taken s = true /\
        l' = l1 ++ SlotNode.occupy false (-1) s :: l2
  | None => Forall (fun x => SlotNode.taken x = false) l
  end.
Proof.
  induction l as [|c l IH]; simpl; [constructor|].
  destruct (SlotNode.taken c) eqn:E.
  - by exists [], l.
  - destruct (Doctor.vacateFirstTaken l) as [[s l']|].
    + destruct IH as (l1 & l2 & -> & Hall & Hs & ->). exists (c :: l1), l2.
      split; [done|]. split; [by constructor|done].
    + by constructor.
Qed.

(** X6. With the triage collection and the doctor's routine queue empty,
    [serveNext] serves the first occupied slot in list order: every slot
    before it is free, the returned token carries that slot's token id and
    slot id, and only that slot is vacated.  It reports failure, changing
    nothing, exactly when every slot of the doctor is free. *)
Theorem slot_fallback_takes_first_occupied d D H :
  triageHeap H = [] -> doctors H !! d = Some D -> Doctor.isEmpty D = true ->
  match (serveNext d H).1 with
  | Some tk =>
      exists l1 s l2,
        Doctor.slotHead D = l1 ++ s :: l2 /\
        Forall (fun x => SlotNode.taken x = false) l1 /\ SlotNode.taken s = true /\
        tk = Token.mk (SlotNode.tokenId s) (-1) d (SlotNode.slotId s) ROUTINE /\
        doctors (serveNext d H).2
        = <[d := Doctor.set_slotHead (l1 ++ SlotNode.occupy false (-1) s :: l2) D]>
            (doctors H)
  | None =>
      Forall (fun x => SlotNode.taken x = false) (Doctor.slotHead D) /\
      (serveNext d H).2 = H
  end.
Proof.
  intros Hh HD He. unfold serveNext. rewrite Hh. simpl. rewrite HD.
  unfold Doctor.dequeueRoutine. rewrite He.
  pose proof (vacate_split (Doctor.slotHead D)) as Hv.
  destruct (Doctor.vacateFirstTaken (Doctor.slotHead D)) as [[s l']|]; simpl.
  - destruct Hv as (l1 & l2 & Hl & Hall & Hs & ->). by exists l1, s, l2.
  - done.
Qed.

Lemma slot_fallback_takes_first_occupied_witness :
  let H := after smallClinic in
  let D := default (Doctor.new 0 "" "" 0) (doctors H !! 3) in
  triageHeap H = [] /\ doctors H !! 3 = Some D /\ Doctor.isEmpty D = true /\
  match (serveNext 3 H).1 with
  | Some tk =>
      exists l1 s l2,
        Doctor.slotHead D = l1 ++ s :: l2 /\
        Forall (fun x => SlotNode.taken x = false) l1 /\ SlotNode.taken s = true /\
        tk = Token.mk (SlotNode.tokenId s) (-1) 3 (SlotNode.slotId s) ROUTINE /\
        doctors (serveNext 3 H).2
        = <[3 := Doctor.set_slotHead (l1 ++ SlotNode.occupy false (-1) s :: l2) D]>
            (doctors H)
  | None =>
      Forall (fun x => SlotNode.taken x = false) (Doctor.slotHead D) /\
      (serveNext 3 H).2 = H
  end.
Proof.
  intros H D.
  assert (triageHeap H = []) as Hh by (vm_compute; reflexivity).
  assert (doctors H !! 3 = Some D) as HD by (vm_compute; reflexivity).
  assert (Doctor.isEmpty D = true) as He by (vm_compute; reflexivity).
  split; [exact Hh|]. split; [exact HD|]. split; [exact He|].
  exact (slot_fallback_takes_first_occupied 3 D H Hh HD He).
Defined.

End SlotList.

(** ** Doctors and reports *)

Section DoctorsPersist.
Import HospitalSystem.
Implicit Types (H : HospitalSystem.t) (D : Doctor.t) (m : gmap Z Doctor.t).

Lemma same_identity_refl D : same_identity D D.
Proof. by repeat split. Qed.

Lemma same_identity_trans D1 D2 D3 :
  same_identity D1 D2 -> same_identity D2 D3 -> same_identity D1 D3.
Proof. intros (?&?&?&?) (?&?&?&?). repeat split; congruence. Qed.

Lemma enqueue_identity tk D : same_identity D (Doctor.enqueueRoutine tk D).2.
Proof.
  unfold Doctor.enqueueRoutine. destruct (Doctor.isFull D); by repeat split.
Qed.

Lemma dequeue_identity D : same_identity D (Doctor.dequeueRoutine D).2.
Proof.
  unfold Doctor.dequeueRoutine. destruct (Doctor.isEmpty D); [by repeat split|].
  destruct (Doctor.sizeQ D - 1 =? 0); by repeat split.
Qed.

Lemma drainRoutine_identity n remId D removed tmp :
  same_identity D (drainRoutine n remId D removed tmp).1.1.
Proof.
  revert D removed tmp. induction n as [|n IH]; intros D removed tmp; simpl.
  - apply same_identity_refl.
  - pose proof (dequeue_identity D) as Hd.
    destruct (Doctor.dequeueRoutine D) as [[ot|] D1]; simpl in *.
    + destruct (negb removed && (Token.tokenId ot =? remId));
        (eapply same_identity_trans; [exact Hd|apply IH]).
    + apply same_identity_refl.
Qed.

Lemma refill_identity tmp D : same_identity D (refill tmp D).
Proof.
  revert D. induction tmp as [|tk tmp IH]; intros D; simpl.
  - apply same_identity_refl.
  - eapply same_identity_trans; [apply (enqueue_identity tk)|apply IH].
Qed.

Lemma keeps_refl m : keeps m m.
Proof. intros d. destruct (m !! d); [apply same_identity_refl|done]. Qed.

Lemma keeps_trans m1 m2 m3 : keeps m1 m2 -> keeps m2 m3 -> keeps m1 m3.
Proof.
  intros H12 H23 d. specialize (H12 d). specialize (H23 d).
  destruct (m1 !! d), (m2 !! d), (m3 !! d); try done.
  - by eapply same_identity_trans.
  - destruct H23 as (Hid & _). congruence.
Qed.

Lemma keeps_insert m d0 D0 D0' :
  m !! d0 = Some D0 -> same_identity D0 D0' -> keeps m (<[d0 := D0']> m).
Proof.
  intros H0 Hid d. rewrite lookup_insert. case_decide as E.
  - subst. by rewrite H0.
  - destruct (m !! d); [apply same_identity_refl|done].
Qed.

Lemma keeps_insert_new m d0 X :
  m !! d0 = None -> Doctor.id X = d0 -> keeps m (<[d0 := X]> m).
Proof.
  intros H0 Hid d. rewrite lookup_insert. case_decide as E.
  - subst. by rewrite H0.
  - destruct (m !! d); [apply same_identity_refl|done].
Qed.

Lemma exec_keeps op H r H' : exec op H = Some (r, H') -> keeps (doctors H) (doctors H').
Proof.
  destruct op; unfold exec.
  - unfold addDoctor. destruct (doctors H !! docId) eqn:HD.
    + intros [= _ <-]. apply keeps_refl.
    + destruct (queueCap <? 0); [done|]. intros [= _ <-]. by apply keeps_insert_new.
  - unfold scheduleAddSlot. destruct (doctors H !! doctorId) as [D|] eqn:HD;
      intros [= _ <-]; [|apply keeps_refl].
    apply (keeps_insert _ _ D); [done|by repeat split].
  - unfold scheduleCancelSlot. destruct (doctors H !! doctorId) as [D|] eqn:HD;
      [|intros [= _ <-]; apply keeps_refl].
    destruct (Doctor.findSlot slotId D) as [slot|]; [|intros [= _ <-]; apply keeps_refl].
    destruct (SlotNode.taken slot).
    + unfold Doctor.cancelSlot.
      destruct (Doctor.unlink slotId _); intros [= _ <-]; simpl;
        (apply (keeps_insert _ _ D); [done|by repeat split]).
    + unfold Doctor.cancelSlot.
      destruct (Doctor.unlink slotId _); intros [= _ <-]; simpl;
        (apply (keeps_insert _ _ D); [done|by repeat split]).
  - intros [= _ <-]. apply keeps_refl.
  - destruct (enqueueRoutine patientId doctorId slotId H) as [res H1] eqn:He.
    intros [= _ <-]. revert He. unfold enqueueRoutine.
    destruct (doctors H !! doctorId) as [D|] eqn:HD; [|intros [= _ <-]; apply keeps_refl].
    destruct (patients H !! patientId); [|intros [= _ <-]; apply keeps_refl].
    destruct (negb (slotId =? -1)).
    + destruct (Doctor.findSlot slotId D) as [slot|]; [|intros [= _ <-]; apply keeps_refl].
      destruct (SlotNode.taken slot); intros [= _ <-]; [apply keeps_refl|]. simpl.
      apply (keeps_insert _ _ D); [done|by repeat split].
    + destruct (Doctor.isFull D); intros [= _ <-]; [apply keeps_refl|]. simpl.
      apply (keeps_insert _ _ D); [done|apply enqueue_identity].
  - unfold triageInsert. destruct (patients H !! patientId); intros [= _ <-]; apply keeps_refl.
  - destruct (serveNext doctorId H) as [res H1] eqn:He.
    intros [= _ <-]. revert He. unfold serveNext.
    destruct (PriorityQueue.top (triageHeap H)) as [e|].
    + destruct (negb _); intros [= _ <-]; apply keeps_refl.
    + destruct (doctors H !! doctorId) as [D|] eqn:HD; [|intros [= _ <-]; apply keeps_refl].
      pose proof (dequeue_identity D) as Hd.
      destruct (Doctor.dequeueRoutine D) as [[tk|] D1]; simpl in Hd.
      * intros [= _ <-]. simpl. by apply (keeps_insert _ _ D).
      * destruct (Doctor.vacateFirstTaken _) as [[s l]|]; intros [= _ <-];
          [|apply keeps_refl]. simpl.
        apply (keeps_insert _ _ D); [done|by repeat split].
  - intros [= Heq]. apply (f_equal snd) in Heq. simpl in Heq. subst H'.
    unfold undoPop. destruct (undoStack H) as [|act rest]; [apply keeps_refl|].
    destruct (Action.type act); simpl.
    + destruct (doctors H !! Action.doctorId act) as [D|] eqn:HD; [|apply keeps_refl].
      destruct (negb (Token.slotId (Action.token act) =? -1)).
      * destruct (Doctor.findSlot _ D) as [slot|]; [|apply keeps_refl].
        destruct (SlotNode.taken slot && _); [|apply keeps_refl]. simpl.
        apply (keeps_insert _ _ D); [done|by repeat split].
      * pose proof (drainRoutine_identity (Z.to_nat (Doctor.sizeQ D))
                      (Token.tokenId (Action.token act)) D false []) as Hd.
        destruct (drainRoutine _ _ D false []) as [[D1 removed] tmp]. simpl in Hd.
        assert (same_identity D (refill tmp D1)) as Hid
          by (eapply same_identity_trans; [exact Hd|apply refill_identity]).
        destruct removed; simpl; by apply (keeps_insert _ _ D).
    + destruct (doctors H !! Action.doctorId act) as [D|] eqn:HD; [|apply keeps_refl].
      destruct (Doctor.findSlot _ D); [|apply keeps_refl]. simpl.
      apply (keeps_insert _ _ D); [done|by repeat split].
    + destruct (Token.type (Action.token act)); [|apply keeps_refl].
      destruct (doctors H !! _) as [D|] eqn:HD; [|apply keeps_refl]. simpl.
      apply (keeps_insert _ _ D); [done|apply enqueue_identity].
    + destruct (Action.patientExistedBefore act); apply keeps_refl.
    + destruct (drainTriage _ _ false []) as [removed all].
      destruct removed; apply keeps_refl.
Qed.

Lemma run_keeps ops H H' : run ops H = Some H' -> keeps (doctors H) (doctors H').
Proof.
  revert H. induction ops as [|op ops IH]; intros H; simpl.
  - intros [= <-]. apply keeps_refl.
  - destruct (exec op H) as [[r H1]|] eqn:E; [|done]. intros Hrun.
    eapply keeps_trans; [by eapply exec_keeps|by apply IH].
Qed.

Lemma reachable_doctor_id H d D :
  reachable H -> doctors H !! d = Some D -> Doctor.id D = d.
Proof.
  intros Hr. revert d D. induction Hr as [|op H r H' Hr IH Hex]; intros d D HD.
  - done.
  - pose proof (exec_keeps op H r H' Hex d) as Hk. rewrite HD in Hk.
    destruct (doctors H !! d) as [D0|] eqn:HD0; [|done].
    destruct Hk as (Hid & _). rewrite Hid. by apply IH.
Qed.

(** X7. Doctors are never removed and never renamed: whatever calls
    follow, a doctor of a reachable state is still filed under the same
    id, with the same id, name, specialization and capacity of the routine
    queue; and every doctor is filed under its own id. *)
Theorem doctors_persist ops H H' d D :
  reachable H -> run ops H = Some H' -> doctors H !! d = Some D ->
  Doctor.id D = d /\
  exists D', doctors H' !! d = Some D' /\ same_identity D D'.
Proof.
  intros Hr Hrun HD. split; [by eapply reachable_doctor_id|].
  pose proof (run_keeps ops H H' Hrun d) as Hk. rewrite HD in Hk.
  destruct (doctors H' !! d) as [D'|]; [|done]. by exists D'.
Qed.

Lemma doctors_persist_witness :
  let D := Doctor.insertSlot 201 "10:00" "10:15" (Doctor.new 2 "Dr_Mehta" "Cardio" 5) in
  let H' := after (seedSampleData ++ [OpBook 1 2 (-1); OpBook 2 2 201; OpServe 2; OpUndo]) in
  Doctor.id D = 2 /\
  exists D', doctors H' !! 2 = Some D' /\ same_identity D D'.
Proof.
  apply (doctors_persist [OpBook 1 2 (-1); OpBook 2 2 201; OpServe 2; OpUndo] seeded).
  - apply after_reachable. vm_compute. eauto.
  - vm_compute. reflexivity.
  - vm_compute. reflexivity.
Defined.

(** X8. For a doctor of a reachable state [perDoctorReport] shows the
    doctor's own id, as pending routine count the number of tokens in the
    routine queue (between 0 and the capacity), and as next free slot the
    first slot in list order that is not taken, or none exactly when every
    slot is taken; for any other id it reports that the doctor is not
    found. *)
Theorem perDoctorReport_shows H d :
  reachable H ->
  match perDoctorReport d H with
  | None => doctors H !! d = None
  | Some (nm, i, sp, cnt, nf) =>
      exists D, doctors H !! d = Some D /\
        nm = Doctor.name D /\ i = d /\ sp = Doctor.specialization D /\
        cnt = Z.of_nat (length (queue D)) /\ 0 <= cnt <= Doctor.capacity D /\
        match nf with
        | Some s =>
            exists l1 l2, Doctor.slotHead D = l1 ++ s :: l2 /\
              Forall (fun x => SlotNode.taken x = true) l1 /\ SlotNode.taken s = false
        | None => Forall (fun x => SlotNode.taken x = true) (Doctor.slotHead D)
        end
  end.
Proof.
  intros Hr. unfold perDoctorReport.
  destruct (doctors H !! d) as [D|] eqn:HD; [|done].
  exists D. split; [done|]. split; [done|].
  split; [by eapply reachable_doctor_id|]. split; [done|].
  pose proof (reachable_Inv H Hr) as [_ Hdocs _].
  destruct (Hdocs d D HD) as (Hwf & _).
  split; [apply (wf_sizeQ D Hwf)|]. split; [apply Hwf|].
  apply firstFree_split.
Qed.

Lemma perDoctorReport_shows_witness :
  match perDoctorReport 1 seeded with
  | None => doctors seeded !! 1 = None
  | Some (nm, i, sp, cnt, nf) =>
      exists D, doctors seeded !! 1 = Some D /\
        nm = Doctor.name D /\ i = 1 /\ sp = Doctor.specialization D /\
        cnt = Z.of_nat (length (queue D)) /\ 0 <= cnt <= Doctor.capacity D /\
        match nf with
        | Some s =>
            exists l1 l2, Doctor.slotHead D = l1 ++ s :: l2 /\
              Forall (fun x => SlotNode.taken x = true) l1 /\ SlotNode.taken s = false
        | None => Forall (fun x => SlotNode.taken x = true) (Doctor.slotHead D)
        end
  end.
Proof.
  apply (perDoctorReport_shows seeded 1).
  apply after_reachable. vm_compute. eauto.
Defined.

End DoctorsPersist.

(** ** Round trips and refusals *)

Section RoundTrips.
Import HospitalSystem.
Implicit Types (H : HospitalSystem.t) (D : Doctor.t).

Lemma set_doctors_id H : set_doctors (doctors H) H = H.
Proof. by destruct H. Qed.

Lemma unlink_snoc_fresh sid l x :
  Doctor.find sid l = None -> SlotNode.slotId x = sid ->
  Doctor.unlink sid (l ++ [x]) = Some l.
Proof.
  intros Hf Hx. induction l as [|c l IH]; simpl in *.
  - by rewrite Hx, Z.eqb_refl.
  - destruct (SlotNode.slotId c =? sid); [done|]. by rewrite IH.
Qed.

Lemma unlink_snoc_old sid l x s :
  Doctor.find sid l = Some s ->
  exists l', Doctor.unlink sid l = Some l' /\ Doctor.unlink sid (l ++ [x]) = Some (l' ++ [x]).
Proof.
  induction l as [|c l IH]; simpl; [done|].
  destruct (SlotNode.slotId c =? sid); [intros _; by exists l|].
  intros Hf. destruct (IH Hf) as (l' & -> & ->). by exists (c :: l').
Qed.

(** X9. Adding a slot under an identifier the doctor does not use yet and
    cancelling that identifier again gives back exactly the state before,
    with no ledger record.  When the identifier is already in use,
    cancelling it after the addition removes the older slot and keeps the
    one just added. *)
Theorem addSlot_then_cancelSlot d D sid a b H :
  doctors H !! d = Some D ->
  match Doctor.findSlot sid D with
  | None =>
      scheduleCancelSlot d sid (scheduleAddSlot d sid a b H).2 = (true, H)
  | Some old =>
      exists l' H',
        Doctor.unlink sid (Doctor.slotHead D) = Some l' /\
        scheduleCancelSlot d sid (scheduleAddSlot d sid a b H).2 = (true, H') /\
        (Doctor.slotHead <$> doctors H' !! d) = Some (l' ++ [SlotNode.new sid a b])
  end.
Proof.
  intros HD. unfold scheduleAddSlot. rewrite HD. simpl.
  unfold scheduleCancelSlot. simpl. rewrite lookup_insert_eq.
  unfold Doctor.findSlot, Doctor.insertSlot. simpl. rewrite find_app. simpl.
  destruct (Doctor.find sid (Doctor.slotHead D)) as [old|] eqn:Hf.
  - destruct (unlink_snoc_old sid _ (SlotNode.new sid a b) old Hf) as (l' & Hu & Hu').
    exists l'. unfold Doctor.cancelSlot, Doctor.writeSlot.
    destruct (SlotNode.taken old); simpl.
    + rewrite unlink_write, Hu'. simpl. eexists. split; [done|]. split; [reflexivity|].
      simpl. by rewrite lookup_insert_eq.
    + rewrite Hu'. simpl. eexists. split; [done|]. split; [reflexivity|].
      simpl. by rewrite lookup_insert_eq.
  - rewrite Z.eqb_refl. simpl. unfold Doctor.cancelSlot. simpl.
    rewrite unlink_snoc_fresh by done. simpl.
    rewrite insert_insert_eq. f_equal.
    replace (Doctor.set_slotHead (Doctor.slotHead D)
               (Doctor.set_slotHead (Doctor.slotHead D ++ [SlotNode.new sid a b]) D))
      with D by (by destruct D).
    rewrite insert_id by done. by destruct H.
Qed.

Lemma addSlot_then_cancelSlot_witness :
  match Doctor.findSlot 999
          (Doctor.insertSlot 201 "10:00" "10:15" (Doctor.new 2 "Dr_Mehta" "Cardio" 5)) with
  | None =>
      scheduleCancelSlot 2 999 (scheduleAddSlot 2 999 "12:00" "12:15" seeded).2
      = (true, seeded)
  | Some old =>
      exists l' H',
        Doctor.unlink 999
          (Doctor.slotHead
             (Doctor.insertSlot 201 "10:00" "10:15" (Doctor.new 2 "Dr_Mehta" "Cardio" 5)))
        = Some l' /\
        scheduleCancelSlot 2 999 (scheduleAddSlot 2 999 "12:00" "12:15" seeded).2
        = (true, H') /\
        (Doctor.slotHead <$> doctors H' !! 2)
        = Some (l' ++ [SlotNode.new 999 "12:00" "12:15"])
  end.
Proof.
  apply (addSlot_then_cancelSlot 2
           (Doctor.insertSlot 201 "10:00" "10:15" (Doctor.new 2 "Dr_Mehta" "Cardio" 5))
           999 "12:00" "12:15" seeded).
  vm_compute. reflexivity.
Defined.

Lemma undo_upsert_exact p H : undoPop (patientUpsert p H) = (true, H).
Proof.
  unfold undoPop, patientUpsert. simpl.
  destruct (patients H !! Patient.id p) as [P|] eqn:HP; simpl.
  - rewrite insert_insert_eq, insert_id by done. by destruct H.
  - rewrite delete_insert_eq, delete_id by done. by destruct H.
Qed.

Lemma run_app l1 l2 H :
  run (l1 ++ l2) H = match run l1 H with Some H1 => run l2 H1 | None => None end.
Proof.
  revert H. induction l1 as [|op l1 IH]; intros H; simpl; [done|].
  destruct (exec op H) as [[r H1]|]; [apply IH|done].
Qed.

(** X10. Registrations and updates are undone exactly and in reverse
    order: after any sequence of patient upserts, as many calls of [undo]
    give back the very state before the first upsert.  Right after an
    upsert [patientGet] returns the record as given, visit frequency
    included, and the records of the other patients are as before. *)
Theorem upserts_then_undos ps H :
  run ((OpUpsert <$> ps) ++ replicate (length ps) OpUndo) H = Some H /\
  forall p, patientGet (Patient.id p) (patientUpsert p H) = Some p /\
            forall k, k <> Patient.id p ->
                      patientGet k (patientUpsert p H) = patientGet k H.
Proof.
  split.
  - revert H. induction ps as [|p ps IH]; intros H; [done|].
    change (length (p :: ps)) with (S (length ps)).
    rewrite replicate_S_end, app_assoc, fmap_cons. simpl.
    rewrite run_app, IH.
    change (run [OpUndo] (patientUpsert p H))
      with (let '(_, H') := undoPop (patientUpsert p H) in Some H').
    by rewrite undo_upsert_exact.
  - intros p. unfold patientGet, patientUpsert. simpl. split.
    + apply lookup_insert_eq.
    + intros k Hk. by apply lookup_insert_ne.
Qed.

(** X11. A booking is refused (-1) exactly when the doctor is unknown, or
    the patient is unknown, or a slot is named that the doctor does not
    have or that is taken, or no slot is named and the routine queue is
    full.  A refused booking leaves the state as it was, except that it
    has used up one token id when both the doctor and the patient were
    known. *)
Theorem booking_refusals p d sid H :
  1 <= nextTokenId H ->
  ((enqueueRoutine p d sid H).1 = -1 <->
   doctors H !! d = None \/ patients H !! p = None \/
   exists D, doctors H !! d = Some D /\
     if sid =? -1 then Doctor.isFull D = true
     else match Doctor.findSlot sid D with
          | None => True
          | Some s => SlotNode.taken s = true
          end) /\
  ((enqueueRoutine p d sid H).1 = -1 ->
   (enqueueRoutine p d sid H).2
   = if bool_decide (is_Some (doctors H !! d) /\ is_Some (patients H !! p))
     then set_nextTokenId (nextTokenId H + 1) H
     else H).
Proof.
  intros Hn. unfold enqueueRoutine.
  destruct (doctors H !! d) as [D|] eqn:HD; simpl.
  2:{ split; [split; [by left|done]|]. intros _.
      rewrite ?bool_decide_false by (by intros [[? ?] _]). done. }
  destruct (patients H !! p) as [P|] eqn:HP; simpl.
  2:{ split; [split; [by right; left|done]|]. intros _.
      rewrite ?bool_decide_false by (by intros [_ [? ?]]). done. }
  rewrite ?bool_decide_true by (split; eauto).
  destruct (sid =? -1) eqn:Esid; simpl.
  - destruct (Doctor.isFull D) eqn:Hf; simpl.
    + split; [|done]. split; [|done]. intros _. right. right. by exists D.
    + split; [|lia]. split; [lia|].
      intros [?|[?|(D' & [= <-] & ?)]]; congruence.
  - destruct (Doctor.findSlot sid D) as [s|] eqn:Hfs; simpl.
    + destruct (SlotNode.taken s) eqn:Ht; simpl.
      * split; [|done]. split; [|done]. intros _. right. right. exists D.
        by rewrite Hfs.
      * split; [|lia]. split; [lia|].
        intros [?|[?|(D' & [= <-] & Hs)]]; [congruence..|].
        rewrite Hfs in Hs. congruence.
    + split; [|done]. split; [|done]. intros _. right. right. exists D.
      by rewrite Hfs.
Qed.

Lemma booking_refusals_witness :
  ((enqueueRoutine 1 1 777 seeded).1 = -1 <->
   doctors seeded !! 1 = None \/ patients seeded !! 1 = None \/
   exists D, doctors seeded !! 1 = Some D /\
     if 777 =? -1 then Doctor.isFull D = true
     else match Doctor.findSlot 777 D with
          | None => True
          | Some s => SlotNode.taken s = true
          end) /\
  ((enqueueRoutine 1 1 777 seeded).1 = -1 ->
   (enqueueRoutine 1 1 777 seeded).2
   = if bool_decide (is_Some (doctors seeded !! 1) /\ is_Some (patients seeded !! 1))
     then set_nextTokenId (nextTokenId seeded + 1) seeded
     else seeded).
Proof.
  apply (booking_refusals 1 1 777 seeded). vm_compute. discriminate.
Defined.

(** X12. A slot is never booked twice: right after a booking of slot
    [sid] of doctor [d] has succeeded, a further booking of that slot, for
    any patient, is refused. *)
Theorem slot_not_booked_twice p p' d sid H :
  sid <> -1 ->
  (enqueueRoutine p d sid H).1 <> -1 ->
  (enqueueRoutine p' d sid (enqueueRoutine p d sid H).2).1 = -1.
Proof.
  intros Hsid. unfold enqueueRoutine at 1 3.
  destruct (doctors H !! d) as [D|] eqn:HD; [|done].
  destruct (patients H !! p) as [P|] eqn:HP; [|done].
  rewrite (proj2 (Z.eqb_neq _ _) Hsid). simpl.
  destruct (Doctor.findSlot sid D) as [s|] eqn:Hf; [|done].
  destruct (SlotNode.taken s); [done|]. simpl. intros _.
  unfold enqueueRoutine. simpl. rewrite lookup_insert_eq.
  destruct (bumpFreq p (patients H) !! p'); [|done].
  rewrite (proj2 (Z.eqb_neq _ _) Hsid). simpl.
  unfold Doctor.findSlot, Doctor.writeSlot in *. simpl.
  rewrite find_write, Hf. done.
Qed.

Lemma slot_not_booked_twice_witness :
  (enqueueRoutine 2 1 101 (enqueueRoutine 1 1 101 seeded).2).1 = -1.
Proof.
  apply (slot_not_booked_twice 1 2 1 101 seeded).
  - discriminate.
  - vm_compute. discriminate.
Defined.

(** X13. In a reachable state [serveNext] reports failure exactly when the
    triage collection is empty and the requested doctor is unknown or has
    an empty routine queue and no taken slot; a failed call leaves the
    state as it was. *)
Theorem serveNext_fails_iff d H :
  reachable H ->
  ((serveNext d H).1 = None <->
   triageHeap H = [] /\
   (doctors H !! d = None \/
    exists D, doctors H !! d = Some D /\ queue D = [] /\
              Forall (fun s => SlotNode.taken s = false) (Doctor.slotHead D))) /\
  ((serveNext d H).1 = None -> (serveNext d H).2 = H).
Proof.
  intros Hr. apply reachable_Inv in Hr as [_ Hdocs _]. unfold serveNext.
  destruct (triageHeap H) as [|e q]; simpl.
  2:{ split; [|done]. split; [done|]. by intros [? _]. }
  destruct (doctors H !! d) as [D|] eqn:HD; simpl.
  2:{ split; [|done]. split; [|done]. intros _. split; [done|by left]. }
  destruct (Hdocs d D HD) as (Hwf & _).
  destruct (dequeue_cases D Hwf) as [[Hnil He]|(tk & q' & D' & Hq & He & _)];
    rewrite He; simpl.
  - pose proof (vacate_split (Doctor.slotHead D)) as Hv.
    destruct (Doctor.vacateFirstTaken (Doctor.slotHead D)) as [[s l']|]; simpl.
    + split; [|done]. split; [done|].
      intros [_ [?|(D0 & [= <-] & _ & Hall)]]; [done|].
      destruct Hv as (l1 & l2 & Hl & _ & Hs & _). rewrite Hl in Hall.
      apply Forall_app in Hall as [_ Hall]. apply Forall_cons in Hall as [? _].
      congruence.
    + split; [|done]. split; [|done]. intros _. split; [done|]. right. by exists D.
  - split; [|done]. split; [done|].
    intros [_ [?|(D0 & [= <-] & Hnil & _)]]; congruence.
Qed.

Lemma serveNext_fails_iff_witness :
  ((serveNext 2 seeded).1 = None <->
   triageHeap seeded = [] /\
   (doctors seeded !! 2 = None \/
    exists D, doctors seeded !! 2 = Some D /\ queue D = [] /\
              Forall (fun s => SlotNode.taken s = false) (Doctor.slotHead D))) /\
  ((serveNext 2 seeded).1 = None -> (serveNext 2 seeded).2 = seeded).
Proof.
  apply (serveNext_fails_iff 2 seeded).
  apply after_reachable. vm_compute. eauto.
Defined.

End RoundTrips.

(** ** Token ids and counters *)

Section TokenIds.
Import HospitalSystem.
Implicit Types (H : HospitalSystem.t) (D : Doctor.t).

Lemma exec_next_mono op H r H' :
  exec op H = Some (r, H') ->
  nextTokenId H <= nextTokenId H' <= nextTokenId H + 1.
Proof.
  destruct op; unfold exec, addDoctor, scheduleAddSlot, scheduleCancelSlot,
    enqueueRoutine, triageInsert, serveNext, undoPop; intros Heq;
    repeat case_match; simplify_eq; simpl; lia.
Qed.

Lemma run_next_mono ops H H' : run ops H = Some H' -> nextTokenId H <= nextTokenId H'.
Proof.
  revert H. induction ops as [|op ops IH]; intros H; simpl.
  - intros [= <-]. lia.
  - destruct (exec op H) as [[r H1]|] eqn:E; [|done]. intros Hrun.
    apply exec_next_mono in E. apply IH in Hrun. lia.
Qed.

(** X14. Token ids are never reused.  A token id that occurs in a routine
    queue, a taken slot, the triage collection or a ledger record of a
    reachable state is below the id generator, the generator never goes
    back, and every booking that succeeds later returns the generator's
    value: an id larger than every id in use. *)
Theorem token_ids_never_reused H ops H' i :
  reachable H -> id_in_use i H -> run ops H = Some H' ->
  i < nextTokenId H /\ nextTokenId H <= nextTokenId H' /\
  forall p d sid,
    (enqueueRoutine p d sid H').1 <> -1 ->
    (enqueueRoutine p d sid H').1 = nextTokenId H' /\
    i < (enqueueRoutine p d sid H').1 /\
    nextTokenId (enqueueRoutine p d sid H').2 = nextTokenId H' + 1.
Proof.
  intros Hr Hin Hrun. apply reachable_Inv in Hr as [Hn Hdocs Hl].
  assert (i < nextTokenId H) as Hlt.
  { destruct Hin as [(d & D & tk & HD & Htk & <-)|[(d & D & s & HD & Hs & _ & <-)|
                     [(e & He & <-)|(a & Ha & _ & <-)]]].
    - destruct (Hdocs d D HD) as (_ & Hq & _). by apply Hq.
    - destruct (Hdocs d D HD) as (_ & _ & Hsl). by apply Hsl.
    - by apply (li_heap _ _ _ _ Hl).
    - by apply (li_lt _ _ _ _ Hl). }
  pose proof (run_next_mono ops H H' Hrun) as Hmono.
  split; [done|]. split; [done|]. intros p d sid.
  unfold enqueueRoutine.
  destruct (doctors H' !! d) as [D|]; [|done].
  destruct (patients H' !! p); [|done].
  destruct (negb (sid =? -1)).
  - destruct (Doctor.findSlot sid D) as [s|]; [|done].
    destruct (SlotNode.taken s); [done|]. simpl. intros _. lia.
  - destruct (Doctor.isFull D); [done|]. simpl. intros _. lia.
Qed.

Lemma token_ids_never_reused_witness :
  let H := after (seedSampleData ++ [OpBook 1 1 (-1)]) in
  let H' := after (seedSampleData ++ [OpBook 1 1 (-1); OpBook 9 1 (-1); OpServe 1]) in
  id_in_use 1 H /\
  1 < nextTokenId H /\ nextTokenId H <= nextTokenId H' /\
  forall p d sid,
    (enqueueRoutine p d sid H').1 <> -1 ->
    (enqueueRoutine p d sid H').1 = nextTokenId H' /\
    1 < (enqueueRoutine p d sid H').1 /\
    nextTokenId (enqueueRoutine p d sid H').2 = nextTokenId H' + 1.
Proof.
  intros H H'.
  assert (id_in_use 1 H) as Hin.
  { left. exists 1, (default (Doctor.new 0 "" "" 0) (doctors H !! 1)),
      (Token.mk 1 1 1 (-1) ROUTINE).
    split; [vm_compute; reflexivity|]. split; [|reflexivity].
    vm_compute. left. }
  split; [exact Hin|].
  apply (token_ids_never_reused H [OpBook 9 1 (-1); OpServe 1] H' 1).
  - apply after_reachable. vm_compute. eauto.
  - exact Hin.
  - vm_compute. reflexivity.
Defined.

Lemma set_type_same ty tk : Token.type tk = ty -> Token.set_type ty tk = tk.
Proof. destruct tk. simpl. by intros ->. Qed.

Lemma serveN_triage d H :
  Inv H ->
  (serveN (length (triageHeap H)) d H).1
  = (fun e => Some (TriagedToken.token e)) <$> triageHeap H /\
  triageHeap (serveN (length (triageHeap H)) d H).2 = [].
Proof.
  remember (triageHeap H) as q eqn:Hq. revert H Hq.
  induction q as [|e q IH]; intros H Hq HI; simpl; [done|].
  destruct (serveNext_emergency d H e q (eq_sym Hq)) as (H1 & Hs & _ & Hq1 & _).
  pose proof (Inv_serveNext d H HI) as HI1. rewrite Hs in *. simpl in HI1.
  destruct (IH H1 (eq_sym Hq1) HI1) as [Hrs Hnil].
  destruct (serveN (length q) d H1) as [rs H2]. simpl in *.
  split; [|done]. rewrite Hrs. f_equal. f_equal.
  apply set_type_same.
  destruct HI as [_ _ Hl]. rewrite <- Hq in Hl.
  by apply (li_heap _ _ _ _ Hl e ltac:(left)).
Qed.

Lemma heap_sorted_precedes q : heap_sorted q -> StronglySorted precedes q.
Proof.
  unfold heap_sorted. induction 1 as [|e q Hq IH Hall]; constructor; [done|].
  eapply Forall_impl; [exact Hall|]. intros e'. apply key_le_precedes.
Qed.

(** X15. Serving again and again empties the triage collection in order:
    in a reachable state with n pending emergency tokens, n calls of
    [serveNext], for whatever doctor, return exactly those tokens, each
    once, every token before the tokens it precedes (lower severity first,
    on equal severity the lower token id first), and leave the triage
    collection empty. *)
Theorem triage_emptied_in_order d H :
  reachable H ->
  (serveN (length (triageHeap H)) d H).1
  = (fun e => Some (TriagedToken.token e)) <$> triageHeap H /\
  StronglySorted precedes (triageHeap H) /\
  NoDup (entryId <$> triageHeap H) /\
  triageHeap (serveN (length (triageHeap H)) d H).2 = [].
Proof.
  intros Hr. apply reachable_Inv in Hr.
  destruct (serveN_triage d H Hr) as [Hrs Hnil].
  split; [done|]. destruct Hr as [_ _ Hl]. split; [|split; [|done]].
  - apply heap_sorted_precedes, Hl.
  - pose proof (li_ids _ _ _ _ Hl) as Hnd. by apply NoDup_app in Hnd as [? _].
Qed.

Lemma triage_emptied_in_order_witness :
  (serveN (length (triageHeap triageDemo)) 1 triageDemo).1
  = (fun e => Some (TriagedToken.token e)) <$> triageHeap triageDemo /\
  StronglySorted precedes (triageHeap triageDemo) /\
  NoDup (entryId <$> triageHeap triageDemo) /\
  triageHeap (serveN (length (triageHeap triageDemo)) 1 triageDemo).2 = [].
Proof.
  apply (triage_emptied_in_order 1 triageDemo).
  apply after_reachable. vm_compute. eauto.
Defined.

Lemma exec_served_gap op H r H' :
  exec op H = Some (r, H') ->
  servedCount H - serveRecords (undoStack H)
  <= servedCount H' - serveRecords (undoStack H').
Proof.
  destruct op; unfold exec, addDoctor, scheduleAddSlot, scheduleCancelSlot,
    enqueueRoutine, triageInsert, serveNext, undoPop; intros Heq;
    repeat case_match; simplify_eq; simpl;
    repeat match goal with
           | Hty : Action.type _ = _ |- _ => rewrite Hty
           | Hu : undoStack _ = _ |- _ => rewrite Hu
           end; simpl;
    repeat match goal with
           | Hty : Action.type _ = _ |- _ => rewrite Hty
           end; lia.
Qed.

(** X16. The served counter never under-counts: in every reachable state
    the number that [servedVsPendingSummary] reports as served is at least
    the number of Serve records in the ledger, so it is never negative. *)
Theorem served_counter_covers_ledger H :
  reachable H ->
  0 <= serveRecords (undoStack H) <= (servedVsPendingSummary H).1.
Proof.
  intros Hr. change ((servedVsPendingSummary H).1) with (servedCount H). split.
  - induction (undoStack H) as [|a l IH]; simpl; [done|].
    destruct (Action.type a); lia.
  - induction Hr as [|op H r H' _ IH Hex]; [simpl; lia|].
    apply exec_served_gap in Hex. lia.
Qed.

Lemma served_counter_covers_ledger_witness :
  let H := after (smallClinic ++ [OpServe 3; OpServe 3; OpUndo]) in
  0 <= serveRecords (undoStack H) <= (servedVsPendingSummary H).1.
Proof.
  apply (served_counter_covers_ledger
           (after (smallClinic ++ [OpServe 3; OpServe 3; OpUndo]))).
  apply after_reachable. vm_compute. eauto.
Defined.

End TokenIds.

(** ** The pending counter never under-reports *)

Section PendingCounter.
Import HospitalSystem.
Implicit Types (H : HospitalSystem.t) (D : Doctor.t) (m : gmap Z Doctor.t)
  (l : list SlotNode.t).

Lemma pendingSum_loads H :
  pendingSum H = loads (doctors H) + Z.of_nat (length (triageHeap H)).
Proof. done. Qed.

Lemma loads_insert_new m d D : m !! d = None -> loads (<[d := D]> m) = loads m + load D.
Proof.
  intros Hm. unfold loads, load. rewrite map_fold_insert_L; [lia| |done].
  intros. lia.
Qed.

Lemma loads_insert m d D D' :
  m !! d = Some D -> loads (<[d := D']> m) = loads m - load D + load D'.
Proof.
  intros Hm.
  rewrite <- (insert_delete_eq m d D').
  rewrite <- (insert_delete_id m d D Hm) at 2.
  rewrite !loads_insert_new by apply lookup_delete_eq. lia.
Qed.

Lemma occupied_app l1 l2 : occupied (l1 ++ l2) = occupied l1 + occupied l2.
Proof. induction l1 as [|c l1 IH]; simpl; [done|]. rewrite IH. lia. Qed.

Lemma occupied_free l : Forall (fun x => SlotNode.taken x = false) l -> occupied l = 0.
Proof. induction 1 as [|c l Hc _ IH]; simpl; [done|]. rewrite Hc, IH. done. Qed.

Lemma occupied_nonneg l : 0 <= occupied l.
Proof. induction l as [|c l IH]; simpl; [done|]. destruct (SlotNode.taken c); lia. Qed.

Lemma occupied_write sid tk tid l s :
  Doctor.find sid l = Some s ->
  occupied (Doctor.write sid tk tid l)
  = occupied l - (if SlotNode.taken s then 1 else 0) + (if tk then 1 else 0).
Proof.
  induction l as [|c l IH]; simpl; [done|].
  destruct (SlotNode.slotId c =? sid).
  - intros [= ->]. simpl. lia.
  - intros Hf. simpl. rewrite (IH Hf). lia.
Qed.

Lemma occupied_unlink sid l s l' :
  Doctor.find sid l = Some s -> Doctor.unlink sid l = Some l' ->
  occupied l' = occupied l - (if SlotNode.taken s then 1 else 0).
Proof.
  intros Hf Hu. destruct (unlink_split sid l s Hf) as (l1 & l2 & -> & _ & Hu').
  rewrite Hu' in Hu. injection Hu as <-. rewrite !occupied_app. simpl. lia.
Qed.

Lemma occupied_vacate l s l' :
  Doctor.vacateFirstTaken l = Some (s, l') -> occupied l' = occupied l - 1.
Proof.
  intros Hv. pose proof (vacate_split l) as Hs. rewrite Hv in Hs.
  destruct Hs as (l1 & l2 & -> & _ & Ht & ->). rewrite !occupied_app. simpl.
  rewrite Ht. lia.
Qed.

Lemma dropFirst_length {A} (p : A -> bool) (q : list A) :
  Z.of_nat (length (dropFirst p false q).2)
  = Z.of_nat (length q) - (if (dropFirst p false q).1 then 1 else 0).
Proof.
  induction q as [|x q IH]; simpl; [done|].
  destruct (p x); simpl.
  - rewrite dropFirst_removed. simpl. lia.
  - rewrite Nat2Z.inj_succ, IH. destruct (dropFirst p false q).1; lia.
Qed.

Lemma load_queue D D' k :
  wf_doctor D -> wf_doctor D' -> same_frame D D' ->
  Z.of_nat (length (queue D')) = Z.of_nat (length (queue D)) + k ->
  load D' = load D + k.
Proof.
  intros Hwf Hwf' (_ & _ & _ & Hsl & _) Hlen. unfold load.
  rewrite (wf_sizeQ D Hwf), (wf_sizeQ D' Hwf'), Hsl. lia.
Qed.

Lemma exec_pending_gap op H r H' :
  Inv H -> exec op H = Some (r, H') ->
  pendingCountTotal H - pendingSum H <= pendingCountTotal H' - pendingSum H'.
Proof.
  intros HI. pose proof HI as [Hn Hdocs Hl]. rewrite !pendingSum_loads.
  destruct op; unfold exec.
  - (* addDoctor *)
    unfold addDoctor. destruct (doctors H !! docId) eqn:HD; [intros [= _ <-]; lia|].
    destruct (queueCap <? 0); [done|]. intros [= _ <-]. simpl.
    rewrite loads_insert_new by done. unfold load. simpl. lia.
  - (* scheduleAddSlot *)
    unfold scheduleAddSlot. destruct (doctors H !! doctorId) as [D|] eqn:HD;
      intros [= _ <-]; [|lia]. simpl.
    rewrite (loads_insert _ _ D) by done. unfold load. simpl.
    rewrite occupied_app. simpl. lia.
  - (* scheduleCancelSlot *)
    unfold scheduleCancelSlot. destruct (doctors H !! doctorId) as [D|] eqn:HD;
      [|intros [= _ <-]; lia].
    unfold Doctor.findSlot.
    destruct (Doctor.find slotId (Doctor.slotHead D)) as [slot|] eqn:Hf;
      [|intros [= _ <-]; lia].
    destruct (proj1 (find_unlink slotId (Doctor.slotHead D)) ltac:(eauto)) as [l' Hu].
    pose proof (occupied_unlink _ _ _ _ Hf Hu) as Hocc.
    unfold Doctor.cancelSlot, Doctor.writeSlot.
    destruct (SlotNode.taken slot) eqn:Ht; simpl.
    + rewrite unlink_write, Hu. intros [= _ <-]. simpl.
      rewrite (loads_insert _ _ D) by done. unfold load. simpl. lia.
    + rewrite Hu. intros [= _ <-]. simpl.
      rewrite (loads_insert _ _ D) by done. unfold load. simpl. lia.
  - (* patientUpsert *)
    intros [= _ <-]. simpl. lia.
  - (* enqueueRoutine *)
    destruct (enqueueRoutine patientId doctorId slotId H) as [res H1] eqn:He.
    intros [= _ <-]. revert He. unfold enqueueRoutine.
    destruct (doctors H !! doctorId) as [D|] eqn:HD; [|intros [= _ <-]; lia].
    destruct (patients H !! patientId); [|intros [= _ <-]; lia].
    destruct (Hdocs _ D HD) as (Hwf & _).
    destruct (negb (slotId =? -1)).
    + unfold Doctor.findSlot.
      destruct (Doctor.find slotId (Doctor.slotHead D)) as [slot|] eqn:Hf;
        [|intros [= _ <-]; simpl; lia].
      destruct (SlotNode.taken slot) eqn:Ht; intros [= _ <-]; simpl; [lia|].
      rewrite (loads_insert _ _ D) by done. unfold load, Doctor.writeSlot. simpl.
      rewrite (occupied_write _ _ _ _ slot Hf), Ht. lia.
    + destruct (enqueue_cases (Token.mk (nextTokenId H) patientId doctorId slotId ROUTINE)
                  D Hwf) as [[Hfull _]|[Hfull (D1 & Hen & Hwf1 & Hq1 & Hfr1)]];
        rewrite Hfull; [intros [= _ <-]; simpl; lia|].
      rewrite Hen. intros [= _ <-]. simpl.
      rewrite (loads_insert _ _ D) by done.
      rewrite (load_queue D D1 1 Hwf Hwf1 Hfr1); [lia|].
      rewrite Hq1, length_app. simpl. lia.
  - (* triageInsert *)
    unfold triageInsert. destruct (patients H !! patientId); intros [= _ <-]; [|lia].
    simpl. rewrite (Permutation_length (push_perm _ _)). simpl. lia.
  - (* serveNext *)
    destruct (serveNext doctorId H) as [res H1] eqn:He.
    intros [= _ <-]. revert He. unfold serveNext.
    destruct (triageHeap H) as [|e q] eqn:Hh; simpl.
    + destruct (doctors H !! doctorId) as [D|] eqn:HD; [|intros [= _ <-]; rewrite Hh; simpl; lia].
      destruct (Hdocs _ D HD) as (Hwf & _).
      destruct (dequeue_cases D Hwf)
        as [[Hnil Hde]|(tk & q' & D1 & Hq & Hde & Hwf1 & Hq1 & Hfr1)]; rewrite Hde.
      * destruct (Doctor.vacateFirstTaken (Doctor.slotHead D)) as [[s l']|] eqn:Hv;
          intros [= _ <-]; simpl; rewrite ?Hh; simpl; [|lia].
        rewrite (loads_insert _ _ D) by done. unfold load. simpl.
        rewrite (occupied_vacate _ _ _ Hv). simpl. lia.
      * intros [= _ <-]. simpl. rewrite ?Hh. simpl.
        rewrite (loads_insert _ _ D) by done.
        rewrite (load_queue D D1 (-1) Hwf Hwf1 Hfr1); [simpl; lia|].
        rewrite Hq1, Hq. simpl. lia.
    + destruct (negb _); intros [= _ <-]; simpl; lia.
  - (* undoPop *)
    intros [= Heq]. apply (f_equal snd) in Heq. simpl in Heq. subst H'.
    unfold undoPop. destruct (undoStack H) as [|act rest] eqn:Hu; [simpl; lia|].
    destruct (Action.type act) eqn:Hty; simpl.
    + destruct (doctors H !! Action.doctorId act) as [D|] eqn:HD; [|simpl; lia].
      destruct (Hdocs _ D HD) as (Hwf & _).
      destruct (negb (Token.slotId (Action.token act) =? -1)).
      * unfold Doctor.findSlot.
        destruct (Doctor.find _ (Doctor.slotHead D)) as [slot|] eqn:Hf; [|simpl; lia].
        destruct (SlotNode.taken slot) eqn:Ht; simpl; [|lia].
        destruct (SlotNode.tokenId slot =? _); simpl; [|lia].
        rewrite (loads_insert _ _ D) by done. unfold load, Doctor.writeSlot. simpl.
        rewrite (occupied_write _ _ _ _ slot Hf), Ht. lia.
      * destruct (drain_refill (Token.tokenId (Action.token act)) D Hwf)
          as (D1 & D2 & Hdr & HD2 & Hwf2 & Hq2 & Hfr2).
        rewrite Hdr, <- HD2.
        pose proof (dropFirst_length (hasTokenId (Token.tokenId (Action.token act)))
                      (queue D)) as Hlen.
        rewrite <- Hq2 in Hlen.
        destruct (dropFirst _ false (queue D)).1; simpl;
          rewrite (loads_insert _ _ D) by done;
          erewrite (load_queue D D2 _ Hwf Hwf2 Hfr2) by (rewrite Hlen; reflexivity);
          lia.
    + destruct (doctors H !! Action.doctorId act) as [D|] eqn:HD; [|simpl; lia].
      unfold Doctor.findSlot.
      destruct (Doctor.find _ (Doctor.slotHead D)) as [slot|] eqn:Hf; [|simpl; lia].
      simpl. rewrite (loads_insert _ _ D) by done. unfold load, Doctor.writeSlot. simpl.
      rewrite (occupied_write _ _ _ _ slot Hf). destruct (SlotNode.taken slot); lia.
    + destruct (Token.type (Action.token act)) eqn:Htk.
      * destruct (doctors H !! _) as [D|] eqn:HD; [|simpl; lia]. simpl.
        destruct (Hdocs _ D HD) as (Hwf & _).
        rewrite (loads_insert _ _ D) by done.
        destruct (enqueue_cases (Action.token act) D Hwf)
          as [[_ Hen]|[_ (D1 & Hen & Hwf1 & Hq1 & Hfr1)]]; rewrite Hen; simpl; [lia|].
        rewrite (load_queue D D1 1 Hwf Hwf1 Hfr1); [lia|].
        rewrite Hq1, length_app. simpl. lia.
      * simpl. rewrite (Permutation_length (push_perm _ _)). simpl. lia.
    + destruct (Action.patientExistedBefore act); simpl; lia.
    + apply li_pop_ti in Hl as [Hre _]; [|done].
      rewrite drainTriage_spec. simpl. rewrite Hre.
      pose proof (dropFirst_length (entryHasTokenId (Token.tokenId (Action.token act)))
                    (triageHeap H)) as Hlen.
      destruct (dropFirst _ false (triageHeap H)).1; simpl; lia.
Qed.

Lemma loads_nonneg m :
  (forall d D, m !! d = Some D -> 0 <= Doctor.sizeQ D) -> 0 <= loads m.
Proof.
  induction m as [|d D m Hd IH] using map_ind; intros Hm; [done|].
  rewrite loads_insert_new by done.
  pose proof (occupied_nonneg (Doctor.slotHead D)).
  pose proof (Hm d D (lookup_insert_eq m d D)).
  assert (0 <= loads m); [|unfold load; lia].
  apply IH. intros d' D' HD'. apply (Hm d' D').
  rewrite lookup_insert_ne; [done|]. intros ->. congruence.
Qed.

(** X17. The pending counter never under-reports: in every reachable
    state the number that [servedVsPendingSummary] reports as pending is at
    least the number of queued routine tokens, pending emergency tokens and
    occupied slots, so it is never negative. *)
Theorem pending_counter_covers_work H :
  reachable H ->
  0 <= pendingSum H <= (servedVsPendingSummary H).2.
Proof.
  intros Hr. change ((servedVsPendingSummary H).2) with (pendingCountTotal H). split.
  - rewrite pendingSum_loads.
    assert (0 <= loads (doctors H)) as Hl; [|lia].
    apply loads_nonneg. intros d D HD.
    pose proof (reachable_Inv H Hr) as [_ Hdocs _].
    destruct (Hdocs d D HD) as (Hwf & _).
    rewrite (wf_sizeQ D Hwf). lia.
  - induction Hr as [|op H r H' Hr IH Hex]; [vm_compute; discriminate|].
    pose proof (exec_pending_gap op H r H' (reachable_Inv H Hr) Hex). lia.
Qed.

Lemma pending_counter_covers_work_witness :
  let H := after (smallClinic ++ [OpServe 3; OpServe 3; OpUndo; OpUndo]) in
  0 <= pendingSum H <= (servedVsPendingSummary H).2.
Proof.
  apply (pending_counter_covers_work
           (after (smallClinic ++ [OpServe 3; OpServe 3; OpUndo; OpUndo]))).
  apply after_reachable. vm_compute. eauto.
Defined.

End PendingCounter.

(** ** The frequency report *)

Section TopK.
Import HospitalSystem.
Implicit Types (H : HospitalSystem.t) (a b : Z * Z).

Lemma not_after_spec a b :
  not_after a b <-> b.1 < a.1 \/ (b.1 = a.1 /\ b.2 <= a.2).
Proof. unfold not_after, pair_gt. destruct a, b; simpl. lia. Qed.

#[local] Instance not_after_trans : Transitive not_after.
Proof. intros a b c. rewrite !not_after_spec. lia. Qed.

#[local] Instance not_after_total : Total not_after.
Proof. intros a b. rewrite !not_after_spec. lia. Qed.

#[local] Instance not_after_antisymm : AntiSymm (=) not_after.
Proof.
  intros [a1 a2] [b1 b2]. rewrite !not_after_spec. simpl. intros ? ?.
  f_equal; lia.
Qed.

Lemma freqTable_ids H : (freqTable H).*2 = (map_to_list (patients H)).*1.
Proof. unfold freqTable. rewrite <- list_fmap_compose. done. Qed.

Lemma elem_of_freqTable H a :
  a ∈ freqTable H <-> exists p, patients H !! a.2 = Some p /\ Patient.freq p = a.1.
Proof.
  unfold freqTable. rewrite list_elem_of_fmap. split.
  - intros ([k p] & -> & Hin%elem_of_map_to_list). simpl. eauto.
  - intros (p & Hp & Hf). exists (a.2, p). split.
    + destruct a. simpl in *. by subst.
    + by apply elem_of_map_to_list.
Qed.

Lemma sorted_table H :
  let s := merge_sort not_after (freqTable H) in
  s ≡ₚ freqTable H /\ StronglySorted not_after s /\ NoDup s.*2.
Proof.
  simpl. split; [apply merge_sort_Permutation|]. split.
  - apply (StronglySorted_merge_sort _).
  - rewrite (merge_sort_Permutation not_after (freqTable H)), freqTable_ids.
    apply NoDup_fst_map_to_list.
Qed.

(** X18. The rows of [topKFrequentPatients K]: there are min(K, number of
    patients) of them (none for K <= 0); every row shows a registered
    patient with its own frequency and name; no patient is listed twice;
    the rows are in strictly descending order of (frequency, id); and every
    registered patient who is not listed comes, in that order, after every
    row that is. *)
Theorem topK_rows K H :
  let rows := topKFrequentPatients K H in
  length rows = Nat.min (Z.to_nat K) (size (patients H)) /\
  (forall id f nm, (id, f, nm) ∈ rows ->
     exists p, patientGet id H = Some p /\ Patient.freq p = f /\ Patient.name p = nm) /\
  NoDup rows.*1.*1 /\
  StronglySorted row_before rows /\
  (forall id p r, patientGet id H = Some p -> id ∉ rows.*1.*1 -> r ∈ rows ->
     row_before r (id, Patient.freq p, Patient.name p)).
Proof.
  destruct (sorted_table H) as (Hperm & Hsort & Hnd).
  unfold topKFrequentPatients, patientGet.
  set (s := merge_sort not_after (freqTable H)) in *.
  set (k := Z.to_nat K).
  set (row := fun r : Z * Z =>
    (r.2, r.1, Patient.name (default Patient.default (patients H !! r.2)))).
  assert (forall l : list (Z * Z), (row <$> l).*1.*1 = l.*2) as Hids.
  { intros l. rewrite <- !list_fmap_compose. done. }
  pose proof (take_drop k s) as Hsplit.
  assert (NoDup (take k s).*2) as Hndk.
  { apply (sublist_NoDup _ s.*2); first [exact Hnd|apply fmap_sublist, sublist_take]. }
  assert (forall a b, a.2 <> b.2 -> not_after a b ->
            row_before (row a) (row b)) as Hstrict.
  { intros [a1 a2] [b1 b2] Hne [Hlt|[Heq Hle]]%not_after_spec;
      unfold row_before; simpl in *; lia. }
  simpl. split; [|split; [|split; [|split]]].
  - rewrite length_fmap, length_take, Hperm. unfold freqTable.
    by rewrite length_fmap, length_map_to_list.
  - intros id f nm ([f' id'] & [= -> -> ->] & Hin)%list_elem_of_fmap.
    assert ((f', id') ∈ freqTable H) as (p & Hp & Hf)%elem_of_freqTable.
    { rewrite <- Hperm. eapply elem_of_sublist; [exact Hin|apply sublist_take]. }
    simpl in *. exists p. by rewrite Hp.
  - by rewrite Hids.
  - rewrite <- Hsplit in Hsort. apply StronglySorted_app_1_l in Hsort.
    revert Hsort Hndk. generalize (take k s). intros l.
    induction 1 as [|a l Hl IH Hall]; simpl; intros Hn; [constructor|].
    apply NoDup_cons in Hn as [Hnot Hn]. constructor; [by apply IH|].
    apply Forall_fmap, Forall_forall. intros b Hb.
    apply Hstrict; [|by eapply Forall_forall in Hall].
    intros Heq. apply Hnot. rewrite Heq. by apply list_elem_of_fmap_2.
  - intros id p r Hp Hnot ([f' id'] & -> & Hin)%list_elem_of_fmap.
    rewrite Hids in Hnot.
    assert ((Patient.freq p, id) ∈ s) as Hs.
    { rewrite Hperm. apply elem_of_freqTable. eauto. }
    rewrite <- Hsplit in Hs, Hsort. apply elem_of_app in Hs as [Hs|Hs].
    { destruct Hnot. by apply (list_elem_of_fmap_2 snd) in Hs. }
    pose proof (StronglySorted_app_1_elem_of _ _ _ _ _ Hsort Hin Hs) as Hle.
    assert (id' <> id) as Hne.
    { intros ->. destruct Hnot. by apply (list_elem_of_fmap_2 snd) in Hin. }
    apply not_after_spec in Hle. unfold row_before. simpl in *. lia.
Qed.

(** X19. The sorted vector does not depend on the order in which the
    patient map is traversed, nor on how [sort] arranges it: every
    arrangement of the (freq, id) pairs in which no element is greater than
    an earlier one is the same list. *)
Theorem topK_order_independent H arr sorted :
  arr ≡ₚ freqTable H ->
  sorted ≡ₚ arr ->
  (forall i j a b, (i < j)%nat -> sorted !! i = Some a -> sorted !! j = Some b ->
     pair_gt b a = false) ->
  sorted = merge_sort not_after (freqTable H).
Proof.
  intros Harr Hsorted Hord.
  destruct (sorted_table H) as (Hperm & Hsort & _).
  apply (StronglySorted_unique not_after); [|done|by rewrite Hsorted, Harr, Hperm].
  clear Harr Hsorted Hperm Hsort.
  induction sorted as [|a l IH]; [constructor|].
  constructor.
  - apply IH. intros i j x y Hij Hx Hy. by apply (Hord (S i) (S j) x y); [lia|..].
  - apply Forall_forall. intros b [j Hj]%list_elem_of_lookup_1.
    by apply (Hord 0%nat (S j) a b); [lia|..].
Qed.

Lemma topK_order_independent_witness :
  [(0, 3); (0, 2); (0, 1)] = merge_sort not_after (freqTable seeded).
Proof.
  apply (topK_order_independent seeded [(0, 1); (0, 3); (0, 2)]).
  - apply (bool_decide_unpack _). vm_compute. exact I.
  - apply (bool_decide_unpack _). vm_compute. exact I.
  - intros i j a b Hij Hi Hj.
    destruct i as [|[|[|i]]]; destruct j as [|[|[|j]]]; simpl in *;
      simplify_eq; try lia; reflexivity.
Defined.

End TopK.

(** ** The slot listing *)

Section Listing.
Import HospitalSystem.
Implicit Types (H : HospitalSystem.t) (D : Doctor.t) (l : list SlotNode.t).

Lemma write_split sid tk tid l s :
  Doctor.find sid l = Some s ->
  exists l1 l2, l = l1 ++ s :: l2 /\
    Forall (fun x => SlotNode.slotId x <> sid) l1 /\
    SlotNode.slotId s = sid /\
    Doctor.write sid tk tid l = l1 ++ SlotNode.occupy tk tid s :: l2.
Proof.
  induction l as [|c l IH]; simpl; [done|].
  destruct (SlotNode.slotId c =? sid) eqn:E.
  - intros [= ->]. exists [], l. by apply Z.eqb_eq in E.
  - intros Hf. destruct (IH Hf) as (l1 & l2 & -> & Hall & Hs & ->).
    exists (c :: l1), l2. split; [done|]. split; [|done].
    constructor; [by apply Z.eqb_neq|done].
Qed.

(** X20. [listDoctorSlots] after [scheduleAddSlot]: the listing of the
    doctor has one more row, at the end, which shows the new slot as free;
    the rows before it and the listings of the other doctors are as
    before; and the addition is refused exactly for the ids for which the
    listing says that the doctor is not found. *)
Theorem listDoctorSlots_after_addSlot d sid s e H :
  listDoctorSlots d (scheduleAddSlot d sid s e H).2
  = (fun rows => rows ++ [(sid, s, e, false)]) <$> listDoctorSlots d H /\
  (forall d', d' <> d ->
     listDoctorSlots d' (scheduleAddSlot d sid s e H).2 = listDoctorSlots d' H) /\
  ((scheduleAddSlot d sid s e H).1 = false <-> listDoctorSlots d H = None).
Proof.
  unfold listDoctorSlots, scheduleAddSlot.
  destruct (doctors H !! d) as [D|] eqn:HD; simpl.
  - rewrite lookup_insert_eq. simpl. split; [|split].
    + unfold printSlots, Doctor.insertSlot. simpl. by rewrite fmap_app.
    + intros d' Hd'. by rewrite lookup_insert_ne.
    + done.
  - rewrite HD. done.
Qed.

(** X21. [listDoctorSlots] after a booking of a slot has succeeded: the
    first row with that slot id was shown as free and is now shown as
    taken; every other row of the doctor and the listings of the other
    doctors are as before. *)
Theorem listDoctorSlots_after_booking p d sid H :
  sid <> -1 -> (enqueueRoutine p d sid H).1 <> -1 ->
  exists rows1 s e rows2,
    listDoctorSlots d H = Some (rows1 ++ (sid, s, e, false) :: rows2) /\
    listDoctorSlots d (enqueueRoutine p d sid H).2
    = Some (rows1 ++ (sid, s, e, true) :: rows2) /\
    Forall (fun r => r.1.1.1 <> sid) rows1 /\
    forall d', d' <> d ->
      listDoctorSlots d' (enqueueRoutine p d sid H).2 = listDoctorSlots d' H.
Proof.
  intros Hsid. unfold listDoctorSlots, enqueueRoutine.
  destruct (doctors H !! d) as [D|] eqn:HD; [|done].
  destruct (patients H !! p) as [P|] eqn:HP; [|done].
  rewrite (proj2 (Z.eqb_neq _ _) Hsid). simpl.
  unfold Doctor.findSlot.
  destruct (Doctor.find sid (Doctor.slotHead D)) as [slot|] eqn:Hf; [|done].
  destruct (SlotNode.taken slot) eqn:Ht; [done|]. simpl. intros _.
  destruct (write_split sid true (nextTokenId H) _ _ Hf)
    as (l1 & l2 & Hl & Hall & Hs & Hw).
  exists (printSlots (Doctor.set_slotHead l1 D)),
    (SlotNode.startTime slot), (SlotNode.endTime slot),
    (printSlots (Doctor.set_slotHead l2 D)).
  rewrite lookup_insert_eq. unfold printSlots, Doctor.writeSlot. simpl.
  rewrite Hw, Hl, !fmap_app. simpl. rewrite Hs, Ht.
  split; [done|]. split; [done|]. split.
  - apply Forall_fmap. eapply Forall_impl; [exact Hall|]. done.
  - intros d' Hd'. by rewrite lookup_insert_ne.
Qed.

Lemma listDoctorSlots_after_booking_witness :
  exists rows1 s e rows2,
    listDoctorSlots 1 seeded = Some (rows1 ++ (102, s, e, false) :: rows2) /\
    listDoctorSlots 1 (enqueueRoutine 2 1 102 seeded).2
    = Some (rows1 ++ (102, s, e, true) :: rows2) /\
    Forall (fun r => r.1.1.1 <> 102) rows1 /\
    forall d', d' <> 1 ->
      listDoctorSlots d' (enqueueRoutine 2 1 102 seeded).2 = listDoctorSlots d' seeded.
Proof.
  apply (listDoctorSlots_after_booking 2 1 102 seeded).
  - discriminate.
  - vm_compute. discriminate.
Defined.

End Listing.

(** ** The patient registry *)

Section Registry.
Import HospitalSystem.
Implicit Types (H : HospitalSystem.t) (m : gmap Z Patient.t).

Lemma bumpFreq_lookup m k k' p0 :
  m !! k = Some p0 ->
  bumpFreq k m !! k' = if bool_decide (k' = k) then Some (Patient.bump p0) else m !! k'.
Proof.
  intros Hk. unfold bumpFreq. rewrite Hk. simpl. case_bool_decide as E.
  - subst. by rewrite lookup_insert_eq.
  - by rewrite lookup_insert_ne.
Qed.

(** How one call changes the record filed under [k]. *)
Lemma exec_patients op H r H' k :
  Inv H -> exec op H = Some (r, H') ->
  patients H' !! k = patients H !! k \/
  (exists p0, patients H !! k = Some p0 /\ patients H' !! k = Some (Patient.bump p0)) \/
  (exists p, op = OpUpsert p /\ Patient.id p = k /\ patients H' !! k = Some p) \/
  (op = OpUndo /\ exists a rest,
     undoStack H = a :: rest /\ Action.type a = REGISTER_PATIENT /\
     Action.patientIdForUpsert a = k /\
     if Action.patientExistedBefore a
     then is_Some (patients H !! k) /\ patients H' !! k = Some (Action.patientSnapshot a)
     else patients H' !! k = None).
Proof.
  intros [Hn Hdocs Hl].
  assert (forall k' p0, patients H !! k' = Some p0 ->
    bumpFreq k' (patients H) !! k = patients H !! k \/
    exists q, patients H !! k = Some q /\
              bumpFreq k' (patients H) !! k = Some (Patient.bump q)) as Hbump.
  { intros k' p0 Hp. rewrite (bumpFreq_lookup _ _ _ _ Hp).
    case_bool_decide; [subst; eauto|by left]. }
  destruct op; unfold exec.
  - unfold addDoctor. intros Heq. repeat case_match; simplify_eq; by left.
  - unfold scheduleAddSlot. intros Heq. repeat case_match; simplify_eq; by left.
  - unfold scheduleCancelSlot, Doctor.cancelSlot. intros Heq.
    repeat case_match; simplify_eq; by left.
  - intros [= _ <-]. simpl. destruct (decide (k = Patient.id p)) as [->|Hne].
    + right. right. left. exists p. by rewrite lookup_insert_eq.
    + left. by rewrite lookup_insert_ne.
  - unfold enqueueRoutine. intros Heq.
    destruct (doctors H !! doctorId); [|simplify_eq; by left].
    destruct (patients H !! patientId) as [p0|] eqn:Hp; [|simplify_eq; by left].
    repeat case_match; simplify_eq; simpl; try (by left);
      destruct (Hbump _ _ Hp) as [?|?]; eauto.
  - unfold triageInsert. intros Heq.
    destruct (patients H !! patientId) as [p0|] eqn:Hp; [|simplify_eq; by left].
    simplify_eq. simpl. destruct (Hbump _ _ Hp) as [?|?]; eauto.
  - unfold serveNext. intros Heq.
    destruct (triageHeap H) as [|e q] eqn:Hh; simpl in Heq.
    + repeat case_match; simplify_eq; by left.
    + assert (is_Some (patients H !! Token.patientId (TriagedToken.token e)))
        as [p0 Hp].
      { eapply li_registered; [exact Hl|]. left. }
      repeat case_match; simplify_eq; simpl; try (by left);
        destruct (Hbump _ _ Hp) as [?|?]; eauto.
  - intros [= Heq]. unfold undoPop in Heq.
    destruct (undoStack H) as [|a rest] eqn:Hu; [simplify_eq; by left|].
    destruct (Action.type a) eqn:Hty.
    1,2,3,5: repeat case_match; simplify_eq; by left.
    destruct (decide (k = Action.patientIdForUpsert a)) as [->|Hne].
    + right. right. right. split; [done|]. exists a, rest.
      split; [done|]. split; [done|]. split; [done|].
      destruct (Action.patientExistedBefore a) eqn:Hex; simplify_eq; simpl.
      * split; [|by rewrite lookup_insert_eq].
        apply (li_regs _ _ _ _ Hl). simpl. rewrite Hty, Hex.
        destruct Hl as [_ _ _ _ _ [_ Hok]]. rewrite Hty in Hok. by apply Hok.
      * by rewrite lookup_delete_eq.
    + left. destruct (Action.patientExistedBefore a); simplify_eq; simpl.
      * by rewrite lookup_insert_ne.
      * by rewrite lookup_delete_ne.
Qed.

(** What one call does to the registration records of the ledger. *)
Lemma exec_ledger_snapshots op H r H' a :
  exec op H = Some (r, H') -> a ∈ undoStack H' ->
  Action.type a = REGISTER_PATIENT -> Action.patientExistedBefore a = true ->
  a ∈ undoStack H \/
  patients H !! Action.patientIdForUpsert a = Some (Action.patientSnapshot a).
Proof.
  destruct op; unfold exec.
  - unfold addDoctor. intros Heq. repeat case_match; simplify_eq; by left.
  - unfold scheduleAddSlot. intros Heq. repeat case_match; simplify_eq; by left.
  - unfold scheduleCancelSlot, Doctor.cancelSlot. intros Heq Hin Hty Hex.
    repeat case_match; simplify_eq; simpl in *; try (by left);
      (apply elem_of_cons in Hin as [->|?]; [simpl in *; congruence|by left]).
  - intros [= _ <-]. simpl. intros [->|?]%elem_of_cons Hty Hex; [|by left].
    right. simpl in *. apply bool_decide_eq_true in Hex as [p0 Hp].
    by rewrite Hp.
  - unfold enqueueRoutine. intros Heq Hin Hty Hex.
    repeat case_match; simplify_eq; simpl in *; try (by left);
      (apply elem_of_cons in Hin as [->|?]; [simpl in *; congruence|by left]).
  - unfold triageInsert. intros Heq Hin Hty Hex.
    repeat case_match; simplify_eq; simpl in *; try (by left);
      (apply elem_of_cons in Hin as [->|?]; [simpl in *; congruence|by left]).
  - unfold serveNext. intros Heq Hin Hty Hex.
    repeat case_match; simplify_eq; simpl in *; try (by left);
      (apply elem_of_cons in Hin as [->|?]; [simpl in *; congruence|by left]).
  - intros [= Heq] Hin _ _. left. unfold undoPop in Heq.
    destruct (undoStack H) as [|a0 rest] eqn:Hu; [simplify_eq; by rewrite Hu in Hin|].
    right. repeat case_match; simplify_eq; simpl in *; done.
Qed.

(** X22. A patient record comes into existence only through
    [patientUpsert]: after any other call in a reachable state, [undo]
    included, every registered patient was registered before the call.  In
    particular no [++patients[id].freq] ever creates a record. *)
Theorem patients_only_by_upsert op H r H' k :
  reachable H -> exec op H = Some (r, H') -> is_Some (patientGet k H') ->
  is_Some (patientGet k H) \/ exists p, op = OpUpsert p /\ Patient.id p = k.
Proof.
  intros Hr Hex. unfold patientGet.
  destruct (exec_patients op H r H' k (reachable_Inv H Hr) Hex)
    as [Heq|[(p0 & Hp0 & Hp1)|[(p1 & Hop & Hid & _)|(_ & a & rest & _ & _ & _ & Hcase)]]].
  - rewrite Heq. by left.
  - rewrite Hp0. by left.
  - right. eauto.
  - destruct (Action.patientExistedBefore a).
    + destruct Hcase as [? _]. by left.
    + rewrite Hcase. by intros [? ?].
Qed.

Lemma patients_only_by_upsert_witness :
  is_Some (patientGet 2 (after (seedSampleData ++ [OpTriage 2 5]))) \/
  exists p, OpServe 1 = OpUpsert p /\ Patient.id p = 2.
Proof.
  apply (patients_only_by_upsert (OpServe 1)
           (after (seedSampleData ++ [OpTriage 2 5])) true
           (after (seedSampleData ++ [OpTriage 2 5; OpServe 1]))).
  - apply after_reachable. vm_compute. eauto.
  - vm_compute. reflexivity.
  - vm_compute. eauto.
Defined.

(** X23. In every reachable state each patient is filed under its own id:
    the record [patientGet] returns for an id carries that id; and every
    record of the ledger that keeps the earlier version of an updated
    patient keeps one with the id it is to be restored under. *)
Theorem patients_filed_under_own_id H :
  reachable H ->
  (forall k p, patientGet k H = Some p -> Patient.id p = k) /\
  (forall a, a ∈ undoStack H -> Action.type a = REGISTER_PATIENT ->
     Action.patientExistedBefore a = true ->
     Patient.id (Action.patientSnapshot a) = Action.patientIdForUpsert a).
Proof.
  unfold patientGet. induction 1 as [|op H r H' Hr [IHp IHs] Hex].
  - split.
    + intros k p Hp. simpl in Hp. by rewrite lookup_empty in Hp.
    + intros a Hin. simpl in Hin. by apply elem_of_nil in Hin.
  - pose proof (reachable_Inv H Hr) as HI. split.
    + intros k p Hp.
      destruct (exec_patients op H r H' k HI Hex)
        as [Heq|[(p0 & Hp0 & Hp1)|[(p1 & _ & Hid & Hp1)|(_ & a & rest & Hu & Hty & Hk & Hcase)]]].
      * apply IHp. by rewrite <- Heq.
      * rewrite Hp1 in Hp. injection Hp as <-. simpl. by apply IHp.
      * rewrite Hp1 in Hp. by injection Hp as <-.
      * destruct (Action.patientExistedBefore a) eqn:Hexi.
        -- destruct Hcase as [_ Hp1]. rewrite Hp1 in Hp. injection Hp as <-.
           rewrite <- Hk. apply IHs; [rewrite Hu; left|done..].
        -- congruence.
    + intros a Hin Hty Hexi.
      destruct (exec_ledger_snapshots op H r H' a Hex Hin Hty Hexi) as [?|Hsnap];
        [by apply IHs|by apply IHp].
Qed.

Lemma patients_filed_under_own_id_witness :
  let H := after (seedSampleData ++ [OpUpsert (Patient.mk 2 "Lakshita" 20 "None" 0)]) in
  (forall k p, patientGet k H = Some p -> Patient.id p = k) /\
  (forall a, a ∈ undoStack H -> Action.type a = REGISTER_PATIENT ->
     Action.patientExistedBefore a = true ->
     Patient.id (Action.patientSnapshot a) = Action.patientIdForUpsert a).
Proof.
  apply (patients_filed_under_own_id
           (after (seedSampleData ++ [OpUpsert (Patient.mk 2 "Lakshita" 20 "None" 0)]))).
  apply after_reachable. vm_compute. eauto.
Defined.

End Registry.

(** * Failure and success, call by call *)

Section Commit.
Import HospitalSystem.
Implicit Types (H : HospitalSystem.t) (D : Doctor.t).

Lemma view_withQueue D D' q :
  same_frame D D' -> queue D' = q -> viewDoctor D' = withQueue q (viewDoctor D).
Proof.
  intros (Hi & Hn & Hs & Hl & Hc) Hq. unfold viewDoctor, withQueue. simpl.
  by rewrite Hi, Hn, Hs, Hl, Hc, Hq.
Qed.

Lemma committed_cancel d sid H H' :
  exec (OpCancelSlot d sid) H = Some (true, H') -> committed (OpCancelSlot d sid) H H'.
Proof.
  unfold exec, committed, scheduleCancelSlot.
  destruct (doctors H !! d) as [D|] eqn:HD; [|done]. unfold Doctor.findSlot.
  destruct (Doctor.find sid (Doctor.slotHead D)) as [s|] eqn:Hf; [|done].
  destruct (unlink_split sid _ s Hf) as (l1 & l2 & Hl & Hall & Hu).
  destruct (find_Some _ _ _ Hf) as [_ Hsid].
  unfold Doctor.cancelSlot, Doctor.writeSlot.
  destruct (SlotNode.taken s) eqn:Ht; simpl; rewrite ?unlink_write, Hu; simpl;
    intros [= <-]; exists D, l1, s, l2.
  - exists (Action.set_slotPreviouslyTaken true (Action.set_doctorId d (Action.set_slotId sid
              (Action.set_token (Token.mk (SlotNode.tokenId s) (-1) d sid ROUTINE)
                 (Action.init CANCEL))))).
    split; [done|]. split; [done|].
    do 4 (split; [reflexivity|]).
    unfold leaves, schedules. simpl. by rewrite fmap_insert, Ht.
  - exists (Action.set_doctorId d (Action.set_slotId sid
              (Action.set_token (Token.mk (SlotNode.tokenId s) (-1) d sid ROUTINE)
                 (Action.init CANCEL)))).
    split; [done|]. split; [done|]. do 4 (split; [reflexivity|]).
    unfold leaves, schedules. simpl. by rewrite fmap_insert, Ht.
Qed.

Lemma committed_book p d sid H H' :
  Inv H -> exec (OpBook p d sid) H = Some (true, H') -> committed (OpBook p d sid) H H'.
Proof.
  intros [Hn Hd Hl]. unfold exec, committed.
  destruct (enqueueRoutine p d sid H) as [res H1] eqn:He.
  intros [= Hres <-]. apply negb_true_iff, Z.eqb_neq in Hres.
  revert He. unfold enqueueRoutine.
  destruct (doctors H !! d) as [D|] eqn:HD; [|by intros [= <- _]].
  destruct (patients H !! p) as [P|] eqn:HP; [|by intros [= <- _]].
  destruct (Hd _ D HD) as (Hwf & _).
  destruct (sid =? -1) eqn:Esid; simpl.
  - destruct (enqueue_cases (Token.mk (nextTokenId H) p d sid ROUTINE) D Hwf)
      as [[Hfull _]|[Hfull (D1 & Hen & Hwf1 & Hq1 & Hfr1)]];
      rewrite Hfull; [by intros [= <- _]|].
    rewrite Hen. simpl. intros [= _ <-].
    exists D, P,
      (Action.set_doctorId d
         (Action.set_token (Token.mk (nextTokenId H) p d sid ROUTINE) (Action.init BOOK))).
    eexists. split; [done|]. split; [done|].
    do 3 (split; [reflexivity|]). split.
    + split; [|reflexivity]. unfold Doctor.isFull in Hfull.
      apply Z.eqb_neq in Hfull. pose proof Hwf as (_ & _ & Hs & _).
      rewrite <- (wf_sizeQ D Hwf). lia.
    + unfold leaves, schedules. simpl. unfold bumpFreq. rewrite fmap_insert, HP.
      by rewrite (view_withQueue D D1 _ Hfr1 Hq1).
  - unfold Doctor.findSlot.
    destruct (Doctor.find sid (Doctor.slotHead D)) as [slot|] eqn:Hf;
      [|by intros [= <- _]].
    destruct (SlotNode.taken slot) eqn:Ht; [by intros [= <- _]|].
    intros [= _ <-].
    destruct (write_split sid true (nextTokenId H) _ _ Hf)
      as (l1 & l2 & Hsl & Hall & Hs & Hw).
    exists D, P,
      (Action.set_doctorId d (Action.set_slotId sid
         (Action.set_token (Token.mk (nextTokenId H) p d sid ROUTINE) (Action.init BOOK)))).
    eexists. split; [done|]. split; [done|].
    do 3 (split; [reflexivity|]). split.
    + exists l1, slot, l2. split; [done|]. split; [done|]. reflexivity.
    + unfold leaves, schedules. simpl. unfold bumpFreq, Doctor.writeSlot. simpl.
      rewrite fmap_insert, HP, Hw. done.
Qed.

Lemma committed_serve d H H' :
  Inv H -> exec (OpServe d) H = Some (true, H') -> committed (OpServe d) H H'.
Proof.
  intros [Hn Hd Hl]. unfold exec, committed.
  destruct (triageHeap H) as [|e q] eqn:Hh.
  - unfold serveNext. rewrite Hh. simpl.
    destruct (doctors H !! d) as [D|] eqn:HD; [|done].
    destruct (Hd _ D HD) as (Hwf & _).
    destruct (dequeue_cases D Hwf)
      as [[Hnil Hde]|(tk & q' & D1 & Hq & Hde & Hwf1 & Hq1 & Hfr1)]; rewrite Hde.
    + pose proof (vacate_split (Doctor.slotHead D)) as Hv.
      destruct (Doctor.vacateFirstTaken (Doctor.slotHead D)) as [[s l']|]; [|done].
      destruct Hv as (l1 & l2 & Hsl & Hfree & Ht & ->).
      simpl. intros [= <-].
      exists (Token.mk (SlotNode.tokenId s) (-1) d (SlotNode.slotId s) ROUTINE),
        (Action.set_token (Token.mk (SlotNode.tokenId s) (-1) d (SlotNode.slotId s) ROUTINE)
           (Action.init SERVE)).
      split; [reflexivity|]. split; [reflexivity|]. split; [reflexivity|].
      exists D. eexists. split; [done|]. rewrite Hnil. split.
      * exists l1, s, l2. split; [done|]. split; [done|]. split; [done|].
        split; reflexivity.
      * unfold leaves, schedules. simpl. rewrite fmap_insert, Hh. done.
    + simpl. intros [= <-].
      exists tk, (Action.set_token tk (Action.init SERVE)).
      split; [reflexivity|]. split; [reflexivity|]. split; [reflexivity|].
      exists D. eexists. split; [done|]. rewrite Hq. split.
      * split; reflexivity.
      * unfold leaves, schedules. simpl. rewrite fmap_insert, Hh.
        by rewrite (view_withQueue D D1 _ Hfr1 Hq1).
  - destruct (serveNext_emergency d H e q Hh)
      as (H1 & Hs & Hdoc & Hq & Hsv & Hpd & Hnx & Hu & Hps).
    rewrite <- Hh in Hl.
    destruct (li_heap _ _ _ _ Hl e ltac:(rewrite Hh; left)) as (Hty & _).
    destruct (li_registered _ _ _ _ e Hl ltac:(rewrite Hh; left)) as [P HP].
    rewrite (set_type_same _ _ Hty) in Hs, Hu.
    rewrite Hs. simpl. intros [= <-].
    exists (TriagedToken.token e),
      (Action.set_severity (TriagedToken.severity e)
         (Action.set_token (TriagedToken.token e) (Action.init SERVE))).
    do 5 (split; [reflexivity|]).
    exists P. split; [done|]. unfold leaves, schedules.
    rewrite Hdoc, Hps, Hq, Hu, Hnx, Hsv, Hpd.
    split; [done|]. split; [|done].
    unfold bumpFreq. rewrite HP. simpl.
    by destruct (Token.patientId (TriagedToken.token e) =? -1).
Qed.

Lemma committed_undo H H' :
  Inv H -> exec OpUndo H = Some (true, H') -> committed OpUndo H H'.
Proof.
  intros [Hn Hd Hl]. unfold exec, committed. intros [= Heq]. revert Heq.
  unfold undoPop. destruct (undoStack H) as [|a rest] eqn:Hu; [done|].
  intros Heq. exists a, rest. split; [done|]. revert Heq.
  destruct (Action.type a) eqn:Hty; simpl.
  - destruct (doctors H !! Action.doctorId a) as [D|] eqn:HD; [|done].
    destruct (Hd _ D HD) as (Hwf & _).
    destruct (Token.slotId (Action.token a) =? -1) eqn:Esid; simpl.
    + destruct (drain_refill (Token.tokenId (Action.token a)) D Hwf)
        as (D1 & D2 & Hdr & HD2 & Hwf2 & Hq2 & Hfr2).
      rewrite Hdr, <- HD2.
      destruct (dropFirst (hasTokenId (Token.tokenId (Action.token a))) false (queue D))
        as [removed kept] eqn:Hdrop.
      simpl in *. intros [= -> <-]. exists D. eexists. split; [done|]. split.
      * exists kept. split; [exact Hdrop|reflexivity].
      * unfold leaves, schedules. simpl. rewrite fmap_insert.
        by rewrite (view_withQueue D D2 _ Hfr2 Hq2).
    + unfold Doctor.findSlot.
      destruct (Doctor.find _ (Doctor.slotHead D)) as [slot|] eqn:Hf; [|done].
      destruct (SlotNode.taken slot) eqn:Ht; [|done]. simpl.
      destruct (SlotNode.tokenId slot =? _) eqn:Eid; [|done].
      apply Z.eqb_eq in Eid. intros [= <-].
      destruct (write_split _ false (-1) _ _ Hf) as (l1 & l2 & Hsl & Hall & Hs & Hw).
      exists D. eexists. split; [done|]. split.
      * exists l1, slot, l2. split; [done|]. split; [done|]. split; [done|]. reflexivity.
      * unfold leaves, schedules, Doctor.writeSlot. simpl. rewrite fmap_insert, Hw. done.
  - destruct (doctors H !! Action.doctorId a) as [D|] eqn:HD; [|done].
    unfold Doctor.findSlot.
    destruct (Doctor.find _ (Doctor.slotHead D)) as [slot|] eqn:Hf; [|done].
    intros [= <-].
    destruct (write_split _ true (Token.tokenId (Action.token a)) _ _ Hf)
      as (l1 & l2 & Hsl & Hall & Hs & Hw).
    exists D, l1, slot, l2. split; [done|]. split; [done|].
    unfold leaves, schedules, Doctor.writeSlot. simpl. rewrite fmap_insert, Hw. done.
  - destruct (Token.type (Action.token a)) eqn:Htk.
    + destruct (doctors H !! _) as [D|] eqn:HD; [|done]. intros [= <-].
      destruct (Hd _ D HD) as (Hwf & _).
      exists D. split; [done|].
      unfold leaves, schedules. simpl. rewrite fmap_insert.
      destruct (enqueue_cases (Action.token a) D Hwf)
        as [[Hfull Hen]|[Hfull (D1 & Hen & Hwf1 & Hq1 & Hfr1)]];
        rewrite Hen, Hfull; simpl; [done|].
      by rewrite (view_withQueue D D1 _ Hfr1 Hq1).
    + intros [= <-]. eexists. split; [apply push_perm|]. split.
      * apply push_sorted. apply (li_sorted _ _ _ _ Hl).
      * done.
  - intros [= <-]. unfold leaves. simpl.
    by destruct (Action.patientExistedBefore a).
  - apply li_pop_ti in Hl as [Hre _]; [|done].
    rewrite drainTriage_spec. simpl. rewrite Hre.
    destruct (dropFirst _ false (triageHeap H)) as [removed kept] eqn:Hdrop.
    simpl. intros [= -> <-]. exists kept. done.
Qed.

(** C6, as the code has it.  In every reachable state: a call of
    [addDoctor], [scheduleAddSlot], [scheduleCancelSlot], [triageInsert] or
    [serveNext] that reports failure leaves the state as it was; a
    booking that reports failure leaves the schedules, the registry, the
    triage collection, the ledger and the counters as they were; an
    [undo] that reports failure leaves schedules, registry, triage
    collection and counters as they were and has removed the top record
    of the ledger, if there was one.  Every call that reports success has
    made its change in full and nothing else, as [committed] spells out
    for each call: the new doctor or slot; the slot unlinked, with a
    record and the pending counter decremented only if it was occupied;
    the patient stored and the earlier record kept in the ledger; the slot
    marked or the token queued, the triage entry inserted, each with its
    record, the pending counter, the visit frequency and the next token
    id; the token served from the triage collection, the queue or the
    first occupied slot, with its record and the two counters; and for
    [undo] the top record removed and reversed, where the reversal of a
    served routine token leaves a full queue as it is. *)
Theorem failure_and_success_amended op H r H' :
  reachable H -> exec op H = Some (r, H') ->
  (r = false ->
   schedules H' = schedules H /\
   patients H' = patients H /\
   triageHeap H' = triageHeap H /\
   servedCount H' = servedCount H /\
   pendingCountTotal H' = pendingCountTotal H /\
   undoStack H' = (if isUndo op then tail (undoStack H) else undoStack H) /\
   match op with
   | OpBook _ _ _ | OpUndo => True
   | _ => H' = H
   end) /\
  (r = true -> committed op H H').
Proof.
  intros Hr Hex. apply reachable_Inv in Hr. split.
  - intros ->. revert Hex. destruct op; unfold exec, isUndo.
    + unfold addDoctor. destruct (doctors H !! docId); [by intros [= <-]|].
      by destruct (queueCap <? 0).
    + unfold scheduleAddSlot. by destruct (doctors H !! doctorId); intros [= <-].
    + intros [= Heq].
      pose proof (scheduleCancelSlot_fails doctorId slotId H) as Hf.
      rewrite Heq in Hf. simpl in Hf. by rewrite Hf.
    + done.
    + destruct (enqueueRoutine patientId doctorId slotId H) as [res H1] eqn:He.
      intros [= Hres <-]. apply negb_false_iff, Z.eqb_eq in Hres. subst res.
      pose proof (inv_next H Hr) as Hn. revert He. unfold enqueueRoutine.
      destruct (doctors H !! doctorId) as [D|]; [|by intros [= <-]].
      destruct (patients H !! patientId) as [P|]; [|by intros [= <-]].
      destruct (negb (slotId =? -1)).
      * destruct (Doctor.findSlot slotId D) as [slot|]; [|by intros [= <-]].
        destruct (SlotNode.taken slot); [by intros [= <-]|].
        simpl. intros [= Habs _]. lia.
      * destruct (Doctor.isFull D); [by intros [= <-]|].
        simpl. intros [= Habs _]. lia.
    + unfold triageInsert. by destruct (patients H !! patientId); intros [= <-].
    + pose proof (serveNext_outcome doctorId H) as Ho.
      destruct (serveNext doctorId H) as [[tk|] H1]; simpl in Ho; intros Heq.
      * apply (f_equal (fun o => fst <$> o)) in Heq. vm_compute in Heq. discriminate.
      * apply (f_equal (fun o => snd <$> o)) in Heq. simpl in Heq.
        injection Heq as <-. by subst H1.
    + intros [= Heq].
      destruct (failed_undo H Hr) as (? & ? & ? & ? & ? & _ & ?); [by rewrite Heq|].
      rewrite Heq in *. done.
  - intros ->. destruct op.
    + revert Hex. unfold exec, committed, addDoctor.
      destruct (doctors H !! docId) eqn:HD; [done|].
      destruct (queueCap <? 0); [done|]. intros [= <-]. split; [done|].
      unfold leaves, schedules. simpl. by rewrite fmap_insert.
    + revert Hex. unfold exec, committed, scheduleAddSlot.
      destruct (doctors H !! doctorId) as [D|] eqn:HD; [|done]. intros [= <-].
      exists D. split; [done|]. unfold leaves, schedules. simpl. by rewrite fmap_insert.
    + by apply committed_cancel.
    + revert Hex. unfold exec, committed, patientUpsert. intros [= <-].
      exists (Action.set_upsert (bool_decide (is_Some (patients H !! Patient.id p)))
                (Patient.id p) (default Patient.default (patients H !! Patient.id p))
                (Action.init REGISTER_PATIENT)).
      do 3 (split; [reflexivity|]). split; [|done]. simpl. by intros old ->.
    + by apply committed_book.
    + revert Hex. unfold exec, committed, triageInsert.
      destruct (patients H !! patientId) as [P|] eqn:HP; [|done]. intros [= <-].
      exists P,
        (Action.set_severity severity
           (Action.set_token (Token.mk (nextTokenId H) patientId (-1) (-1) EMERGENCY)
              (Action.init TRIAGE_INSERT))).
      eexists. split; [done|]. do 3 (split; [reflexivity|]).
      split; [apply push_perm|]. split.
      * apply push_sorted. apply (li_sorted _ _ _ _ (inv_ledger H Hr)).
      * unfold leaves. simpl. unfold bumpFreq. by rewrite HP.
    + by apply committed_serve.
    + by apply committed_undo.
Qed.

Lemma failure_and_success_amended_witness :
  let Hf := after (seedSampleData ++ [OpBook 1 1 101; OpServe 1; OpUndo]) in
  let Hs := after (smallClinic ++ [OpServe 3; OpServe 3; OpUndo]) in
  (exec OpUndo Hf = Some (false, (undoPop Hf).2) /\
   (false = false ->
    schedules (undoPop Hf).2 = schedules Hf /\
    patients (undoPop Hf).2 = patients Hf /\
    triageHeap (undoPop Hf).2 = triageHeap Hf /\
    servedCount (undoPop Hf).2 = servedCount Hf /\
    pendingCountTotal (undoPop Hf).2 = pendingCountTotal Hf /\
    undoStack (undoPop Hf).2
    = (if isUndo OpUndo then tail (undoStack Hf) else undoStack Hf) /\
    True) /\
   (false = true -> committed OpUndo Hf (undoPop Hf).2)) /\
  (exec (OpBook 3 1 102) Hs = Some (true, (enqueueRoutine 3 1 102 Hs).2) /\
   (true = false ->
    schedules (enqueueRoutine 3 1 102 Hs).2 = schedules Hs /\
    patients (enqueueRoutine 3 1 102 Hs).2 = patients Hs /\
    triageHeap (enqueueRoutine 3 1 102 Hs).2 = triageHeap Hs /\
    servedCount (enqueueRoutine 3 1 102 Hs).2 = servedCount Hs /\
    pendingCountTotal (enqueueRoutine 3 1 102 Hs).2 = pendingCountTotal Hs /\
    undoStack (enqueueRoutine 3 1 102 Hs).2
    = (if isUndo (OpBook 3 1 102) then tail (undoStack Hs) else undoStack Hs) /\
    True) /\
   (true = true -> committed (OpBook 3 1 102) Hs (enqueueRoutine 3 1 102 Hs).2)) /\
  (exec OpUndo Hs = Some (true, (undoPop Hs).2) /\
   (true = true -> committed OpUndo Hs (undoPop Hs).2)).
Proof.
  split; [|split].
  - split; [vm_compute; reflexivity|].
    apply (failure_and_success_amended OpUndo
             (after (seedSampleData ++ [OpBook 1 1 101; OpServe 1; OpUndo])) false).
    + apply after_reachable. vm_compute. eauto.
    + vm_compute. reflexivity.
  - split; [vm_compute; reflexivity|].
    apply (failure_and_success_amended (OpBook 3 1 102)
             (after (smallClinic ++ [OpServe 3; OpServe 3; OpUndo])) true).
    + apply after_reachable. vm_compute. eauto.
    + vm_compute. reflexivity.
  - split; [vm_compute; reflexivity|].
    apply (failure_and_success_amended OpUndo
             (after (smallClinic ++ [OpServe 3; OpServe 3; OpUndo])) true).
    + apply after_reachable. vm_compute. eauto.
    + vm_compute. reflexivity.
Defined.

End Commit.

(** * The ledger, call by call *)

Section LedgerStack.
Import HospitalSystem.
Implicit Types (H : HospitalSystem.t) (D : Doctor.t).

Lemma undoPop_pops H : undoStack (undoPop H).2 = tail (undoStack H).
Proof.
  unfold undoPop. destruct (undoStack H) as [|act rest] eqn:Hu; [simpl; by rewrite Hu|].
  destruct (Action.type act); simpl.
  - destruct (doctors H !! Action.doctorId act) as [D|]; [|done].
    destruct (negb (Token.slotId (Action.token act) =? -1)).
    + destruct (Doctor.findSlot _ D) as [slot|]; [|done].
      by destruct (SlotNode.taken slot && _).
    + destruct (drainRoutine _ _ D false []) as [[D1 removed] tmp].
      by destruct removed.
  - destruct (doctors H !! Action.doctorId act) as [D|]; [|done].
    by destruct (Doctor.findSlot _ D).
  - destruct (Token.type (Action.token act)); [|done].
    by destruct (doctors H !! _).
  - by destruct (Action.patientExistedBefore act).
  - destruct (drainTriage _ _ false []) as [removed all]. by destruct removed.
Qed.

Lemma cancel_ledger d sid H :
  undoStack (scheduleCancelSlot d sid H).2
  = if pushes (OpCancelSlot d sid) H (scheduleCancelSlot d sid H).1
    then Action.set_slotPreviouslyTaken true
           (Action.set_doctorId d
              (Action.set_slotId sid
                 (Action.set_token
                    (Token.mk
                       (default (-1)
                          (SlotNode.tokenId <$>
                             (doctors H !! d ≫= Doctor.findSlot sid)))
                       (-1) d sid ROUTINE)
                    (Action.init CANCEL)))) :: undoStack H
    else undoStack H.
Proof.
  unfold scheduleCancelSlot, pushes.
  destruct (doctors H !! d) as [D|]; [|done]. simpl.
  destruct (Doctor.findSlot sid D) as [slot|] eqn:Hf; [|done].
  destruct (SlotNode.taken slot).
  - destruct (Doctor.cancelSlot sid (Doctor.writeSlot sid false (-1) D)) as [r' D2].
    done.
  - destruct (Doctor.cancelSlot sid D) as [r' D2]. done.
Qed.

(** One call and the ledger. *)
Lemma exec_ledger op H r H' :
  1 <= nextTokenId H -> exec op H = Some (r, H') ->
  (op = OpUndo -> undoStack H' = tail (undoStack H)) /\
  (op <> OpUndo ->
   if pushes op H r
   then exists a, undoStack H' = a :: undoStack H /\ r = true /\
                  recorded op = Some (Action.type a)
   else undoStack H' = undoStack H).
Proof.
  intros Hn. destruct op; unfold exec; simpl.
  - unfold addDoctor. destruct (doctors H !! docId); [by intros [= <- <-]|].
    destruct (queueCap <? 0); [done|]. by intros [= <- <-].
  - unfold scheduleAddSlot. destruct (doctors H !! doctorId); by intros [= <- <-].
  - intros [= Heq]. split; [done|]. intros _.
    pose proof (cancel_ledger doctorId slotId H) as Hc.
    pose proof (scheduleCancelSlot_fails doctorId slotId H) as Hfail.
    rewrite Heq in Hc, Hfail. simpl in Hc, Hfail. unfold pushes in Hc.
    destruct (doctors H !! doctorId) as [D|] eqn:HD; [|done].
    destruct (Doctor.findSlot slotId D) as [slot|] eqn:Hf; [|done].
    destruct (SlotNode.taken slot); [|done].
    eexists. split; [exact Hc|]. split; [|done].
    destruct r; [done|]. rewrite Hfail in Hc by done.
    apply (f_equal length) in Hc. simpl in Hc. lia.
  - intros [= <- <-]. unfold patientUpsert. simpl.
    split; [done|]. intros _. by eexists.
  - destruct (enqueueRoutine patientId doctorId slotId H) as [res H1] eqn:He.
    intros [= <- <-].
    destruct (failure_book patientId doctorId slotId H Hn) as [Hfail Hok].
    rewrite He in Hfail, Hok. simpl in Hfail, Hok.
    split; [done|]. intros _. destruct (res =? -1) eqn:E; simpl.
    + apply Z.eqb_eq in E. by apply Hfail.
    + apply Z.eqb_neq in E. destruct (Hok E) as (a & Hu & Hty).
      exists a. by rewrite Hty.
  - unfold triageInsert.
    destruct (patients H !! patientId); [|by intros [= <- <-]].
    intros [= <- <-]. simpl. split; [done|]. intros _. by eexists.
  - pose proof (serveNext_outcome doctorId H) as Ho.
    destruct (serveNext doctorId H) as [[tk|] H1]; simpl in Ho; intros [= <- <-].
    + destruct Ho as [(a & Hu & Hty) _].
      split; [done|]. intros _. exists a. by rewrite Hty.
    + subst H1. done.
  - intros [= Heq]. split; [|done]. intros _.
    pose proof (undoPop_pops H) as Hp. by rewrite Heq in Hp.
Qed.

Lemma ledgerKinds_run ops H H' :
  reachable H -> run ops H = Some H' ->
  Action.type <$> undoStack H' = ledgerKinds ops H (Action.type <$> undoStack H).
Proof.
  revert H. induction ops as [|op ops IH]; intros H Hr; simpl.
  - by intros [= <-].
  - destruct (exec op H) as [[r H1]|] eqn:Hex; [|done]. intros Hrun.
    rewrite (IH H1 (reachable_step op H r H1 Hr Hex) Hrun). f_equal.
    destruct (exec_ledger op H r H1 (inv_next H (reachable_Inv H Hr)) Hex) as [Hu Hp].
    assert (op = OpUndo \/ (op <> OpUndo /\ isUndo op = false)) as [->|[Hne Hi]]
      by (destruct op; (by left) || (by right)).
    + simpl. rewrite (Hu eq_refl). by destruct (undoStack H).
    + rewrite Hi. specialize (Hp Hne). destruct (pushes op H r); [|by rewrite Hp].
      destruct Hp as (a & -> & _ & ->). done.
Qed.

(** C8, as the code has it.  The ledger is a stack.  [undo] removes its
    top record, if there is one, whether or not it reverses the recorded
    call.  Every other call pushes exactly one record, of the kind of the
    call, or leaves the ledger as it is; it pushes one exactly when it is a
    booking, a triage insertion or a serve that reports success, an
    upsert, or a cancellation of an occupied slot.  The kinds of the
    records, read from the top, are therefore those of the recording calls
    made so far, latest first, less the ones that were on top at a call of
    [undo]. *)
Theorem ledger_is_a_stack ops op H r H' :
  run ops init = Some H -> exec op H = Some (r, H') ->
  (op = OpUndo -> undoStack H' = tail (undoStack H)) /\
  (op <> OpUndo ->
   if pushes op H r
   then exists a, undoStack H' = a :: undoStack H /\ r = true /\
                  recorded op = Some (Action.type a)
   else undoStack H' = undoStack H) /\
  Action.type <$> undoStack H' = ledgerKinds (ops ++ [op]) init [].
Proof.
  intros Hrun Hex.
  pose proof (run_reachable ops init H reachable_init Hrun) as Hr.
  destruct (exec_ledger op H r H' (inv_next H (reachable_Inv H Hr)) Hex) as [Hu Hp].
  split; [done|]. split; [done|].
  apply (ledgerKinds_run (ops ++ [op]) init H' reachable_init).
  rewrite run_app, Hrun. simpl. by rewrite Hex.
Qed.

Lemma ledger_is_a_stack_witness :
  let ops := seedSampleData ++ [OpBook 1 1 101] in
  let H := after ops in
  let H' := (scheduleCancelSlot 1 101 H).2 in
  pushes (OpCancelSlot 1 101) H true = true /\
  (OpCancelSlot 1 101 = OpUndo -> undoStack H' = tail (undoStack H)) /\
  (OpCancelSlot 1 101 <> OpUndo ->
   if pushes (OpCancelSlot 1 101) H true
   then exists a, undoStack H' = a :: undoStack H /\ true = true /\
                  recorded (OpCancelSlot 1 101) = Some (Action.type a)
   else undoStack H' = undoStack H) /\
  Action.type <$> undoStack H' = ledgerKinds (ops ++ [OpCancelSlot 1 101]) init [].
Proof.
  split; [vm_compute; reflexivity|].
  apply (ledger_is_a_stack (seedSampleData ++ [OpBook 1 1 101]) (OpCancelSlot 1 101)
           (after (seedSampleData ++ [OpBook 1 1 101])) true
           (scheduleCancelSlot 1 101 (after (seedSampleData ++ [OpBook 1 1 101]))).2).
  - vm_compute. reflexivity.
  - vm_compute. reflexivity.
Defined.

End LedgerStack.
